(** * configurator: a shallow embedding of the ZooKeeper tree synchroniser

    The development follows the Go sources: [src/configurator.go] (the
    current revision) and [src/unnamed/part_000] (an earlier revision of the
    same file).  The remote service and the local file system are external
    collaborators; they are taken as interfaces ([Conn], [LocalFS]) and every
    call that the program issues is recorded, with its answer, in a trace. *)

From Stdlib Require Import ZArith Ascii List Lia Bool.
From stdpp Require Import base strings gmap.
Import ListNotations.

Local Open Scope Z_scope.

(** ** Go's [path] package

    [path.Clean], [path.Split], [path.Dir] and [path.Join] belong to the Go
    standard library.  They are modelled element-wise from the four rules
    of the package documentation: a path is cut at every slash, empty and
    ["."] elements are dropped, [".."] removes the element before it (and is
    dropped at the root of a rooted path), and the remaining elements are
    glued together again. *)
Module path.

Definition slash : ascii := "/"%char.

(** The pieces of [s] between slashes, as [strings.Split s "/"] gives
    them. *)
Fixpoint segments (s : string) : list string :=
  match s with
  | EmptyString => [EmptyString]
  | String c r =>
      if Ascii.eqb c slash then EmptyString :: segments r
      else match segments r with
           | seg :: rest => String c seg :: rest
           | [] => [String c EmptyString]
           end
  end.

Definition isRooted (p : string) : bool :=
  match p with
  | String c _ => Ascii.eqb c slash
  | EmptyString => false
  end.

(** One element read by [Clean]; [stack] holds the elements written so
    far, last one first. *)
Definition step (rooted : bool) (stack : list string) (seg : string)
  : list string :=
  if String.eqb seg "" then stack
  else if String.eqb seg "." then stack
  else if String.eqb seg ".." then
    match stack with
    | top :: below => if String.eqb top ".." then seg :: stack else below
    | [] => if rooted then [] else [seg]
    end
  else seg :: stack.

Fixpoint intercalate (cs : list string) : string :=
  match cs with
  | [] => ""
  | c :: rest =>
      match rest with
      | [] => c
      | _ :: _ => c +:+ String slash (intercalate rest)
      end
  end.

(** The rooted path with elements [cs]: ["/"] for no element. *)
Definition render (cs : list string) : string :=
  String slash (intercalate cs).

Definition Clean (p : string) : string :=
  match p with
  | EmptyString => "."
  | String _ _ =>
      let cs := rev (fold_left (step (isRooted p)) (segments p) []) in
      if isRooted p then render cs
      else match cs with
           | [] => "."
           | _ :: _ => intercalate cs
           end
  end.

(** [Split] cuts after the last slash. *)
Fixpoint Split (p : string) : string * string :=
  match p with
  | EmptyString => (EmptyString, EmptyString)
  | String c r =>
      let (d, f) := Split r in
      match d with
      | String _ _ => (String c d, f)
      | EmptyString =>
          if Ascii.eqb c slash then (String c EmptyString, f)
          else (EmptyString, String c f)
      end
  end.

Definition Dir (p : string) : string := Clean (fst (Split p)).

(** [Join a b]: empty elements are ignored, the rest is glued with a
    slash and cleaned; all elements empty gives the empty string. *)
Definition Join (a b : string) : string :=
  match a, b with
  | EmptyString, EmptyString => EmptyString
  | EmptyString, String _ _ => Clean b
  | String _ _, EmptyString => Clean a
  | String _ _, String _ _ => Clean (a +:+ String slash b)
  end.

(** [p[n:]] for [n <= len(p)]. *)
Fixpoint sliceFrom (n : nat) (p : string) : string :=
  match n, p with
  | O, _ => p
  | S k, String _ r => sliceFrom k r
  | S _, EmptyString => EmptyString
  end.

Fixpoint hasSlash (s : string) : bool :=
  match s with
  | EmptyString => false
  | String c r => Ascii.eqb c slash || hasSlash r
  end.

(** A file or node name: not empty, no slash, neither ["."] nor [".."]. *)
Definition validName (c : string) : bool :=
  negb (String.eqb c "") && negb (String.eqb c ".")
  && negb (String.eqb c "..") && negb (hasSlash c).

Definition validNames (cs : list string) : Prop :=
  Forall (fun c => validName c = true) cs.

Definition noSlash (s : string) : Prop := hasSlash s = false.
Definition nonEmpty (s : string) : bool := negb (String.eqb s "").

(** The pieces that are not empty. *)
Definition names (segs : list string) : list string :=
  List.filter nonEmpty segs.

(** An element that [Clean] keeps on a path that is not rooted. *)
Definition piece (s : string) : Prop := nonEmpty s = true /\ noSlash s.

(** Every piece is a valid name or empty. *)
Definition plain (segs : list string) : Prop :=
  Forall (fun s => s = "" \/ validName s = true) segs.

(** The number of elements of a path. *)
Definition numComponents (p : string) : nat :=
  length (names (segments p)).

(** A rooted path that [Clean] leaves as it is. *)
Definition canonical (p : string) : Prop :=
  isRooted p = true /\ Clean p = p.

End path.

(** The path reached from [root] through the names [cs], joined one at a
    time: [filepath.Walk] builds the visited local paths this way (line 114)
    and [doDownload] its remote and local paths (lines 149-150). *)
Definition descend (root : string) (cs : list string) : string :=
  fold_left path.Join cs root.

(** Line 73 of [doUpload]: the remote path of a visited local path. *)
Definition remotePathOf (serverPrefix absLocal visitedPath : string) : string :=
  path.Join serverPrefix (path.sliceFrom (String.length absLocal) visitedPath).


(** ** Values exchanged with the collaborators *)

Definition bytes := list Byte.byte.

Inductive result (E A : Type) : Type :=
| Ok (a : A)
| Err (e : E).
Arguments Ok {E A} a.
Arguments Err {E A} e.

(** The errors of [go-zookeeper] that matter here. *)
Inductive ZkError :=
| ErrNoNode | ErrNodeExists | ErrBadVersion | ErrNotEmpty
| ErrNoAuth | ErrConnectionClosed.

Definition isErrNoNode (e : ZkError) : bool :=
  match e with ErrNoNode => true | _ => false end.
Definition isErrNodeExists (e : ZkError) : bool :=
  match e with ErrNodeExists => true | _ => false end.

(** [zk.Stat]: [Version], [NumChildren] and [DataLength] are [int32],
    [Mtime] is an [int64] of milliseconds since the epoch. *)
Record Stat := mkStat
  { Version : Z; NumChildren : Z; DataLength : Z; Mtime : Z }.

(** [time.Time] as [time.Unix] builds it: seconds and nanoseconds since the
    epoch, in the local location. *)
Record Time := mkTime { sec : Z; nsec : Z }.

Definition Unix (s n : Z) : Time :=
  if (n <? 0) || (n >=? 1000000000) then
    let q := Z.quot n 1000000000 in
    let s1 := s + q in
    let n1 := n - q * 1000000000 in
    if n1 <? 0 then mkTime (s1 - 1) (n1 + 1000000000) else mkTime s1 n1
  else mkTime s n.

(** [t == u] on two values built by [time.Unix]. *)
Definition Time_eqb (t u : Time) : bool :=
  (sec t =? sec u) && (nsec t =? nsec u).

(** [t.After(u)]. *)
Definition After (t u : Time) : bool :=
  (sec t >? sec u) || ((sec t =? sec u) && (nsec t >? nsec u)).

(** Nanoseconds since the epoch, to compare a [Time] with a timestamp. *)
Definition UnixNano (t : Time) : Z := sec t * 1000000000 + nsec t.

Inductive FsError := ENOENT | EEXIST | EACCES | EISDIR | ENOTDIR.

Definition IsExist (e : FsError) : bool :=
  match e with EEXIST => true | _ => false end.
Definition IsNotExist (e : FsError) : bool :=
  match e with ENOENT => true | _ => false end.

(** [os.FileInfo], as far as the program looks at it. *)
Record FileInfo := mkFileInfo
  { fiIsDir : bool; fiIsRegular : bool; ModTime : Time }.

Definition nodeMode : Z := 484.   (* 0744 *)
Definition fileMode : Z := 420.   (* 0644 *)

(** ** The two collaborators *)

(** [*zk.Conn]: every call may change the remote state [W] (other clients
    share it).  [Create] is always called with flags [0] and
    [zk.AuthACL(zk.PermAll)]. *)
Class Conn (W : Type) := mkConn
  { zkChildren : string -> W -> result ZkError (list string * Stat) * W;
    zkGet : string -> W -> result ZkError (bytes * Stat) * W;
    zkExists : string -> W -> result ZkError (bool * Stat) * W;
    zkCreate : string -> bytes -> W -> option ZkError * W;
    zkSet : string -> bytes -> Z -> W -> option ZkError * W;
    zkDelete : string -> Z -> W -> option ZkError * W }.

(** The local file system: [filepath.Abs], [os.Lstat], [os.Stat], the
    sorted names of a directory, [ioutil.ReadFile] read it; [os.Mkdir],
    [ioutil.WriteFile] and [os.Chtimes] change it. *)
Class LocalFS (F : Type) := mkLocalFS
  { fsAbs : string -> F -> result FsError string;
    fsLstat : string -> F -> result FsError FileInfo;
    fsStat : string -> F -> result FsError FileInfo;
    fsReadDirNames : string -> F -> result FsError (list string);
    fsReadFile : string -> F -> result FsError bytes;
    fsMkdir : string -> Z -> F -> option FsError * F;
    fsWriteFile : string -> bytes -> Z -> F -> option FsError * F;
    fsChtimes : string -> Time -> Time -> F -> option FsError * F }.

(** ** Output, calls and outcomes *)

(** [fmt.Printf] writes to standard output, [log.Printf] to the logger. *)
Inductive Stream := Stdout | Logger.

(** One constructor for each format string of the program. *)
Inductive Msg :=
| MPathNotThere (p : string)
| MWillDelete (p : string)
| MDirAlreadyCreated (p : string)
| MNotRegular (p : string)
| MDirAlreadyThere (p : string)
| MOverwrote (l r : string)
| MCopied (l r : string)
| MLocalDirPresent (p : string)
| MCreatedLocalDir (p : string)
| MRemoteModifiedOn (t : Time)
| MLocalMissing
| MLocalModifiedOn (t : Time)
| MFilesSame
| MRemoteNewer
| MRemoteOlder (p : string)
| MDownloaded (p : string)
| MAllDone.

(** Every call issued to a collaborator, with its answer, and every line
    printed, in the order of execution. *)
Inductive Event :=
| EvChildren (p : string) (r : result ZkError (list string * Stat))
| EvGet (p : string) (r : result ZkError (bytes * Stat))
| EvExists (p : string) (r : result ZkError (bool * Stat))
| EvCreate (p : string) (data : bytes) (r : option ZkError)
| EvSet (p : string) (data : bytes) (version : Z) (r : option ZkError)
| EvDelete (p : string) (version : Z) (r : option ZkError)
| EvAbs (p : string) (r : result FsError string)
| EvLstat (p : string) (r : result FsError FileInfo)
| EvStat (p : string) (r : result FsError FileInfo)
| EvReadDirNames (p : string) (r : result FsError (list string))
| EvReadFile (p : string) (r : result FsError bytes)
| EvMkdir (p : string) (mode : Z) (r : option FsError)
| EvWriteFile (p : string) (data : bytes) (mode : Z) (r : option FsError)
| EvChtimes (p : string) (atime mtime : Time) (r : option FsError)
| EvPrint (s : Stream) (m : Msg).

Inductive PanicVal :=
| PZk (e : ZkError)
| PFs (e : FsError)
| PStr (s : string)
| PNilDeref.

(** How a run can stop short: a [panic], [os.Exit] (from [log.Fatalf]), or
    the recursion bound of the model. *)
Inductive Abort :=
| Panicked (v : PanicVal)
| Exited (code : Z)
| OutOfFuel.

Inductive Outcome (A : Type) : Type :=
| Done (a : A)
| Aborted (a : Abort).
Arguments Done {A} a.
Arguments Aborted {A} a.

Record World (W F : Type) := mkWorld { zk : W; fs : F }.
Arguments mkWorld {W F} zk fs.
Arguments zk {W F} w.
Arguments fs {W F} w.

(** Calls that change the remote namespace when they succeed. *)
Definition isRemoteWrite (e : Event) : bool :=
  match e with
  | EvCreate _ _ _ | EvSet _ _ _ _ | EvDelete _ _ _ => true
  | _ => false
  end.

Definition isRemoteCall (e : Event) : bool :=
  match e with
  | EvChildren _ _ | EvGet _ _ | EvExists _ _
  | EvCreate _ _ _ | EvSet _ _ _ _ | EvDelete _ _ _ => true
  | _ => false
  end.

(** Calls that change the local file system when they succeed. *)
Definition isLocalWrite (e : Event) : bool :=
  match e with
  | EvMkdir _ _ _ | EvWriteFile _ _ _ _ | EvChtimes _ _ _ _ => true
  | _ => false
  end.

(** An output line with the stream forgotten. *)
Definition toStdout (e : Event) : Event :=
  match e with
  | EvPrint _ m => EvPrint Stdout m
  | _ => e
  end.

(** ** The monad of the program: state of both collaborators, the trace of
    this run, and early exit *)

Definition M (W F A : Type) : Type :=
  World W F -> Outcome A * World W F * list Event.

Definition ret {W F A} (a : A) : M W F A :=
  fun w => (Done a, w, []).

Definition bind {W F A B} (m : M W F A) (k : A -> M W F B) : M W F B :=
  fun w =>
    match m w with
    | (Done a, w1, t1) =>
        match k a w1 with
        | (o, w2, t2) => (o, w2, t1 ++ t2)
        end
    | (Aborted a, w1, t1) => (Aborted a, w1, t1)
    end.

Notation "x <- m ;; k" := (bind m (fun x => k))
  (at level 100, m at next level, right associativity).
Notation "m ;;; k" := (bind m (fun _ => k))
  (at level 100, right associativity).

Definition abort {W F A} (a : Abort) : M W F A :=
  fun w => (Aborted a, w, []).

Definition panic {W F A} (v : PanicVal) : M W F A := abort (Panicked v).

Definition print {W F} (s : Stream) (m : Msg) : M W F unit :=
  fun w => (Done tt, w, [EvPrint s m]).

(** [log.Printf] and [fmt.Printf]. *)
Definition logPrintf {W F} (m : Msg) : M W F unit := print Logger m.
Definition fmtPrintf {W F} (m : Msg) : M W F unit := print Stdout m.

(** [log.Fatalf]: the line is written, then [os.Exit(1)]. *)
Definition logFatalf {W F A} (m : Msg) : M W F A :=
  fun w => (Aborted (Exited 1), w, [EvPrint Logger m]).

(** [for _, x := range l { body }]. *)
Fixpoint forEach {W F A} (l : list A) (body : A -> M W F unit) : M W F unit :=
  match l with
  | [] => ret tt
  | x :: rest => body x ;;; forEach rest body
  end.

Definition outcome {W F A} (r : Outcome A * World W F * list Event) : Outcome A :=
  fst (fst r).
Definition final {W F A} (r : Outcome A * World W F * list Event) : World W F :=
  snd (fst r).
Definition trace {W F A} (r : Outcome A * World W F * list Event) : list Event :=
  snd r.

Section Calls.
Context {W F : Type} `{Conn W} `{LocalFS F}.

Definition remote {A} (call : W -> A * W) (ev : A -> Event) : M W F A :=
  fun w =>
    let (r, z) := call (zk w) in
    (Done r, mkWorld z (fs w), [ev r]).

Definition localRead {A} (call : F -> A) (ev : A -> Event) : M W F A :=
  fun w => let r := call (fs w) in (Done r, w, [ev r]).

Definition localWrite {A} (call : F -> A * F) (ev : A -> Event) : M W F A :=
  fun w =>
    let (r, f) := call (fs w) in
    (Done r, mkWorld (zk w) f, [ev r]).

Definition cChildren (p : string) := remote (zkChildren p) (EvChildren p).
Definition cGet (p : string) := remote (zkGet p) (EvGet p).
Definition cExists (p : string) := remote (zkExists p) (EvExists p).
Definition cCreate (p : string) (d : bytes) :=
  remote (zkCreate p d) (EvCreate p d).
Definition cSet (p : string) (d : bytes) (v : Z) :=
  remote (zkSet p d v) (EvSet p d v).
Definition cDelete (p : string) (v : Z) :=
  remote (zkDelete p v) (EvDelete p v).

Definition filepathAbs (p : string) := localRead (fsAbs p) (EvAbs p).
Definition osLstat (p : string) := localRead (fsLstat p) (EvLstat p).
Definition osStat (p : string) := localRead (fsStat p) (EvStat p).
Definition readDirNames (p : string) :=
  localRead (fsReadDirNames p) (EvReadDirNames p).
Definition ReadFile (p : string) := localRead (fsReadFile p) (EvReadFile p).
Definition osMkdir (p : string) (mode : Z) :=
  localWrite (fsMkdir p mode) (EvMkdir p mode).
Definition WriteFile (p : string) (d : bytes) (mode : Z) :=
  localWrite (fsWriteFile p d mode) (EvWriteFile p d mode).
Definition osChtimes (p : string) (a m : Time) :=
  localWrite (fsChtimes p a m) (EvChtimes p a m).

End Calls.

(** ** [src/configurator.go] *)

Section Configurator.
Context {W F : Type} `{Conn W} `{LocalFS F}.

(** [doDelete], lines 19-36.  The value of [c.Delete] is dropped. *)
Fixpoint doDelete (fuel : nat) (serverPrefix : string) : M W F unit :=
  match fuel with
  | O => abort OutOfFuel
  | S n =>
      r <- cChildren serverPrefix ;;
      match r with
      | Err err =>
          if isErrNoNode err
          then logPrintf (MPathNotThere serverPrefix)
          else panic (PZk err)
      | Ok (children, stat) =>
          forEach children
            (fun child => doDelete n (path.Join serverPrefix child)) ;;;
          logPrintf (MWillDelete serverPrefix) ;;;
          _ <- cDelete serverPrefix (Version stat) ;;
          ret tt
      end
  end.

(** [ensureRemotePath], lines 38-52. *)
Fixpoint ensureRemotePath (fuel : nat) (serverPrefix : string) : M W F unit :=
  match fuel with
  | O => abort OutOfFuel
  | S n =>
      if String.eqb serverPrefix "/" then ret tt
      else
        let dir := path.Dir serverPrefix in
        ensureRemotePath n dir ;;;
        r <- cCreate serverPrefix [] ;;
        match r with
        | Some err =>
            if isErrNodeExists err
            then logPrintf (MDirAlreadyCreated serverPrefix)
            else panic (PZk err)
        | None => ret tt
        end
  end.

(** The message of the [panic] of line 97. *)
Definition structuralConflict (remotePath : string) : PanicVal :=
  PStr ("Remote path is a dir when a file is expected: " +:+ remotePath).

(** The closure [visitFunc] of [doUpload], lines 63-113.  It returns its
    own argument [err], which is [nil] on every path after line 66. *)
Definition visitFunc (serverPrefix absLocal : string)
    (visitedPath : string) (fInfo : option FileInfo) (err : option FsError)
  : M W F (option FsError) :=
  match err with
  | Some e => ret (Some e)
  | None =>
      match fInfo with
      | None => panic PNilDeref
      | Some fInfo =>
          if negb (fiIsRegular fInfo) && negb (fiIsDir fInfo) then
            logPrintf (MNotRegular visitedPath) ;;; ret None
          else
            let remotePath :=
              remotePathOf serverPrefix absLocal visitedPath in
            fData <- (if fiIsDir fInfo then ret []
                      else r <- ReadFile visitedPath ;;
                           match r with
                           | Err e => panic (PFs e)
                           | Ok data => ret data
                           end) ;;
            r <- cCreate remotePath fData ;;
            match r with
            | Some e =>
                if isErrNodeExists e then
                  if fiIsDir fInfo then
                    logPrintf (MDirAlreadyThere remotePath)
                  else
                    r <- cExists remotePath ;;
                    match r with
                    | Err e => panic (PZk e)
                    | Ok (_, fStat) =>
                        if NumChildren fStat >? 0 then
                          panic (structuralConflict remotePath)
                        else
                          r <- cSet remotePath fData (Version fStat) ;;
                          match r with
                          | Some e => panic (PZk e)
                          | None =>
                              logPrintf (MOverwrote visitedPath remotePath)
                          end
                    end
                else panic (PZk e)
            | None => logPrintf (MCopied visitedPath remotePath)
            end ;;;
            ret None
      end
  end.

(** [filepath.walk] of the Go standard library; [walkFn] never returns
    [filepath.SkipDir] here, so that case is left out. *)
Fixpoint walk (fuel : nat)
    (walkFn : string -> option FileInfo -> option FsError
              -> M W F (option FsError))
    (p : string) (info : FileInfo) : M W F (option FsError) :=
  match fuel with
  | O => abort OutOfFuel
  | S n =>
      e <- walkFn p (Some info) None ;;
      match e with
      | Some e => ret (Some e)
      | None =>
          if negb (fiIsDir info) then ret None
          else
            r <- readDirNames p ;;
            match r with
            | Err e => walkFn p (Some info) (Some e)
            | Ok names =>
                (fix each (names : list string) : M W F (option FsError) :=
                   match names with
                   | [] => ret None
                   | name :: rest =>
                       let filename := path.Join p name in
                       r <- osLstat filename ;;
                       e <- match r with
                            | Err e => walkFn filename None (Some e)
                            | Ok fileInfo => walk n walkFn filename fileInfo
                            end ;;
                       match e with
                       | Some e => ret (Some e)
                       | None => each rest
                       end
                   end) names
            end
      end
  end.

(** [filepath.Walk]. *)
Definition Walk (fuel : nat) (root : string)
    (walkFn : string -> option FileInfo -> option FsError
              -> M W F (option FsError))
  : M W F (option FsError) :=
  r <- osLstat root ;;
  match r with
  | Err e => walkFn root None (Some e)
  | Ok info => walk fuel walkFn root info
  end.

(** [doUpload], lines 54-117. *)
Definition doUpload (fuel : nat) (serverPrefix localPrefix : string)
  : M W F unit :=
  r <- filepathAbs localPrefix ;;
  match r with
  | Err e => panic (PFs e)
  | Ok absLocal =>
      ensureRemotePath fuel serverPrefix ;;;
      e <- Walk fuel absLocal (visitFunc serverPrefix absLocal) ;;
      match e with
      | Some e => panic (PFs e)
      | None => ret tt
      end
  end.

(** Lines 179-187 of [doDownload]: write the file, set its times. *)
Definition createFile (localPrefix : string) (fData : bytes) (mtime : Time)
  : M W F unit :=
  r <- WriteFile localPrefix fData fileMode ;;
  match r with
  | Some e => panic (PFs e)
  | None =>
      r <- osChtimes localPrefix mtime mtime ;;
      match r with
      | Some e => panic (PFs e)
      | None => fmtPrintf (MDownloaded localPrefix)
      end
  end.

(** Lines 156-188 of [doDownload]: the node holds data. *)
Definition downloadFile (localPrefix : string) (fData : bytes) (stat : Stat)
  : M W F unit :=
  let mtime := Unix (Z.quot (Mtime stat) 1000) 0 in
  logPrintf (MRemoteModifiedOn mtime) ;;;
  r <- osStat localPrefix ;;
  match r with
  | Err e =>
      if IsNotExist e
      then logPrintf MLocalMissing ;;; createFile localPrefix fData mtime
      else panic (PFs e)
  | Ok fInfo =>
      logPrintf (MLocalModifiedOn (ModTime fInfo)) ;;;
      if Time_eqb mtime (ModTime fInfo) then
        logPrintf MFilesSame
      else if After mtime (ModTime fInfo) then
        logPrintf MRemoteNewer ;;; createFile localPrefix fData mtime
      else
        fmtPrintf (MRemoteOlder localPrefix) ;;;
        createFile localPrefix fData mtime
  end.

(** [doDownload], lines 119-189. *)
Fixpoint doDownload (fuel : nat) (serverPrefix localPrefix : string)
  : M W F unit :=
  match fuel with
  | O => abort OutOfFuel
  | S n =>
      r <- cGet serverPrefix ;;
      match r with
      | Err err =>
          if isErrNoNode err
          then logFatalf (MPathNotThere serverPrefix)
          else panic (PZk err)
      | Ok (fData, stat) =>
          if DataLength stat =? 0 then
            r <- osMkdir localPrefix nodeMode ;;
            match r with
            | Some e =>
                if IsExist e
                then logPrintf (MLocalDirPresent localPrefix)
                else panic (PFs e)
            | None => logPrintf (MCreatedLocalDir localPrefix)
            end ;;;
            if NumChildren stat >? 0 then
              r <- cChildren serverPrefix ;;
              match r with
              | Err e => panic (PZk e)
              | Ok (children, _) =>
                  forEach children
                    (fun child =>
                       doDownload n (path.Join serverPrefix child)
                                    (path.Join localPrefix child))
              end
            else ret tt
          else downloadFile localPrefix fData stat
      end
  end.

(** The dispatch at the end of [main], lines 214-223. *)
Definition mainBody (fuel : nat) (isUpload isDelete : bool)
    (serverPrefix localPrefix : string) : M W F unit :=
  (if isUpload then
     (if isDelete then doDelete fuel serverPrefix else ret tt) ;;;
     doUpload fuel serverPrefix localPrefix
   else doDownload fuel serverPrefix localPrefix) ;;;
  logPrintf MAllDone.

End Configurator.

(** ** [src/unnamed/part_000], the earlier revision: it prints with
    [fmt.Printf], and its [doDownload] knows no modification times. *)
Module Old.
Section Old.
Context {W F : Type} `{Conn W} `{LocalFS F}.

(** [doDelete], lines 18-35. *)
Fixpoint doDelete (fuel : nat) (serverPrefix : string) : M W F unit :=
  match fuel with
  | O => abort OutOfFuel
  | S n =>
      r <- cChildren serverPrefix ;;
      match r with
      | Err err =>
          if isErrNoNode err
          then fmtPrintf (MPathNotThere serverPrefix)
          else panic (PZk err)
      | Ok (children, stat) =>
          forEach children
            (fun child => doDelete n (path.Join serverPrefix child)) ;;;
          fmtPrintf (MWillDelete serverPrefix) ;;;
          _ <- cDelete serverPrefix (Version stat) ;;
          ret tt
      end
  end.

(** [doDownload], lines 114-157. *)
Fixpoint doDownload (fuel : nat) (serverPrefix localPrefix : string)
  : M W F unit :=
  match fuel with
  | O => abort OutOfFuel
  | S n =>
      r <- cGet serverPrefix ;;
      match r with
      | Err err =>
          if isErrNoNode err
          then fmtPrintf (MPathNotThere serverPrefix)
          else panic (PZk err)
      | Ok (fData, stat) =>
          if DataLength stat =? 0 then
            r <- osMkdir localPrefix nodeMode ;;
            match r with
            | Some e =>
                if IsExist e
                then fmtPrintf (MLocalDirPresent localPrefix)
                else panic (PFs e)
            | None => fmtPrintf (MCreatedLocalDir localPrefix)
            end ;;;
            if NumChildren stat >? 0 then
              r <- cChildren serverPrefix ;;
              match r with
              | Err e => panic (PZk e)
              | Ok (children, _) =>
                  forEach children
                    (fun child =>
                       doDownload n (path.Join serverPrefix child)
                                    (path.Join localPrefix child))
              end
            else ret tt
          else
            r <- WriteFile localPrefix fData fileMode ;;
            match r with
            | Some e => panic (PFs e)
            | None => fmtPrintf (MDownloaded localPrefix)
            end
      end
  end.

(** [ensureRemotePath], lines 37-51. *)
Fixpoint ensureRemotePath (fuel : nat) (serverPrefix : string) : M W F unit :=
  match fuel with
  | O => abort OutOfFuel
  | S n =>
      if String.eqb serverPrefix "/" then ret tt
      else
        let dir := path.Dir serverPrefix in
        ensureRemotePath n dir ;;;
        r <- cCreate serverPrefix [] ;;
        match r with
        | Some err =>
            if isErrNodeExists err
            then fmtPrintf (MDirAlreadyCreated serverPrefix)
            else panic (PZk err)
        | None => ret tt
        end
  end.

(** The closure [visitFunc] of [doUpload], lines 62-108.  This revision
    uses [fInfo] without looking at [err] first, and returns [err] at the
    end. *)
Definition visitFunc (serverPrefix absLocal : string)
    (visitedPath : string) (fInfo : option FileInfo) (err : option FsError)
  : M W F (option FsError) :=
  match fInfo with
  | None => panic PNilDeref
  | Some fInfo =>
      if negb (fiIsRegular fInfo) && negb (fiIsDir fInfo) then
        fmtPrintf (MNotRegular visitedPath) ;;; ret err
      else
        let remotePath :=
          remotePathOf serverPrefix absLocal visitedPath in
        fData <- (if fiIsDir fInfo then ret []
                  else r <- ReadFile visitedPath ;;
                       match r with
                       | Err e => panic (PFs e)
                       | Ok data => ret data
                       end) ;;
        r <- cCreate remotePath fData ;;
        match r with
        | Some e =>
            if isErrNodeExists e then
              if fiIsDir fInfo then
                fmtPrintf (MDirAlreadyThere remotePath)
              else
                r <- cExists remotePath ;;
                match r with
                | Err e => panic (PZk e)
                | Ok (_, fStat) =>
                    if NumChildren fStat >? 0 then
                      panic (structuralConflict remotePath)
                    else
                      r <- cSet remotePath fData (Version fStat) ;;
                      match r with
                      | Some e => panic (PZk e)
                      | None =>
                          fmtPrintf (MOverwrote visitedPath remotePath)
                      end
                end
            else panic (PZk e)
        | None => fmtPrintf (MCopied visitedPath remotePath)
        end ;;;
        ret err
  end.

(** [doUpload], lines 53-112. *)
Definition doUpload (fuel : nat) (serverPrefix localPrefix : string)
  : M W F unit :=
  r <- filepathAbs localPrefix ;;
  match r with
  | Err e => panic (PFs e)
  | Ok absLocal =>
      ensureRemotePath fuel serverPrefix ;;;
      e <- Walk fuel absLocal (visitFunc serverPrefix absLocal) ;;
      match e with
      | Some e => panic (PFs e)
      | None => ret tt
      end
  end.

End Old.
End Old.

(** ** Reference collaborators

    An in-memory ZooKeeper and an in-memory file system, used to run the
    program on concrete inputs. *)

Record ZNode := mkZNode { zdata : bytes; zversion : Z; zmtime : Z }.

(** The namespace and the server clock in milliseconds. *)
Record MemZk := mkMemZk { nodes : gmap string ZNode; clock : Z }.

Definition childrenOf (p : string) (m : MemZk) : list string :=
  omap (fun kv : string * ZNode =>
          let k := fst kv in
          if String.eqb k p then None
          else if String.eqb (path.Dir k) p then Some (snd (path.Split k))
          else None)
       (map_to_list (nodes m)).

Definition statOf (p : string) (n : ZNode) (m : MemZk) : Stat :=
  mkStat (zversion n) (Z.of_nat (length (childrenOf p m)))
         (Z.of_nat (length (zdata n))) (zmtime n).

Definition memChildren (p : string) (m : MemZk)
  : result ZkError (list string * Stat) * MemZk :=
  match nodes m !! p with
  | None => (Err ErrNoNode, m)
  | Some n => (Ok (childrenOf p m, statOf p n m), m)
  end.

Definition memGet (p : string) (m : MemZk)
  : result ZkError (bytes * Stat) * MemZk :=
  match nodes m !! p with
  | None => (Err ErrNoNode, m)
  | Some n => (Ok (zdata n, statOf p n m), m)
  end.

Definition memExists (p : string) (m : MemZk)
  : result ZkError (bool * Stat) * MemZk :=
  match nodes m !! p with
  | None => (Ok (false, mkStat 0 0 0 0), m)
  | Some n => (Ok (true, statOf p n m), m)
  end.

Definition memCreate (p : string) (d : bytes) (m : MemZk)
  : option ZkError * MemZk :=
  match nodes m !! p with
  | Some _ => (Some ErrNodeExists, m)
  | None =>
      match nodes m !! path.Dir p with
      | None => (Some ErrNoNode, m)
      | Some _ =>
          (None, mkMemZk (<[p := mkZNode d 0 (clock m)]> (nodes m))
                         (clock m + 1))
      end
  end.

Definition memSet (p : string) (d : bytes) (v : Z) (m : MemZk)
  : option ZkError * MemZk :=
  match nodes m !! p with
  | None => (Some ErrNoNode, m)
  | Some n =>
      if (v =? -1) || (v =? zversion n) then
        (None, mkMemZk (<[p := mkZNode d (zversion n + 1) (clock m)]> (nodes m))
                       (clock m + 1))
      else (Some ErrBadVersion, m)
  end.

Definition memDelete (p : string) (v : Z) (m : MemZk)
  : option ZkError * MemZk :=
  match nodes m !! p with
  | None => (Some ErrNoNode, m)
  | Some n =>
      if (v =? -1) || (v =? zversion n) then
        match childrenOf p m with
        | [] => (None, mkMemZk (delete p (nodes m)) (clock m))
        | _ :: _ => (Some ErrNotEmpty, m)
        end
      else (Some ErrBadVersion, m)
  end.

#[export] Instance MemZk_Conn : Conn MemZk :=
  mkConn MemZk memChildren memGet memExists memCreate memSet memDelete.

(** The same service with a second client at work: whenever this client
    lists a node, the other one rewrites that node's data before the next
    call arrives. *)
Record RacyZk := mkRacy { inner : MemZk }.

Definition lift {A} (f : MemZk -> A * MemZk) (r : RacyZk) : A * RacyZk :=
  let (a, m) := f (inner r) in (a, mkRacy m).

Definition racyChildren (p : string) (r : RacyZk)
  : result ZkError (list string * Stat) * RacyZk :=
  let (a, m) := memChildren p (inner r) in
  (a, mkRacy (snd (memSet p [] (-1) m))).

#[export] Instance RacyZk_Conn : Conn RacyZk :=
  mkConn RacyZk racyChildren
    (fun p => lift (memGet p)) (fun p => lift (memExists p))
    (fun p d => lift (memCreate p d)) (fun p d v => lift (memSet p d v))
    (fun p v => lift (memDelete p v)).

Inductive Kind := KFile | KDir | KOther.

Record Entry := mkEntry { kind : Kind; content : bytes; modTime : Time }.

(** The entries by absolute path and the clock of the machine. *)
Record MemFS := mkMemFS { entries : gmap string Entry; now : Time }.

Definition infoOf (e : Entry) : FileInfo :=
  mkFileInfo (match kind e with KDir => true | _ => false end)
             (match kind e with KFile => true | _ => false end)
             (modTime e).

Definition memStat (p : string) (f : MemFS) : result FsError FileInfo :=
  match entries f !! p with
  | None => Err ENOENT
  | Some e => Ok (infoOf e)
  end.

Definition memAbs (p : string) (f : MemFS) : result FsError string :=
  Ok (if path.isRooted p then path.Clean p else path.Join "/" p).

Definition memReadDirNames (p : string) (f : MemFS)
  : result FsError (list string) :=
  match entries f !! p with
  | None => Err ENOENT
  | Some e =>
      match kind e with
      | KDir =>
          Ok (omap (fun kv : string * Entry =>
                      let k := fst kv in
                      if String.eqb k p then None
                      else if String.eqb (path.Dir k) p
                           then Some (snd (path.Split k))
                           else None)
                   (map_to_list (entries f)))
      | _ => Err ENOTDIR
      end
  end.

Definition memReadFile (p : string) (f : MemFS) : result FsError bytes :=
  match entries f !! p with
  | None => Err ENOENT
  | Some e =>
      match kind e with
      | KDir => Err EISDIR
      | _ => Ok (content e)
      end
  end.

Definition hasDir (p : string) (f : MemFS) : bool :=
  match entries f !! p with
  | Some e => match kind e with KDir => true | _ => false end
  | None => false
  end.

Definition memMkdir (p : string) (mode : Z) (f : MemFS)
  : option FsError * MemFS :=
  match entries f !! p with
  | Some _ => (Some EEXIST, f)
  | None =>
      if hasDir (path.Dir p) f
      then (None, mkMemFS (<[p := mkEntry KDir [] (now f)]> (entries f)) (now f))
      else (Some ENOENT, f)
  end.

Definition memWriteFile (p : string) (d : bytes) (mode : Z) (f : MemFS)
  : option FsError * MemFS :=
  if hasDir p f then (Some EISDIR, f)
  else if hasDir (path.Dir p) f
  then (None, mkMemFS (<[p := mkEntry KFile d (now f)]> (entries f)) (now f))
  else (Some ENOENT, f).

Definition memChtimes (p : string) (a m : Time) (f : MemFS)
  : option FsError * MemFS :=
  match entries f !! p with
  | None => (Some ENOENT, f)
  | Some e =>
      (None, mkMemFS (<[p := mkEntry (kind e) (content e) m]> (entries f))
                     (now f))
  end.

#[export] Instance MemFS_LocalFS : LocalFS MemFS :=
  mkLocalFS MemFS memAbs memStat memStat memReadDirNames memReadFile
            memMkdir memWriteFile memChtimes.

(** A small remote tree and a small local tree. *)
Definition b (s : string) : bytes := String.list_byte_of_string s.

Definition zkSample : MemZk :=
  mkMemZk (list_to_map
             [("/", mkZNode [] 0 0);
              ("/cfg", mkZNode [] 0 1000);
              ("/cfg/app", mkZNode [] 0 2000);
              ("/cfg/app/db.conf", mkZNode (b "host=db") 3 1500);
              ("/cfg/motd", mkZNode (b "hello") 0 4000)])
          5000.

Definition fsSample : MemFS :=
  mkMemFS (list_to_map
             [("/", mkEntry KDir [] (mkTime 0 0));
              ("/srv", mkEntry KDir [] (mkTime 1 0));
              ("/srv/app", mkEntry KDir [] (mkTime 1 0));
              ("/srv/app/db.conf", mkEntry KFile (b "host=local") (mkTime 1 0));
              ("/srv/motd", mkEntry KFile (b "hi") (mkTime 9 500));
              ("/srv/dev", mkEntry KOther [] (mkTime 1 0))])
          (mkTime 100 0).
(** A local tree with a regular file where the remote sample has a node
    with a child. *)
Definition fsConflict : MemFS :=
  mkMemFS (list_to_map
             [("/", mkEntry KDir [] (mkTime 0 0));
              ("/data", mkEntry KDir [] (mkTime 1 0));
              ("/data/app", mkEntry KFile (b "not a directory") (mkTime 2 0))])
          (mkTime 100 0).

(** ** Notions used in the statements *)

(** Two runs that differ in the stream of their output lines only. *)
Definition sameUpToStream {W F A}
    (old new : Outcome A * World W F * list Event) : Prop :=
  outcome old = outcome new
  /\ final old = final new
  /\ trace old = map toStdout (trace new).

(** The event [e] settles the node [q] for the deleter: a delete is issued
    for [q], or [q] is found absent when its children are asked for. *)
Definition settled (q : string) (e : Event) : Prop :=
  (exists v r, e = EvDelete q v r) \/ e = EvChildren q (Err ErrNoNode).

(** Children before parents: every delete of a node [q] in the trace comes
    after the listing of [q] whose version it carries, and between that
    listing and the delete every listed child has been settled. *)
Definition childrenFirst (t : list Event) : Prop :=
  forall pre q v r post,
    t = pre ++ EvDelete q v r :: post ->
    exists pre1 cs st mid,
      pre = pre1 ++ EvChildren q (Ok (cs, st)) :: mid
      /\ v = Version st
      /\ forall c, In c cs -> exists e, In e mid /\ settled (path.Join q c) e.

(** A computation that leaves the local file system as it found it and
    issues no call that writes to it. *)
Definition readsOnly {W F A} (m : M W F A) : Prop :=
  forall w : World W F,
    fs (final (m w)) = fs w
    /\ Forall (fun e => isLocalWrite e = false) (trace (m w)).

(** The reference service behind an access list: listing or fetching a
    node on the list is refused. *)
Record GuardedZk := mkGuarded { store : MemZk; refused : list string }.

Definition isRefused (p : string) (g : GuardedZk) : bool :=
  existsb (String.eqb p) (refused g).

Definition guard {A} (p : string) (f : MemZk -> result ZkError A * MemZk)
    (g : GuardedZk) : result ZkError A * GuardedZk :=
  if isRefused p g then (Err ErrNoAuth, g)
  else let (a, m) := f (store g) in (a, mkGuarded m (refused g)).

Definition through {A} (f : MemZk -> A * MemZk) (g : GuardedZk)
  : A * GuardedZk :=
  let (a, m) := f (store g) in (a, mkGuarded m (refused g)).

#[export] Instance GuardedZk_Conn : Conn GuardedZk :=
  mkConn GuardedZk
    (fun p => guard p (memChildren p))
    (fun p => guard p (memGet p))
    (fun p => through (memExists p))
    (fun p d => through (memCreate p d))
    (fun p d v => through (memSet p d v))
    (fun p v => through (memDelete p v)).

(** ** Notions used for the whole runs *)

(** A property of traces that the empty trace has and that concatenation
    keeps: what holds of every piece of a run holds of the run. *)
Record Compositional (P : list Event -> Prop) : Prop := mkCompositional
  { comp_nil : P [];
    comp_app : forall t1 t2, P t1 -> P t2 -> P (t1 ++ t2) }.

(** The events that each operation may produce. *)
Definition isDeleterEvent (e : Event) : bool :=
  match e with
  | EvChildren _ _ | EvDelete _ _ _ | EvPrint _ _ => true
  | _ => false
  end.

Definition isEnsureEvent (e : Event) : bool :=
  match e with
  | EvCreate _ [] _ | EvPrint _ _ => true
  | _ => false
  end.

Definition isUploaderEvent (e : Event) : bool :=
  match e with
  | EvCreate _ _ _ | EvExists _ _ | EvSet _ _ _ _
  | EvAbs _ _ | EvLstat _ _ | EvReadDirNames _ _ | EvReadFile _ _
  | EvPrint _ _ => true
  | _ => false
  end.

Definition isDownloaderEvent (e : Event) : bool :=
  match e with
  | EvGet _ _ | EvChildren _ _
  | EvStat _ _ | EvMkdir _ _ _ | EvWriteFile _ _ _ _ | EvChtimes _ _ _ _
  | EvPrint _ _ => true
  | _ => false
  end.

Definition isOldDownloaderEvent (e : Event) : bool :=
  match e with
  | EvGet _ _ | EvChildren _ _
  | EvMkdir _ _ _ | EvWriteFile _ _ _ _
  | EvPrint _ _ => true
  | _ => false
  end.

Definition isDeleteCall (e : Event) : bool :=
  match e with
  | EvDelete _ _ _ => true
  | _ => false
  end.

(** Every run of [m] has a trace with the property [P]. *)
Definition keeps {W F A} (P : list Event -> Prop) (m : M W F A) : Prop :=
  forall w : World W F, P (trace (m w)).

(** Every event of the trace passes the test [Q]. *)
Definition each (Q : Event -> bool) (t : list Event) : Prop :=
  Forall (fun e => Q e = true) t.

(** The nodes that the trace asks to create, with their payload. *)
Fixpoint createdNodes (t : list Event) : list (string * bytes) :=
  match t with
  | [] => []
  | EvCreate q d _ :: rest => (q, d) :: createdNodes rest
  | _ :: rest => createdNodes rest
  end.

(** A create that went through or met an existing node. *)
Definition createAccepted (e : Event) : bool :=
  match e with
  | EvCreate _ _ (Some err) => isErrNodeExists err
  | _ => true
  end.

(** The rooted paths of the first one, two, ... elements of [cs], the
    shortest first and [cs] itself last. *)
Definition ancestorsOf (cs : list string) : list string :=
  map (fun k => path.render (firstn k cs)) (seq 1 (length cs)).

Definition isSetCall (e : Event) : bool :=
  match e with
  | EvSet _ _ _ _ => true
  | _ => false
  end.

Definition isGetCall (e : Event) : bool :=
  match e with
  | EvGet _ _ => true
  | _ => false
  end.

(** Every [setNode] of the trace comes right after the read of a local
    file, a create of the mapped node with the content read that met an
    existing node, and an [exists] query on that node that reported no
    child; it carries the content read and the version of that query. *)
Definition setGuarded (serverPrefix absLocal : string) (t : list Event)
  : Prop :=
  forall pre q d v r post,
    t = pre ++ EvSet q d v r :: post ->
    exists pre1 l ex st,
      pre = pre1 ++ [EvReadFile l (Ok d);
                     EvCreate q d (Some ErrNodeExists);
                     EvExists q (Ok (ex, st))]
      /\ q = remotePathOf serverPrefix absLocal l
      /\ v = Version st
      /\ NumChildren st <= 0.

(** Every create of the trace has an empty payload, or comes right after
    the read of the local file mapped to its node and carries the content
    read. *)
Definition createFromFile (serverPrefix absLocal : string) (t : list Event)
  : Prop :=
  forall pre q d r post,
    t = pre ++ EvCreate q d r :: post ->
    d = []
    \/ exists pre1 l,
         pre = pre1 ++ [EvReadFile l (Ok d)]
         /\ q = remotePathOf serverPrefix absLocal l.

(** Every local write of a file carries the payload of the latest [Get],
    whose stat reported data; every [Mkdir] comes right after a [Get] whose
    stat reported no data. *)
Definition fetchedFirst (t : list Event) : Prop :=
  (forall pre l d m r post,
     t = pre ++ EvWriteFile l d m r :: post ->
     exists pre1 q st mid,
       pre = pre1 ++ EvGet q (Ok (d, st)) :: mid
       /\ DataLength st <> 0
       /\ each (fun e => negb (isGetCall e)) mid)
  /\ (forall pre l m r post,
        t = pre ++ EvMkdir l m r :: post ->
        exists pre1 q d st,
          pre = pre1 ++ [EvGet q (Ok (d, st))] /\ DataLength st = 0).

(** Every accepted write of a file is followed at once by a [Chtimes] of
    that file to a whole number of seconds, access and modification time
    alike. *)
Definition stamped (t : list Event) : Prop :=
  forall pre l d m post,
    t = pre ++ EvWriteFile l d m None :: post ->
    exists tm r post1,
      post = EvChtimes l tm tm r :: post1 /\ nsec tm = 0.

(** No [Lstat] and no directory listing of the walk failed. *)
Definition noWalkError (e : Event) : bool :=
  match e with
  | EvLstat _ (Err _) | EvReadDirNames _ (Err _) => false
  | _ => true
  end.

(** The two computations differ in the stream of their output lines only,
    on every run of the second one in which the walk met no error. *)
Definition agreeOnCleanWalks {W F A} (old new : M W F A) : Prop :=
  forall w : World W F,
    each noWalkError (trace (new w)) -> sameUpToStream (old w) (new w).

(** The names that a listing returns are proper names. *)
Definition listsValidNames (e : Event) : Prop :=
  match e with
  | EvChildren _ (Ok (cs, _)) => path.validNames cs
  | _ => True
  end.

(** The remote path and the local path that a call is about. *)
Definition remotePathIn (e : Event) : option string :=
  match e with
  | EvChildren q _ | EvGet q _ | EvExists q _
  | EvCreate q _ _ | EvSet q _ _ _ | EvDelete q _ _ => Some q
  | _ => None
  end.

Definition localPathIn (e : Event) : option string :=
  match e with
  | EvLstat l _ | EvStat l _ | EvReadDirNames l _ | EvReadFile l _
  | EvMkdir l _ _ | EvWriteFile l _ _ _ | EvChtimes l _ _ _ => Some l
  | _ => None
  end.

(** [q] is reached from [root] through proper names; when [root] is
    canonical, [q] then starts with [root]. *)
Definition under (root q : string) : Prop :=
  exists cs,
    path.validNames cs /\ q = descend root cs
    /\ (path.canonical root -> exists suffix, q = root +:+ suffix).

Definition staysUnder (remoteRoot localRoot : string) (e : Event) : Prop :=
  (forall q, remotePathIn e = Some q -> under remoteRoot q)
  /\ (forall l, localPathIn e = Some l -> under localRoot l).

(** The call is about the node [R] or the local path [L] itself. *)
Definition atHere (R L : string) (e : Event) : bool :=
  match remotePathIn e with
  | Some q => String.eqb q R
  | None => true
  end
  && match localPathIn e with
     | Some l => String.eqb l L
     | None => true
     end.

(** With proper names in every listing, every call stays under the two
    roots. *)
Definition confined (R L : string) (t : list Event) : Prop :=
  Forall listsValidNames t -> Forall (staysUnder R L) t.

(** ** Notions used for the deleter on the reference service *)

(** A namespace as the service keeps it: every key is a canonical path and
    the parent of every node is a node. *)
Definition wellFormed (m : MemZk) : Prop :=
  forall k, is_Some (nodes m !! k) ->
            path.canonical k /\ is_Some (nodes m !! path.Dir k).

(** [k] is the node [p] or lies below it. *)
Definition inSubtree (p k : string) : Prop :=
  exists cs, path.validNames cs /\ k = descend p cs.

(** The service did not refuse this call, if it is a delete. *)
Definition deleteAccepted (e : Event) : bool :=
  match e with
  | EvDelete _ _ (Some _) => false
  | _ => true
  end.

(** [k] is the rooted path of [ps] followed by more names. *)
Definition below (ps : list string) (k : string) : Prop :=
  exists ks, path.validNames ks /\ k = path.render (ps ++ ks).

(** The run [r] from the store [m] ended normally, every delete it issued
    was accepted, the nodes in [gone] are gone and all others are as they
    were. *)
Definition prunes {F : Type} (m : MemZk) (f : F) (gone : string -> Prop)
    (r : Outcome unit * World MemZk F * list Event) : Prop :=
  outcome r = Done tt
  /\ fs (final r) = f
  /\ clock (zk (final r)) = clock m
  /\ wellFormed (zk (final r))
  /\ (forall k, gone k -> nodes (zk (final r)) !! k = None)
  /\ (forall k, ~ gone k -> nodes (zk (final r)) !! k = nodes m !! k)
  /\ (forall k, nodes (zk (final r)) !! k = None
                \/ nodes (zk (final r)) !! k = nodes m !! k)
  /\ each deleteAccepted (trace r).

(** [k] is [p] or one of the nodes above it. *)
Definition onPathTo (p k : string) : Prop :=
  exists qs ks, path.validNames (qs ++ ks)
                /\ k = path.render qs /\ p = path.render (qs ++ ks).

(** * Properties *)

Example Clean_ex1 : path.Clean "/a/../b//c/./" = "/b/c". Proof. reflexivity. Qed.
Example Clean_ex2 : path.Clean "a/../../b" = "../b". Proof. reflexivity. Qed.
Example Clean_ex3 : path.Clean "/.." = "/". Proof. reflexivity. Qed.
Example Dir_ex1 : path.Dir "/discodev/app" = "/discodev". Proof. reflexivity. Qed.
Example Dir_ex2 : path.Dir "/discodev" = "/". Proof. reflexivity. Qed.
Example Dir_ex3 : path.Dir "discodev" = ".". Proof. reflexivity. Qed.
Example Dir_ex4 : path.Dir "." = ".". Proof. reflexivity. Qed.
Example Join_ex1 : path.Join "/discodev" "/etc/app.conf" = "/discodev/etc/app.conf".
Proof. reflexivity. Qed.
Example Join_ex2 : path.Join "/" "a" = "/a". Proof. reflexivity. Qed.
Example Split_ex1 : path.Split "/a/b" = ("/a/", "b"). Proof. reflexivity. Qed.

(** ** Facts about the [path] functions *)
Module PathFacts.
Import path.

Lemma append_cons (x : ascii) (a c : string) :
  String x a +:+ c = String x (a +:+ c).
Proof. reflexivity. Qed.

Lemma append_nil_l (a : string) : "" +:+ a = a.
Proof. reflexivity. Qed.

Lemma append_assoc (a c d : string) : (a +:+ c) +:+ d = a +:+ (c +:+ d).
Proof.
  induction a as [|x a IH]; [reflexivity|].
  rewrite !append_cons. now rewrite IH.
Qed.

Lemma append_nil_r (a : string) : a +:+ "" = a.
Proof.
  induction a as [|x a IH]; [reflexivity|].
  rewrite append_cons. now rewrite IH.
Qed.

Lemma length_append (a c : string) :
  String.length (a +:+ c) = (String.length a + String.length c)%nat.
Proof.
  induction a as [|x a IH]; [reflexivity|].
  rewrite append_cons. simpl. now rewrite IH.
Qed.

Lemma sliceFrom_append (a c : string) :
  sliceFrom (String.length a) (a +:+ c) = c.
Proof.
  induction a as [|x a IH]; [reflexivity|].
  rewrite append_cons. simpl. exact IH.
Qed.

Lemma segments_not_nil (s : string) : segments s <> [].
Proof.
  induction s as [|c r IH]; simpl; [discriminate|].
  destruct (Ascii.eqb c slash); [discriminate|].
  destruct (segments r); discriminate.
Qed.

Lemma segments_cons_slash (s : string) :
  segments (String slash s) = "" :: segments s.
Proof. reflexivity. Qed.

Lemma segments_append_slash (a b : string) :
  segments (a +:+ String slash b) = segments a ++ segments b.
Proof.
  induction a as [|c r IH]; [reflexivity|].
  rewrite append_cons. cbn [segments].
  destruct (Ascii.eqb c slash).
  - now rewrite IH.
  - rewrite IH. pose proof (segments_not_nil r) as Hr.
    destruct (segments r); [contradiction | reflexivity].
Qed.

Lemma segments_noSlash (s : string) : noSlash s -> segments s = [s].
Proof.
  unfold noSlash. induction s as [|c r IH]; simpl; [reflexivity|].
  destruct (Ascii.eqb c slash); simpl; [discriminate|].
  intros Hr. now rewrite IH.
Qed.

Lemma segments_all_noSlash (s : string) : Forall noSlash (segments s).
Proof.
  induction s as [|c r IH]; simpl.
  - repeat constructor.
  - destruct (Ascii.eqb c slash) eqn:E.
    + constructor; [reflexivity | exact IH].
    + destruct (segments r) as [|seg rest]; inversion IH; subst;
        constructor; auto; unfold noSlash in *; simpl; now rewrite E.
Qed.

Lemma validName_noSlash (c : string) : validName c = true -> noSlash c.
Proof.
  unfold validName, noSlash. intros Hv.
  repeat (apply andb_prop in Hv; destruct Hv as [Hv ?]).
  now apply negb_true_iff.
Qed.

Lemma validName_nonEmpty (c : string) : validName c = true -> nonEmpty c = true.
Proof.
  unfold validName, nonEmpty. intros Hv.
  repeat (apply andb_prop in Hv; destruct Hv as [Hv ?]). assumption.
Qed.

Lemma validName_step (r : bool) (st : list string) (c : string) :
  validName c = true -> step r st c = c :: st.
Proof.
  unfold validName, step. intros Hv.
  repeat (apply andb_prop in Hv; destruct Hv as [Hv ?]).
  repeat match goal with
         | H : negb _ = true |- _ => apply negb_true_iff in H; rewrite H
         end.
  reflexivity.
Qed.

Lemma plain_app (a c : list string) : plain a -> plain c -> plain (a ++ c).
Proof. apply Forall_app_2. Qed.

Lemma plain_valid (cs : list string) :
  Forall (fun c => validName c = true) cs -> plain cs.
Proof. intros Hv. eapply List.Forall_impl; [|exact Hv]. simpl. auto. Qed.

Lemma names_valid (cs : list string) :
  Forall (fun c => validName c = true) cs -> names cs = cs.
Proof.
  induction 1 as [|c cs Hc _ IH]; [reflexivity|].
  unfold names in *. simpl. rewrite (validName_nonEmpty c Hc). now rewrite IH.
Qed.

Lemma names_app (a c : list string) : names (a ++ c) = names a ++ names c.
Proof. unfold names. induction a; simpl; [reflexivity|]. destruct (nonEmpty _); simpl; now rewrite IHa. Qed.

Lemma fold_step_plain (r : bool) (segs st : list string) :
  plain segs -> fold_left (step r) segs st = rev (names segs) ++ st.
Proof.
  intros Hp. revert st.
  induction Hp as [|s segs Hs _ IH]; intros st; [reflexivity|].
  cbn [fold_left]. rewrite IH. destruct Hs as [-> | Hv].
  - reflexivity.
  - rewrite (validName_step _ _ _ Hv). unfold names. simpl.
    rewrite (validName_nonEmpty s Hv). simpl.
    now rewrite <- app_assoc.
Qed.

(** A rooted path whose pieces are plain is cleaned to its names. *)
Lemma Clean_plain (p : string) :
  isRooted p = true -> plain (segments p) -> Clean p = render (names (segments p)).
Proof.
  intros Hr Hp. destruct p as [|c p]; [discriminate|].
  unfold Clean. rewrite Hr, (fold_step_plain true _ [] Hp).
  now rewrite app_nil_r, rev_involutive.
Qed.

Lemma intercalate_cons (c : string) (cs : list string) :
  cs <> [] -> intercalate (c :: cs) = c +:+ String slash (intercalate cs).
Proof. destruct cs; [contradiction | reflexivity]. Qed.

Lemma intercalate_app (cs ds : list string) :
  cs <> [] -> ds <> [] ->
  intercalate (cs ++ ds) = intercalate cs +:+ String slash (intercalate ds).
Proof.
  intros Hc Hd. induction cs as [|c cs IH]; [contradiction|].
  destruct cs as [|c' cs].
  - simpl app. now rewrite intercalate_cons.
  - change ((c :: c' :: cs) ++ ds) with (c :: ((c' :: cs) ++ ds)).
    rewrite intercalate_cons by discriminate.
    rewrite IH by discriminate.
    rewrite (intercalate_cons c (c' :: cs)) by discriminate.
    rewrite append_assoc. reflexivity.
Qed.

Lemma segments_intercalate (cs : list string) :
  cs <> [] -> Forall noSlash cs -> segments (intercalate cs) = cs.
Proof.
  intros Hne Hall. induction Hall as [|c cs Hc Hall IH]; [contradiction|].
  destruct cs as [|c' cs].
  - simpl. now apply segments_noSlash.
  - rewrite intercalate_cons by discriminate.
    rewrite segments_append_slash, (segments_noSlash c Hc), IH by discriminate.
    reflexivity.
Qed.

Lemma validNames_noSlash (cs : list string) : validNames cs -> Forall noSlash cs.
Proof. intros Hv. eapply List.Forall_impl; [|exact Hv]. apply validName_noSlash. Qed.

(** The pieces of a rendered path. *)
Lemma segments_render (cs : list string) :
  validNames cs ->
  segments (render cs) = "" :: (match cs with [] => [""] | _ => cs end).
Proof.
  intros Hv. unfold render. rewrite segments_cons_slash. f_equal.
  destruct cs as [|c cs]; [reflexivity|].
  apply segments_intercalate; [discriminate | now apply validNames_noSlash].
Qed.

Lemma names_segments_render (cs : list string) :
  validNames cs -> names (segments (render cs)) = cs.
Proof.
  intros Hv. rewrite (segments_render cs Hv).
  destruct cs as [|c cs]; [reflexivity|].
  change (names ("" :: c :: cs)) with (names (c :: cs)).
  now apply names_valid.
Qed.

Lemma plain_segments_render (cs : list string) :
  validNames cs -> plain (segments (render cs)).
Proof.
  intros Hv. rewrite (segments_render cs Hv).
  constructor; [now left|].
  destruct cs; [repeat constructor; now left | now apply plain_valid].
Qed.

Lemma render_inj (cs ds : list string) :
  validNames cs -> validNames ds -> render cs = render ds -> cs = ds.
Proof.
  intros Hc Hd E. rewrite <- (names_segments_render cs Hc).
  rewrite <- (names_segments_render ds Hd). now rewrite E.
Qed.

Lemma Clean_render (cs : list string) : validNames cs -> Clean (render cs) = render cs.
Proof.
  intros Hv. rewrite Clean_plain; [|reflexivity|now apply plain_segments_render].
  now rewrite names_segments_render.
Qed.

Lemma canonical_render (cs : list string) : validNames cs -> canonical (render cs).
Proof. intros Hv. split; [reflexivity | now apply Clean_render]. Qed.

Lemma Clean_render_append (rs : list string) (x : string) :
  validNames rs -> plain (segments x) ->
  Clean (render rs +:+ String slash x) = render (rs ++ names (segments x)).
Proof.
  intros Hr Hx. rewrite Clean_plain.
  - rewrite segments_append_slash, names_app.
    now rewrite names_segments_render.
  - reflexivity.
  - rewrite segments_append_slash.
    apply plain_app; [now apply plain_segments_render | exact Hx].
Qed.

Lemma validName_String (c : string) :
  validName c = true -> exists x r, c = String x r.
Proof. destruct c as [|x r]; [discriminate | eauto]. Qed.

Lemma Join_render_name (rs : list string) (c : string) :
  validNames rs -> validName c = true ->
  Join (render rs) c = render (rs ++ [c]).
Proof.
  intros Hr Hc. destruct (validName_String c Hc) as (x & r & ->).
  unfold Join. change (render rs) with (String slash (intercalate rs)) at 1.
  cbv iota. fold (render rs). rewrite Clean_render_append; [|assumption|].
  - rewrite (segments_noSlash _ (validName_noSlash _ Hc)).
    now rewrite names_valid by (repeat constructor; assumption).
  - rewrite (segments_noSlash _ (validName_noSlash _ Hc)).
    constructor; [now right | constructor].
Qed.

Lemma validNames_app (cs ds : list string) :
  validNames cs -> validNames ds -> validNames (cs ++ ds).
Proof. apply Forall_app_2. Qed.

Lemma descend_render (rs cs : list string) :
  validNames rs -> validNames cs ->
  descend (render rs) cs = render (rs ++ cs).
Proof.
  intros Hr Hc. revert rs Hr.
  induction Hc as [|c cs Hc _ IH]; intros rs Hr.
  - now rewrite app_nil_r.
  - unfold descend in *. cbn [fold_left].
    rewrite Join_render_name by assumption.
    rewrite IH; [now rewrite <- app_assoc|].
    apply validNames_app; [assumption | now repeat constructor].
Qed.

Lemma Split_noSlash (c : string) : noSlash c -> Split c = ("", c).
Proof.
  unfold noSlash. induction c as [|x r IH]; [reflexivity|].
  cbn [hasSlash Split]. intros Hx. apply orb_false_iff in Hx as [Hx Hr].
  now rewrite (IH Hr), Hx.
Qed.

Lemma Split_append (x c : string) :
  noSlash c -> Split (x +:+ String slash c) = (x +:+ String slash "", c).
Proof.
  intros Hc. induction x as [|y x IH].
  - rewrite !append_nil_l. cbn [Split]. now rewrite (Split_noSlash c Hc).
  - rewrite !append_cons. cbn [Split]. rewrite IH.
    destruct x; reflexivity.
Qed.

Lemma render_snoc (cs : list string) (c : string) :
  render (cs ++ [c]) =
  (match cs with [] => "" | _ => render cs end) +:+ String slash c.
Proof.
  destruct cs as [|c0 cs]; [reflexivity|].
  unfold render. rewrite intercalate_app by discriminate.
  now rewrite append_cons.
Qed.

Lemma Dir_render_snoc (cs : list string) (c : string) :
  validNames cs -> validName c = true -> Dir (render (cs ++ [c])) = render cs.
Proof.
  intros Hcs Hc. unfold Dir. rewrite render_snoc.
  rewrite (Split_append _ c (validName_noSlash _ Hc)). cbn [fst].
  destruct cs as [|c0 cs]; [reflexivity|].
  rewrite Clean_render_append;
    [|assumption|constructor; [now left | constructor]].
  cbn. now rewrite app_nil_r.
Qed.

Lemma numComponents_render (cs : list string) :
  validNames cs -> numComponents (render cs) = length cs.
Proof.
  intros Hv. unfold numComponents. now rewrite names_segments_render.
Qed.

Lemma nonEmpty_false (s : string) : nonEmpty s = false -> s = "".
Proof.
  unfold nonEmpty. intros E. apply negb_false_iff in E.
  now apply String.eqb_eq.
Qed.

Lemma step_rooted_valid (st : list string) (seg : string) :
  validNames st -> noSlash seg -> validNames (step true st seg).
Proof.
  intros Hst Hseg. unfold step.
  destruct (String.eqb seg "") eqn:E1; [assumption|].
  destruct (String.eqb seg ".") eqn:E2; [assumption|].
  destruct (String.eqb seg "..") eqn:E3.
  - destruct st as [|top below]; [constructor|].
    inversion Hst as [|? ? Htop Hbelow]; subst.
    destruct (String.eqb top "..") eqn:E4; [|assumption].
    apply String.eqb_eq in E4. subst top. discriminate Htop.
  - constructor; [|assumption].
    unfold validName. rewrite E1, E2, E3. unfold noSlash in Hseg.
    now rewrite Hseg.
Qed.

Lemma fold_step_rooted_valid (segs st : list string) :
  Forall noSlash segs -> validNames st ->
  validNames (fold_left (step true) segs st).
Proof.
  intros Hs. revert st. induction Hs as [|s segs Hs _ IH]; intros st Hst.
  - exact Hst.
  - cbn [fold_left]. apply IH. now apply step_rooted_valid.
Qed.

(** What [Clean] returns for a rooted path is a rendered list of names. *)
Lemma Clean_rooted_render (p : string) :
  isRooted p = true -> exists cs, validNames cs /\ Clean p = render cs.
Proof.
  intros Hr. destruct p as [|c p]; [discriminate|].
  exists (rev (fold_left (step true) (segments (String c p)) [])). split.
  - apply List.Forall_rev, fold_step_rooted_valid;
      [apply segments_all_noSlash | constructor].
  - unfold Clean. now rewrite Hr.
Qed.

Lemma canonical_inv (p : string) :
  canonical p -> exists cs, validNames cs /\ p = render cs.
Proof.
  intros [Hr Hc]. destruct (Clean_rooted_render p Hr) as (cs & Hv & E).
  exists cs. split; [assumption | congruence].
Qed.

Lemma Join_render_String (rs : list string) (y : ascii) (t : string) :
  Join (render rs) (String y t) = Clean (render rs +:+ String slash (String y t)).
Proof. reflexivity. Qed.

Lemma Join_render_empty (rs : list string) :
  Join (render rs) "" = Clean (render rs).
Proof. reflexivity. Qed.

Lemma intercalate_String (c : string) (cs : list string) :
  validName c = true -> exists y t, intercalate (c :: cs) = String y t.
Proof.
  intros Hc. destruct (validName_String c Hc) as (x & r & ->).
  destruct cs; cbn [intercalate]; [eauto|]. rewrite append_cons. eauto.
Qed.

(** Line 73 on a path that [Walk] visits. *)
Lemma remotePathOf_render (rs ls cs : list string) :
  validNames rs -> validNames ls -> validNames cs ->
  remotePathOf (render rs) (render ls) (render (ls ++ cs)) = render (rs ++ cs).
Proof.
  intros Hr Hl Hc. unfold remotePathOf.
  destruct cs as [|c cs].
  - rewrite !app_nil_r.
    rewrite <- (append_nil_r (render ls)) at 2.
    rewrite sliceFrom_append, Join_render_empty. now apply Clean_render.
  - assert (Hcs : plain (segments (intercalate (c :: cs)))).
    { rewrite segments_intercalate;
        [now apply plain_valid | discriminate | now apply validNames_noSlash]. }
    assert (Hn : names (segments (intercalate (c :: cs))) = c :: cs).
    { rewrite segments_intercalate;
        [now apply names_valid | discriminate | now apply validNames_noSlash]. }
    inversion Hc as [|? ? Hc1 _]; subst.
    destruct ls as [|l ls].
    + replace (sliceFrom (String.length (render [])) (render ([] ++ c :: cs)))
        with (intercalate (c :: cs)) by reflexivity.
      destruct (intercalate_String c cs Hc1) as (y & t & Hi).
      rewrite Hi, Join_render_String, <- Hi.
      rewrite Clean_render_append by assumption. now rewrite Hn.
    + replace (render ((l :: ls) ++ c :: cs))
        with (render (l :: ls) +:+ String slash (intercalate (c :: cs))).
      2:{ unfold render. rewrite intercalate_app by discriminate.
          now rewrite append_cons. }
      rewrite sliceFrom_append, Join_render_String.
      rewrite Clean_render_append; [|assumption|].
      * rewrite segments_cons_slash.
        change (names ("" :: segments (intercalate (c :: cs))))
          with (names (segments (intercalate (c :: cs)))).
        now rewrite Hn.
      * rewrite segments_cons_slash. constructor; [now left | assumption].
Qed.

Lemma isPrefix_render (ls cs : list string) :
  exists suffix, render (ls ++ cs) = render ls +:+ suffix.
Proof.
  destruct cs as [|c cs].
  - exists "". now rewrite app_nil_r, append_nil_r.
  - destruct ls as [|l ls].
    + exists (intercalate (c :: cs)). reflexivity.
    + exists (String slash (intercalate (c :: cs))).
      unfold render. rewrite intercalate_app by discriminate.
      now rewrite append_cons.
Qed.

End PathFacts.

(** ** Path mapping *)

Section PathMapping.
Import path PathFacts.

Lemma descend_canonical (root : string) (cs : list string) :
  canonical root -> validNames cs ->
  exists rs, validNames rs /\ root = render rs
             /\ descend root cs = render (rs ++ cs).
Proof.
  intros Hroot Hcs. destruct (canonical_inv root Hroot) as (rs & Hrs & ->).
  exists rs. repeat split; try assumption. now apply descend_render.
Qed.

Lemma descend_inj (root : string) (cs ds : list string) :
  canonical root -> validNames cs -> validNames ds ->
  descend root cs = descend root ds -> cs = ds.
Proof.
  intros Hroot Hcs Hds E.
  destruct (canonical_inv root Hroot) as (rs & Hrs & ->).
  rewrite !descend_render in E by assumption.
  apply render_inj in E; try (apply validNames_app; assumption).
  now apply app_inv_head in E.
Qed.

End PathMapping.

(** C7.  Path mapping is a bijection between the two roots.  For canonical
    absolute roots and any list [cs] of names, the local path below
    [absLocal] with relative suffix [cs] (as [filepath.Walk] visits it) is
    sent by line 73 of [doUpload] to the remote path below [serverPrefix]
    with the same suffix, which is the remote path that [doDownload] pairs
    with that very local path (lines 149-150).  Both paths extend their
    root, and distinct suffixes give distinct local and distinct remote
    paths, so going to the remote side and back returns the path one
    started from, in both directions. *)
Theorem path_mapping_bijection (serverPrefix absLocal : string)
    (cs ds : list string) :
  path.canonical serverPrefix -> path.canonical absLocal ->
  path.validNames cs -> path.validNames ds ->
  remotePathOf serverPrefix absLocal (descend absLocal cs)
    = descend serverPrefix cs
  /\ (exists suffix, descend absLocal cs = absLocal +:+ suffix)
  /\ (exists suffix, descend serverPrefix cs = serverPrefix +:+ suffix)
  /\ (descend serverPrefix cs = descend serverPrefix ds ->
      descend absLocal cs = descend absLocal ds)
  /\ (descend absLocal cs = descend absLocal ds ->
      descend serverPrefix cs = descend serverPrefix ds)
  /\ (descend absLocal cs = descend absLocal ds -> cs = ds).
Proof.
  intros HR HL Hcs Hds.
  destruct (PathFacts.canonical_inv _ HR) as (rs & Hrs & ER).
  destruct (PathFacts.canonical_inv _ HL) as (ls & Hls & EL).
  pose proof (descend_inj _ cs ds HR Hcs Hds) as InjR.
  pose proof (descend_inj _ cs ds HL Hcs Hds) as InjL.
  subst serverPrefix absLocal.
  rewrite !PathFacts.descend_render by assumption.
  repeat split.
  - now apply PathFacts.remotePathOf_render.
  - apply PathFacts.isPrefix_render.
  - apply PathFacts.isPrefix_render.
  - rewrite !PathFacts.descend_render in InjR by assumption.
    intros E. now rewrite (InjR E).
  - rewrite !PathFacts.descend_render in InjL by assumption.
    intros E. now rewrite (InjL E).
  - rewrite !PathFacts.descend_render in InjL by assumption. exact InjL.
Qed.

Lemma path_mapping_bijection_witness :
  remotePathOf "/discodev" "/srv" (descend "/srv" ["app"; "db.conf"])
    = descend "/discodev" ["app"; "db.conf"]
  /\ descend "/discodev" ["app"; "db.conf"] = "/discodev/app/db.conf"
  /\ descend "/srv" ["app"; "db.conf"] = "/srv/app/db.conf".
Proof.
  split; [|split; reflexivity].
  refine (proj1 (path_mapping_bijection "/discodev" "/srv"
                   ["app"; "db.conf"] ["motd"] _ _ _ _)).
  - split; reflexivity.
  - split; reflexivity.
  - repeat constructor.
  - repeat constructor.
Defined.

(** ** Running the monad *)

Section Runs.
Context {W F : Type}.

Lemma outcome_bind {A B} (m : M W F A) (k : A -> M W F B) (w : World W F) :
  outcome (bind m k w) =
  match outcome (m w) with
  | Done a => outcome (k a (final (m w)))
  | Aborted a => Aborted a
  end.
Proof.
  unfold bind, outcome, final. destruct (m w) as [[[a|a] w1] t1]; simpl;
    [destruct (k a w1) as [[o w2] t2]|]; reflexivity.
Qed.

Lemma final_bind {A B} (m : M W F A) (k : A -> M W F B) (w : World W F) :
  final (bind m k w) =
  match outcome (m w) with
  | Done a => final (k a (final (m w)))
  | Aborted _ => final (m w)
  end.
Proof.
  unfold bind, outcome, final. destruct (m w) as [[[a|a] w1] t1]; simpl;
    [destruct (k a w1) as [[o w2] t2]|]; reflexivity.
Qed.

Lemma trace_bind {A B} (m : M W F A) (k : A -> M W F B) (w : World W F) :
  trace (bind m k w) =
  trace (m w) ++
  match outcome (m w) with
  | Done a => trace (k a (final (m w)))
  | Aborted _ => []
  end.
Proof.
  unfold bind, outcome, final, trace. destruct (m w) as [[[a|a] w1] t1]; simpl;
    [destruct (k a w1) as [[o w2] t2]; reflexivity | now rewrite app_nil_r].
Qed.

Lemma run_eta {A} (r : Outcome A * World W F * list Event) :
  r = (outcome r, final r, trace r).
Proof. now destruct r as [[o w] t]. Qed.

End Runs.

(** ** Termination of [ensureRemotePath] *)

Section EnsureRemotePath.
Context {W F : Type} `{Conn W} `{LocalFS F}.
Import path PathFacts.

Lemma outcome_remote {A} (call : W -> A * W) (ev : A -> Event) (w : World W F) :
  outcome (remote call ev w) = Done (fst (call (zk w))).
Proof. unfold remote, outcome. now destruct (call (zk w)). Qed.

Lemma ensureRemotePath_step_outcome (n : nat) (p : string) (w : World W F) :
  String.eqb p "/" = false ->
  outcome (ensureRemotePath n (Dir p) w) <> Aborted OutOfFuel ->
  outcome (ensureRemotePath (S n) p w) <> Aborted OutOfFuel.
Proof.
  intros Hp Hrec. cbn [ensureRemotePath]. rewrite Hp, outcome_bind.
  destruct (outcome (ensureRemotePath n (Dir p) w)) as [[]|a]; [|exact Hrec].
  rewrite outcome_bind. unfold cCreate. rewrite outcome_remote.
  destruct (fst _) as [err|]; [|discriminate].
  destruct (isErrNodeExists err); discriminate.
Qed.

Lemma render_snoc_not_root (cs : list string) (c : string) :
  validNames cs -> validName c = true ->
  String.eqb (render (cs ++ [c])) "/" = false.
Proof.
  intros Hcs Hc. apply String.eqb_neq. intros E.
  change "/" with (render []) in E.
  apply render_inj in E.
  - destruct cs; discriminate E.
  - apply validNames_app; [assumption | now repeat constructor].
  - constructor.
Qed.

Lemma ensureRemotePath_render (cs : list string) :
  validNames cs ->
  forall (n : nat) (w : World W F),
    (length cs < n)%nat ->
    outcome (ensureRemotePath n (render cs) w) <> Aborted OutOfFuel.
Proof.
  induction cs as [|c cs IH] using rev_ind; intros Hv n w Hn.
  - destruct n as [|n]; [lia|]. discriminate.
  - apply Forall_app in Hv as [Hcs Hc]. inversion Hc as [|? ? Hc1 _]; subst.
    rewrite length_app in Hn. cbn [length] in Hn.
    destruct n as [|n]; [lia|].
    apply ensureRemotePath_step_outcome.
    + now apply render_snoc_not_root.
    + rewrite Dir_render_snoc by assumption. apply IH; [assumption | lia].
Qed.

Lemma step_piece (st : list string) (seg : string) :
  Forall piece st -> noSlash seg -> Forall piece (step false st seg).
Proof.
  intros Hst Hseg. unfold step.
  destruct (String.eqb seg "") eqn:E1; [assumption|].
  destruct (String.eqb seg ".") eqn:E2; [assumption|].
  assert (Hp : piece seg) by (split; [unfold nonEmpty; now rewrite E1 | assumption]).
  destruct (String.eqb seg "..") eqn:E3; [|now constructor].
  destruct st as [|top below]; [constructor; [assumption | constructor]|].
  destruct (String.eqb top ".."); [now constructor|].
  now inversion Hst.
Qed.

Lemma fold_step_piece (segs st : list string) :
  Forall noSlash segs -> Forall piece st ->
  Forall piece (fold_left (step false) segs st).
Proof.
  intros Hs. revert st. induction Hs as [|s segs Hs _ IH]; intros st Hst.
  - exact Hst.
  - cbn [fold_left]. apply IH. now apply step_piece.
Qed.

Lemma piece_not_rooted (c : string) (cs : list string) :
  piece c -> isRooted (intercalate (c :: cs)) = false.
Proof.
  intros [Hne Hns]. destruct c as [|x r]; [discriminate|].
  unfold noSlash in Hns. cbn [hasSlash] in Hns.
  apply orb_false_iff in Hns as [Hx _].
  destruct cs; cbn [intercalate]; [exact Hx|].
  rewrite append_cons. exact Hx.
Qed.

Lemma Clean_not_rooted (d : string) :
  isRooted d = false -> isRooted (Clean d) = false.
Proof.
  intros Hd. destruct d as [|x r]; [reflexivity|].
  unfold Clean. rewrite Hd.
  pose proof (fold_step_piece (segments (String x r)) []
                (segments_all_noSlash _) (List.Forall_nil _)) as Hp.
  apply List.Forall_rev in Hp.
  destruct (rev _) as [|c cs]; [reflexivity|].
  inversion Hp; subst. now apply piece_not_rooted.
Qed.

Lemma Split_not_rooted (p : string) :
  isRooted p = false -> isRooted (fst (Split p)) = false.
Proof.
  destruct p as [|x r]; [reflexivity|]. cbn [isRooted Split]. intros Hx.
  destruct (Split r) as [d f]. destruct d; [|exact Hx].
  now rewrite Hx.
Qed.

Lemma Dir_not_rooted (p : string) :
  isRooted p = false -> isRooted (Dir p) = false.
Proof. intros Hp. now apply Clean_not_rooted, Split_not_rooted. Qed.

Lemma ensureRemotePath_not_rooted (n : nat) :
  forall (p : string) (w : World W F),
    isRooted p = false ->
    outcome (ensureRemotePath n p w) = Aborted OutOfFuel.
Proof.
  induction n as [|n IH]; intros p w Hp; [reflexivity|].
  cbn [ensureRemotePath].
  assert (String.eqb p "/" = false) as ->.
  { apply String.eqb_neq. intros ->. discriminate Hp. }
  rewrite outcome_bind, IH; [reflexivity | now apply Dir_not_rooted].
Qed.

End EnsureRemotePath.

(** C8.  For a canonical absolute path the recursion of [ensureRemotePath]
    ends: away from ["/"], the parent directory is again canonical and has
    strictly fewer elements, so with a recursion bound above the number of
    elements the run never stops for lack of fuel.  A path that is not
    rooted never reaches ["/"]: for it, every bound is exhausted. *)
Theorem ensureRemotePath_terminates {W F : Type} `{Conn W} `{LocalFS F}
    (p : string) :
  path.canonical p ->
  (p <> "/" ->
   path.canonical (path.Dir p)
   /\ (path.numComponents (path.Dir p) < path.numComponents p)%nat)
  /\ (path.numComponents p = 0%nat -> p = "/")
  /\ (forall (fuel : nat) (w : World W F),
        (path.numComponents p < fuel)%nat ->
        outcome (ensureRemotePath fuel p w) <> Aborted OutOfFuel)
  /\ (forall (q : string) (fuel : nat) (w : World W F),
        path.isRooted q = false ->
        outcome (ensureRemotePath fuel q w) = Aborted OutOfFuel).
Proof.
  intros Hp. destruct (PathFacts.canonical_inv p Hp) as (cs & Hcs & ->).
  rewrite PathFacts.numComponents_render by assumption.
  split; [|split; [|split]].
  - intros Hne. destruct cs as [|c cs _] using rev_ind; [now elim Hne|].
    apply Forall_app in Hcs as [Hcs Hc]. inversion Hc; subst.
    rewrite PathFacts.Dir_render_snoc by assumption.
    split; [now apply PathFacts.canonical_render|].
    rewrite PathFacts.numComponents_render by assumption.
    rewrite length_app. simpl. lia.
  - destruct cs; [reflexivity | discriminate].
  - intros fuel w. now apply ensureRemotePath_render.
  - intros q fuel w. apply ensureRemotePath_not_rooted.
Qed.

Lemma ensureRemotePath_terminates_witness :
  outcome (ensureRemotePath 3 "/cfg/app" (mkWorld zkSample fsSample))
    <> Aborted OutOfFuel
  /\ path.Dir "/cfg/app" = "/cfg"
  /\ outcome (ensureRemotePath 50 "cfg/app" (mkWorld zkSample fsSample))
     = Aborted OutOfFuel.
Proof.
  assert (Hc : path.canonical "/cfg/app") by (split; reflexivity).
  destruct (ensureRemotePath_terminates (W:=MemZk) (F:=MemFS) "/cfg/app" Hc)
    as (_ & _ & Hfuel & Hrel).
  split; [|split].
  - apply Hfuel. vm_compute. lia.
  - reflexivity.
  - apply Hrel. reflexivity.
Defined.

(** ** The two revisions of [doDelete] *)

Section Primitives.
Context {W F : Type} `{Conn W} `{LocalFS F}.

Lemma final_remote {A} (call : W -> A * W) (ev : A -> Event) (w : World W F) :
  final (remote call ev w) = mkWorld (snd (call (zk w))) (fs w).
Proof. unfold remote, final. now destruct (call (zk w)). Qed.

Lemma trace_remote {A} (call : W -> A * W) (ev : A -> Event) (w : World W F) :
  trace (remote call ev w) = [ev (fst (call (zk w)))].
Proof. unfold remote, trace. now destruct (call (zk w)). Qed.

Lemma remote_eq {A} (call : W -> A * W) (ev : A -> Event) (w : World W F)
    (a : A) (z : W) :
  call (zk w) = (a, z) -> remote call ev w = (Done a, mkWorld z (fs w), [ev a]).
Proof. unfold remote. now intros ->. Qed.

Lemma localWrite_eq {A} (call : F -> A * F) (ev : A -> Event) (w : World W F)
    (a : A) (f : F) :
  call (fs w) = (a, f) ->
  localWrite (W:=W) call ev w = (Done a, mkWorld (zk w) f, [ev a]).
Proof. unfold localWrite. now intros ->. Qed.

Lemma bind_eq_Done {A B} (m : M W F A) (k : A -> M W F B) (w w1 : World W F)
    (a : A) (t1 : list Event) :
  m w = (Done a, w1, t1) ->
  bind m k w = (outcome (k a w1), final (k a w1), t1 ++ trace (k a w1)).
Proof. unfold bind. intros ->. now destruct (k a w1) as [[o w2] t2]. Qed.

Lemma bind_eq_Aborted {A B} (m : M W F A) (k : A -> M W F B)
    (w w1 : World W F) (a : Abort) (t1 : list Event) :
  m w = (Aborted a, w1, t1) -> bind m k w = (Aborted a, w1, t1).
Proof. unfold bind. now intros ->. Qed.

End Primitives.

Section Equivalence.
Context {W F : Type} `{Conn W} `{LocalFS F}.

Lemma same_refl_quiet {A} (r : Outcome A * World W F * list Event) :
  Forall (fun e => toStdout e = e) (trace r) -> sameUpToStream r r.
Proof.
  intros Hq. repeat split. induction Hq as [|e t He _ IH]; [reflexivity|].
  cbn [map]. now rewrite He, <- IH.
Qed.

Lemma same_bind {A B} (m1 m2 : M W F A) (k1 k2 : A -> M W F B) (w : World W F) :
  sameUpToStream (m1 w) (m2 w) ->
  (forall a w1, sameUpToStream (k1 a w1) (k2 a w1)) ->
  sameUpToStream (bind m1 k1 w) (bind m2 k2 w).
Proof.
  intros (Ho & Hf & Ht) Hk. unfold sameUpToStream.
  rewrite !outcome_bind, !final_bind, !trace_bind, Ho, Hf, Ht, map_app.
  destruct (outcome (m2 w)) as [a|a].
  - destruct (Hk a (final (m2 w))) as (Ho' & Hf' & Ht').
    now rewrite Ho', Hf', Ht'.
  - repeat split.
Qed.

Lemma same_forEach {A} (f g : A -> M W F unit) (l : list A) :
  (forall x w, sameUpToStream (f x w) (g x w)) ->
  forall w, sameUpToStream (forEach l f w) (forEach l g w).
Proof.
  intros Hfg. induction l as [|x l IH]; intros w.
  - repeat split.
  - cbn [forEach]. apply same_bind; [apply Hfg | intros _ w1; apply IH].
Qed.

Lemma same_remote {A} (call : W -> A * W) (ev : A -> Event) (w : World W F) :
  (forall a, toStdout (ev a) = ev a) ->
  sameUpToStream (remote call ev w) (remote call ev w).
Proof.
  intros Hev. apply same_refl_quiet. rewrite trace_remote.
  constructor; [apply Hev | constructor].
Qed.

Lemma same_print (m : Msg) (w : World W F) :
  sameUpToStream (fmtPrintf m w) (logPrintf m w).
Proof. repeat split. Qed.

Lemma doDelete_same (fuel : nat) :
  forall (p : string) (w : World W F),
    sameUpToStream (Old.doDelete fuel p w) (doDelete fuel p w).
Proof.
  induction fuel as [|n IH]; intros p w; [repeat split|].
  cbn [Old.doDelete doDelete].
  apply same_bind; [now apply same_remote|].
  intros [[children stat]|err] w1.
  - apply same_bind; [apply same_forEach; intros; apply IH|].
    intros _ w2. apply same_bind; [apply same_print|].
    intros _ w3. apply same_bind; [now apply same_remote|].
    intros _ w4. repeat split.
  - destruct (isErrNoNode err); [apply same_print | repeat split].
Qed.

Lemma filter_remote_toStdout (t : list Event) :
  List.filter isRemoteCall (map toStdout t) = List.filter isRemoteCall t.
Proof.
  induction t as [|e t IH]; [reflexivity|].
  cbn [map List.filter]. rewrite IH. now destruct e.
Qed.

End Equivalence.

(** C10.  The recursive deleter of [src/unnamed/part_000] and the one of
    [src/configurator.go] are equivalent on the remote namespace: for every
    remote service, state, path and recursion bound, both end the same way
    in the same state, they issue the same remote calls with the same
    arguments and answers in the same order, and their traces differ only in
    the stream that the output lines go to. *)
Theorem doDelete_revisions_equivalent {W F : Type} `{Conn W} `{LocalFS F}
    (fuel : nat) (serverPrefix : string) (w : World W F) :
  outcome (Old.doDelete fuel serverPrefix w) = outcome (doDelete fuel serverPrefix w)
  /\ final (Old.doDelete fuel serverPrefix w) = final (doDelete fuel serverPrefix w)
  /\ List.filter isRemoteCall (trace (Old.doDelete fuel serverPrefix w))
     = List.filter isRemoteCall (trace (doDelete fuel serverPrefix w))
  /\ trace (Old.doDelete fuel serverPrefix w)
     = map toStdout (trace (doDelete fuel serverPrefix w)).
Proof.
  destruct (doDelete_same fuel serverPrefix w) as (Ho & Hf & Ht).
  repeat split; try assumption.
  rewrite Ht. apply filter_remote_toStdout.
Qed.

(** ** Order of the deletes *)

Section DeleteOrder.
Context {W F : Type} `{Conn W} `{LocalFS F}.

(** Where an element of [t1 ++ t2] sits. *)
Lemma app_eq_middle {A} (t1 t2 pre post : list A) (x : A) :
  t1 ++ t2 = pre ++ x :: post ->
  (exists post1, t1 = pre ++ x :: post1 /\ post = post1 ++ t2)
  \/ (exists pre2, pre = t1 ++ pre2 /\ t2 = pre2 ++ x :: post).
Proof.
  revert pre. induction t1 as [|y t1 IH]; intros pre E.
  - right. exists pre. now split.
  - destruct pre as [|z pre]; cbn [app] in E.
    + injection E as -> E. left. exists t1. now split.
    + injection E as -> E. destruct (IH pre E) as [(post1 & -> & ->)|(pre2 & -> & ->)].
      * left. now exists post1.
      * right. now exists pre2.
Qed.

Lemma childrenFirst_nil : childrenFirst [].
Proof. intros [|? ?] q v r post E; discriminate E. Qed.

Lemma childrenFirst_single (e : Event) :
  (forall q v r, e <> EvDelete q v r) -> childrenFirst [e].
Proof.
  intros He [|x [|? ?]] q v r post E; try discriminate E.
  injection E as -> _. now elim (He q v r).
Qed.

Lemma childrenFirst_app (t1 t2 : list Event) :
  childrenFirst t1 -> childrenFirst t2 -> childrenFirst (t1 ++ t2).
Proof.
  intros H1 H2 pre q v r post E.
  destruct (app_eq_middle _ _ _ _ _ E) as [(post1 & E1 & _)|(pre2 & -> & E2)].
  - exact (H1 _ _ _ _ _ E1).
  - destruct (H2 _ _ _ _ _ E2) as (pre1 & cs & st & mid & -> & Hv & Hc).
    exists (t1 ++ pre1), cs, st, mid. now rewrite <- app_assoc.
Qed.

(** The trace of one invocation on an existing node. *)
Lemma childrenFirst_node (p : string) (cs : list string) (st : Stat)
    (tmid : list Event) (s : Stream) (m : Msg) (r : option ZkError) :
  childrenFirst tmid ->
  (forall c, In c cs -> exists e, In e tmid /\ settled (path.Join p c) e) ->
  childrenFirst
    (EvChildren p (Ok (cs, st)) :: tmid ++ [EvPrint s m; EvDelete p (Version st) r]).
Proof.
  intros Hmid Hset pre q v r' post E.
  destruct pre as [|x pre]; [discriminate E|].
  cbn [app] in E. injection E as Ex E. subst x.
  destruct (app_eq_middle _ _ _ _ _ E) as [(post1 & E1 & _)|(pre2 & -> & E2)].
  - destruct (Hmid _ _ _ _ _ E1) as (pre1 & cs' & st' & mid & -> & Hv & Hc).
    now exists (EvChildren p (Ok (cs, st)) :: pre1), cs', st', mid.
  - destruct pre2 as [|y [|y' l]]; try discriminate E2.
    + injection E2 as Ey Eq Ev Er _. subst y q v r'.
      exists [], cs, st, (tmid ++ [EvPrint s m]). repeat split.
      intros c Hc. destruct (Hset c Hc) as (e & He & Hs).
      exists e. split; [apply in_or_app; now left | exact Hs].
    + injection E2 as _ _ E2. destruct l; discriminate E2.
Qed.

Lemma forEach_childrenFirst {A} (body : A -> M W F unit) (l : list A) :
  (forall x w, childrenFirst (trace (body x w))) ->
  forall w, childrenFirst (trace (forEach l body w)).
Proof.
  intros Hb. induction l as [|x l IH]; intros w.
  - apply childrenFirst_nil.
  - cbn [forEach]. rewrite trace_bind. apply childrenFirst_app; [apply Hb|].
    destruct (outcome (body x w)); [apply IH | apply childrenFirst_nil].
Qed.

Lemma forEach_Done_each {A} (body : A -> M W F unit) (Q : A -> Event -> Prop)
    (l : list A) :
  (forall x w, outcome (body x w) = Done tt ->
               exists e, In e (trace (body x w)) /\ Q x e) ->
  forall w, outcome (forEach l body w) = Done tt ->
            forall x, In x l ->
                      exists e, In e (trace (forEach l body w)) /\ Q x e.
Proof.
  intros Hb. induction l as [|y l IH]; intros w Hd x Hx; [destruct Hx|].
  cbn [forEach] in *. rewrite outcome_bind in Hd. rewrite trace_bind.
  destruct (outcome (body y w)) as [[]|a] eqn:Ey; [|discriminate Hd].
  destruct Hx as [->|Hx].
  - destruct (Hb x w Ey) as (e & He & HQ). exists e.
    split; [apply in_or_app; now left | exact HQ].
  - destruct (IH _ Hd x Hx) as (e & He & HQ). exists e.
    split; [apply in_or_app; now right | exact HQ].
Qed.

(** One invocation of [doDelete], unfolded. *)
Lemma doDelete_S (n : nat) (p : string) (w : World W F) :
  doDelete (S n) p w =
  let r := fst (zkChildren p (zk w)) in
  let w1 := mkWorld (snd (zkChildren p (zk w))) (fs w) in
  match r with
  | Err err =>
      if isErrNoNode err
      then (Done tt, w1, [EvChildren p r; EvPrint Logger (MPathNotThere p)])
      else (Aborted (Panicked (PZk err)), w1, [EvChildren p r])
  | Ok (cs, st) =>
      let sub := forEach cs (fun c => doDelete n (path.Join p c)) w1 in
      match outcome sub with
      | Done _ =>
          (Done tt,
           mkWorld (snd (zkDelete p (Version st) (zk (final sub)))) (fs (final sub)),
           EvChildren p r :: trace sub ++
             [EvPrint Logger (MWillDelete p);
              EvDelete p (Version st)
                (fst (zkDelete p (Version st) (zk (final sub))))])
      | Aborted a => (Aborted a, final sub, EvChildren p r :: trace sub)
      end
  end.
Proof.
  cbn [doDelete]. unfold cChildren.
  rewrite (bind_eq_Done _ _ w _ _ _
             (remote_eq _ _ w _ _ (surjective_pairing _))).
  cbv zeta. destruct (fst (zkChildren p (zk w))) as [[cs st]|err] eqn:Er.
  - set (w1 := mkWorld _ _).
    set (sub := forEach cs _ w1).
    rewrite (run_eta (bind _ _ w1)).
    rewrite outcome_bind, final_bind, trace_bind. fold sub.
    destruct (outcome sub) as [[]|a].
    + unfold logPrintf, print, cDelete.
      rewrite (bind_eq_Done _ _ (final sub) (final sub) tt
                 [EvPrint Logger (MWillDelete p)] eq_refl).
      rewrite (bind_eq_Done _ _ (final sub) _ _ _
                 (remote_eq _ _ (final sub) _ _ (surjective_pairing _))).
      unfold ret, outcome, final, trace. cbn [fst snd app].
      reflexivity.
    + unfold outcome, final, trace. cbn [fst snd app]. now rewrite app_nil_r.
  - destruct (isErrNoNode err); reflexivity.
Qed.

Lemma isErrNoNode_true (e : ZkError) : isErrNoNode e = true -> e = ErrNoNode.
Proof. now destruct e. Qed.

Lemma doDelete_Done_settled (n : nat) (p : string) (w : World W F) :
  outcome (doDelete n p w) = Done tt ->
  exists e, In e (trace (doDelete n p w)) /\ settled p e.
Proof.
  destruct n as [|n]; [discriminate|]. rewrite doDelete_S. cbv zeta.
  destruct (fst (zkChildren p (zk w))) as [[cs st]|err].
  - destruct (outcome (forEach cs _ _)); [|discriminate]. intros _.
    eexists. split.
    + unfold trace. cbn [snd]. right. apply in_or_app. right. right. now left.
    + left. eauto.
  - destruct (isErrNoNode err) eqn:Ee; [|discriminate]. intros _.
    apply isErrNoNode_true in Ee as ->.
    eexists. split; [now left | now right].
Qed.

Lemma doDelete_childrenFirst (n : nat) :
  forall (p : string) (w : World W F), childrenFirst (trace (doDelete n p w)).
Proof.
  induction n as [|n IH]; intros p w; [apply childrenFirst_nil|].
  rewrite doDelete_S. cbv zeta.
  destruct (fst (zkChildren p (zk w))) as [[cs st]|err].
  - set (w1 := mkWorld _ _).
    pose proof (forEach_childrenFirst
                  (fun c => doDelete n (path.Join p c)) cs
                  (fun c w' => IH (path.Join p c) w') w1) as Hsub.
    destruct (outcome (forEach cs _ w1)) as [[]|a] eqn:Eo.
    + unfold trace at 1. cbn [snd]. apply childrenFirst_node; [exact Hsub|].
      apply (forEach_Done_each (fun c => doDelete n (path.Join p c))
               (fun c e => settled (path.Join p c) e)); [|exact Eo].
      intros c w'. apply doDelete_Done_settled.
    + unfold trace at 1. cbn [snd].
      apply (childrenFirst_app [_]); [|exact Hsub].
      apply childrenFirst_single. discriminate.
  - destruct (isErrNoNode err); unfold trace; cbn [snd].
    + apply (childrenFirst_app [_] [_]); apply childrenFirst_single; discriminate.
    + apply childrenFirst_single. discriminate.
Qed.

End DeleteOrder.

(** C5.  In every run of the recursive deleter, whatever the remote service
    answers and however the run ends, a [deleteNode] call for a node comes
    only after the listing of that node whose version it carries, and by
    then every child in that listing has been dealt with: its own delete
    has been issued, or it was found absent.  The same holds for each child's
    delete, hence for every descendant. *)
Theorem doDelete_children_before_parent {W F : Type} `{Conn W} `{LocalFS F}
    (fuel : nat) (serverPrefix : string) (w : World W F) :
  childrenFirst (trace (doDelete fuel serverPrefix w)).
Proof. apply doDelete_childrenFirst. Qed.

(** ** Version conflicts and structural conflicts *)

Section Conflicts.
Context {W F : Type} `{Conn W} `{LocalFS F}.

(** A leaf whose delete is answered [r]. *)
Lemma doDelete_leaf (n : nat) (p : string) (w : World W F)
    (st : Stat) (z1 z2 : W) (r : option ZkError) :
  zkChildren p (zk w) = (Ok ([], st), z1) ->
  zkDelete p (Version st) z1 = (r, z2) ->
  doDelete (S n) p w
  = (Done tt, mkWorld z2 (fs w),
     [EvChildren p (Ok ([], st)); EvPrint Logger (MWillDelete p);
      EvDelete p (Version st) r]).
Proof.
  intros Hc Hd. rewrite doDelete_S. cbv zeta. rewrite Hc. cbn [fst snd].
  cbn [forEach]. unfold ret, outcome, final, trace. cbn [fst snd zk fs app].
  now rewrite Hd.
Qed.

(** [visitFunc] on a regular file whose remote node exists already. *)
Lemma visitFunc_existing_file (serverPrefix absLocal visitedPath : string)
    (fInfo : FileInfo) (w : World W F) (data : bytes)
    (z1 z2 : W) (ex : bool) (st : Stat) :
  fiIsRegular fInfo = true -> fiIsDir fInfo = false ->
  fsReadFile visitedPath (fs w) = Ok data ->
  zkCreate (remotePathOf serverPrefix absLocal visitedPath) data (zk w)
    = (Some ErrNodeExists, z1) ->
  zkExists (remotePathOf serverPrefix absLocal visitedPath) z1
    = (Ok (ex, st), z2) ->
  visitFunc serverPrefix absLocal visitedPath (Some fInfo) None w
  = let remotePath := remotePathOf serverPrefix absLocal visitedPath in
    let seen := [EvReadFile visitedPath (Ok data);
                 EvCreate remotePath data (Some ErrNodeExists);
                 EvExists remotePath (Ok (ex, st))] in
    if NumChildren st >? 0 then
      (Aborted (Panicked (structuralConflict remotePath)),
       mkWorld z2 (fs w), seen)
    else
      let set := zkSet remotePath data (Version st) z2 in
      match fst set with
      | Some e =>
          (Aborted (Panicked (PZk e)), mkWorld (snd set) (fs w),
           seen ++ [EvSet remotePath data (Version st) (Some e)])
      | None =>
          (Done None, mkWorld (snd set) (fs w),
           seen ++ [EvSet remotePath data (Version st) None;
                    EvPrint Logger (MOverwrote visitedPath remotePath)])
      end.
Proof.
  intros Hreg Hdir Hread Hcreate Hexists.
  unfold visitFunc. rewrite Hreg, Hdir. cbn [negb andb].
  remember (remotePathOf serverPrefix absLocal visitedPath) as remotePath.
  cbv zeta.
  unfold bind, ReadFile, localRead, cCreate, cExists, cSet, remote, ret,
    panic, abort, logPrintf, print.
  rewrite Hread. cbn [zk fs]. rewrite Hcreate. cbn [isErrNodeExists zk fs].
  rewrite Hexists. cbn [zk fs].
  destruct (NumChildren st >? 0); [reflexivity|]. cbn [zk fs].
  destruct (zkSet remotePath data (Version st) z2) as [[e|] z3];
    cbn [fst snd app zk fs]; reflexivity.
Qed.

End Conflicts.

(** C3, for the delete.  The answer of [deleteNode] is dropped: when the
    service rejects the delete of a leaf, be it with a version conflict,
    [doDelete] still returns normally, and nothing but the call itself
    records the rejection. *)
Theorem doDelete_drops_rejection {W F : Type} `{Conn W} `{LocalFS F}
    (n : nat) (p : string) (w : World W F) (st : Stat) (z1 z2 : W)
    (e : ZkError) :
  zkChildren p (zk w) = (Ok ([], st), z1) ->
  zkDelete p (Version st) z1 = (Some e, z2) ->
  doDelete (S n) p w
  = (Done tt, mkWorld z2 (fs w),
     [EvChildren p (Ok ([], st)); EvPrint Logger (MWillDelete p);
      EvDelete p (Version st) (Some e)]).
Proof. apply doDelete_leaf. Qed.

Lemma doDelete_drops_rejection_witness :
  let w := mkWorld (mkRacy zkSample) fsSample in
  outcome (doDelete 1 "/cfg/motd" w) = Done tt
  /\ In (EvDelete "/cfg/motd" 0 (Some ErrBadVersion))
        (trace (doDelete 1 "/cfg/motd" w))
  /\ outcome (mainBody 9 true true "/cfg/motd" "/srv/motd" w) = Done tt.
Proof.
  cbv zeta.
  rewrite (doDelete_drops_rejection (W:=RacyZk) (F:=MemFS) 0 "/cfg/motd"
             (mkWorld (mkRacy zkSample) fsSample)
             (mkStat 0 0 5 4000)
             (snd (racyChildren "/cfg/motd" (mkRacy zkSample)))
             (snd (racyChildren "/cfg/motd" (mkRacy zkSample)))
             ErrBadVersion);
    [ | vm_compute; reflexivity | vm_compute; reflexivity ].
  split; [reflexivity|]. split; [right; right; now left|].
  vm_compute. reflexivity.
Defined.

(** C4.  A regular local file whose remote path is answered "exists" by
    [createNode] and then reported by [exists] with a positive child count:
    the visit panics with the structural-conflict message.  The calls issued
    for the entry are the read of the file, the rejected create and the
    [exists] query; no [setNode] and no delete is issued, and the walk, hence
    the run, stops there. *)
Theorem upload_structural_conflict {W F : Type} `{Conn W} `{LocalFS F}
    (serverPrefix absLocal visitedPath : string) (fInfo : FileInfo)
    (w : World W F) (data : bytes) (z1 z2 : W) (ex : bool) (st : Stat)
    (fuel : nat) :
  fiIsRegular fInfo = true -> fiIsDir fInfo = false ->
  fsReadFile visitedPath (fs w) = Ok data ->
  zkCreate (remotePathOf serverPrefix absLocal visitedPath) data (zk w)
    = (Some ErrNodeExists, z1) ->
  zkExists (remotePathOf serverPrefix absLocal visitedPath) z1
    = (Ok (ex, st), z2) ->
  NumChildren st > 0 ->
  let remotePath := remotePathOf serverPrefix absLocal visitedPath in
  let stopped : Outcome (option FsError) * World W F * list Event :=
    (Aborted (Panicked (structuralConflict remotePath)), mkWorld z2 (fs w),
     [EvReadFile visitedPath (Ok data);
      EvCreate remotePath data (Some ErrNodeExists);
      EvExists remotePath (Ok (ex, st))]) in
  visitFunc serverPrefix absLocal visitedPath (Some fInfo) None w = stopped
  /\ walk (S fuel) (visitFunc serverPrefix absLocal) visitedPath fInfo w
     = stopped.
Proof.
  intros Hreg Hdir Hread Hcreate Hexists Hn. cbv zeta.
  assert (Hv : visitFunc serverPrefix absLocal visitedPath (Some fInfo) None w
               = (Aborted (Panicked (structuralConflict
                                       (remotePathOf serverPrefix absLocal visitedPath))),
                  mkWorld z2 (fs w),
                  [EvReadFile visitedPath (Ok data);
                   EvCreate (remotePathOf serverPrefix absLocal visitedPath) data
                     (Some ErrNodeExists);
                   EvExists (remotePathOf serverPrefix absLocal visitedPath)
                     (Ok (ex, st))])).
  { rewrite (visitFunc_existing_file _ _ _ _ _ _ _ _ _ _
               Hreg Hdir Hread Hcreate Hexists).
    cbv zeta. apply Z.gtb_gt in Hn. now rewrite Hn. }
  split; [exact Hv|].
  cbn [walk]. now rewrite (bind_eq_Aborted _ _ _ _ _ _ Hv).
Qed.

Lemma upload_structural_conflict_witness :
  let w := mkWorld zkSample fsConflict in
  visitFunc "/cfg" "/data" "/data/app" (Some (mkFileInfo false true (mkTime 2 0)))
            None w
  = (Aborted (Panicked (structuralConflict "/cfg/app")), w,
     [EvReadFile "/data/app" (Ok (b "not a directory"));
      EvCreate "/cfg/app" (b "not a directory") (Some ErrNodeExists);
      EvExists "/cfg/app" (Ok (true, mkStat 0 1 0 2000))])
  /\ outcome (doUpload 5 "/cfg" "/data" w)
     = Aborted (Panicked (structuralConflict "/cfg/app"))
  /\ zk (final (doUpload 5 "/cfg" "/data" w)) = zkSample.
Proof.
  cbv zeta. split; [|split; vm_compute; reflexivity].
  refine (proj1 (upload_structural_conflict (W:=MemZk) (F:=MemFS)
                   "/cfg" "/data" "/data/app" (mkFileInfo false true (mkTime 2 0))
                   (mkWorld zkSample fsConflict) (b "not a directory")
                   zkSample zkSample true (mkStat 0 1 0 2000) 0
                   _ _ _ _ _ _)).
  - reflexivity.
  - reflexivity.
  - vm_compute; reflexivity.
  - vm_compute; reflexivity.
  - vm_compute; reflexivity.
  - vm_compute; reflexivity.
Defined.

(** ** Upload reads the local file system only *)

Section UploadFrame.
Context {W F : Type} `{Conn W} `{LocalFS F}.

Lemma readsOnly_ret {A} (a : A) : readsOnly (ret (W:=W) (F:=F) a).
Proof. intros w. split; [reflexivity | constructor]. Qed.

Lemma readsOnly_abort {A} (a : Abort) : readsOnly (abort (W:=W) (F:=F) (A:=A) a).
Proof. intros w. split; [reflexivity | constructor]. Qed.

Lemma readsOnly_print (s : Stream) (m : Msg) : readsOnly (print (W:=W) (F:=F) s m).
Proof. intros w. split; [reflexivity | repeat constructor]. Qed.

Lemma readsOnly_bind {A B} (m : M W F A) (k : A -> M W F B) :
  readsOnly m -> (forall a, readsOnly (k a)) -> readsOnly (bind m k).
Proof.
  intros Hm Hk w. destruct (Hm w) as [Hf Ht].
  rewrite final_bind, trace_bind.
  destruct (outcome (m w)) as [a|a].
  - destruct (Hk a (final (m w))) as [Hf' Ht']. split; [congruence|].
    now apply Forall_app_2.
  - split; [assumption | now rewrite app_nil_r].
Qed.

Lemma readsOnly_remote {A} (call : W -> A * W) (ev : A -> Event) :
  (forall a, isLocalWrite (ev a) = false) -> readsOnly (remote (F:=F) call ev).
Proof.
  intros Hev w. rewrite final_remote, trace_remote.
  split; [reflexivity | repeat constructor; apply Hev].
Qed.

Lemma readsOnly_localRead {A} (call : F -> A) (ev : A -> Event) :
  (forall a, isLocalWrite (ev a) = false) -> readsOnly (localRead (W:=W) call ev).
Proof. intros Hev w. split; [reflexivity | repeat constructor; apply Hev]. Qed.

Ltac frame :=
  repeat first
    [ apply readsOnly_ret | apply readsOnly_abort | apply readsOnly_print
    | apply readsOnly_remote; reflexivity
    | apply readsOnly_localRead; reflexivity
    | apply readsOnly_bind; [|intros ?]
    | match goal with
      | |- readsOnly (match ?x with _ => _ end) => destruct x
      | |- readsOnly (if ?x then _ else _) => destruct x
      end ].

Lemma readsOnly_ensureRemotePath (n : nat) :
  forall p, readsOnly (ensureRemotePath (W:=W) (F:=F) n p).
Proof.
  induction n as [|n IH]; intros p; cbn [ensureRemotePath].
  - apply readsOnly_abort.
  - destruct (String.eqb p "/"); [apply readsOnly_ret|].
    apply readsOnly_bind; [apply IH|]. intros _.
    unfold cCreate, logPrintf, panic. frame.
Qed.

Lemma readsOnly_visitFunc (serverPrefix absLocal visitedPath : string)
    (fInfo : option FileInfo) (err : option FsError) :
  readsOnly (visitFunc (W:=W) (F:=F) serverPrefix absLocal visitedPath fInfo err).
Proof.
  unfold visitFunc, cCreate, cExists, cSet, ReadFile, logPrintf, panic.
  frame.
Qed.

Lemma readsOnly_walk (n : nat) (walkFn : string -> option FileInfo
                                         -> option FsError
                                         -> M W F (option FsError)) :
  (forall p i e, readsOnly (walkFn p i e)) ->
  forall p info, readsOnly (walk n walkFn p info).
Proof.
  intros Hfn. induction n as [|n IH]; intros p info; cbn [walk].
  - apply readsOnly_abort.
  - apply readsOnly_bind; [apply Hfn|]. intros [e|]; [apply readsOnly_ret|].
    destruct (negb (fiIsDir info)); [apply readsOnly_ret|].
    apply readsOnly_bind; [apply readsOnly_localRead; reflexivity|].
    intros [names|e]; [|apply Hfn].
    induction names as [|name rest IHn]; [apply readsOnly_ret|].
    apply readsOnly_bind; [apply readsOnly_localRead; reflexivity|].
    intros r. apply readsOnly_bind.
    + destruct r; [apply IH | apply Hfn].
    + intros [e|]; [apply readsOnly_ret | exact IHn].
Qed.

Lemma readsOnly_doUpload (fuel : nat) (serverPrefix localPrefix : string) :
  readsOnly (doUpload (W:=W) (F:=F) fuel serverPrefix localPrefix).
Proof.
  unfold doUpload. apply readsOnly_bind; [apply readsOnly_localRead; reflexivity|].
  intros [absLocal|e]; [|apply readsOnly_abort].
  apply readsOnly_bind; [apply readsOnly_ensureRemotePath|]. intros _.
  apply readsOnly_bind.
  - unfold Walk. apply readsOnly_bind; [apply readsOnly_localRead; reflexivity|].
    intros [info|e]; [|apply readsOnly_visitFunc].
    apply readsOnly_walk. intros. apply readsOnly_visitFunc.
  - intros [e|]; [apply readsOnly_abort | apply readsOnly_ret].
Qed.

End UploadFrame.

(** C9.  Upload never changes the local file system: whatever the two
    collaborators answer and however the run ends, the local state after
    [doUpload] is the one before it, and the run issues no [Mkdir],
    [WriteFile] or [Chtimes]; its local calls are reads only. *)
Theorem doUpload_preserves_local {W F : Type} `{Conn W} `{LocalFS F}
    (fuel : nat) (serverPrefix localPrefix : string) (w : World W F) :
  fs (final (doUpload fuel serverPrefix localPrefix w)) = fs w
  /\ Forall (fun e => isLocalWrite e = false)
            (trace (doUpload fuel serverPrefix localPrefix w)).
Proof. apply readsOnly_doUpload. Qed.

(** ** Download *)

Section Download.
Context {W F : Type} `{Conn W} `{LocalFS F}.

Lemma Time_eqb_eq (t u : Time) : Time_eqb t u = true <-> t = u.
Proof.
  unfold Time_eqb. destruct t as [s1 n1], u as [s2 n2]. cbn [sec nsec].
  rewrite andb_true_iff, !Z.eqb_eq. split.
  - now intros [-> ->].
  - intros E. injection E as -> ->. now split.
Qed.

Lemma After_not_eqb (t u : Time) : After t u = true -> Time_eqb t u = false.
Proof.
  unfold After, Time_eqb. intros Ha.
  destruct (sec t =? sec u) eqn:Es; [|reflexivity].
  apply Z.eqb_eq in Es. rewrite Es in Ha.
  rewrite orb_true_iff, andb_true_iff in Ha.
  destruct Ha as [Ha | [_ Ha]].
  - apply Z.gtb_gt in Ha. lia.
  - cbn [andb]. apply Z.gtb_gt in Ha. apply Z.eqb_neq. lia.
Qed.

(** [time.Unix(ms/1000, 0)] is a whole number of seconds. *)
Lemma Unix_whole (s : Z) : Unix s 0 = mkTime s 0.
Proof. reflexivity. Qed.

(** [doDownload] on a node that holds data. *)
Lemma doDownload_file (n : nat) (serverPrefix localPrefix : string)
    (w : World W F) (fData : bytes) (stat : Stat) (z1 : W) :
  zkGet serverPrefix (zk w) = (Ok (fData, stat), z1) ->
  DataLength stat <> 0 ->
  doDownload (S n) serverPrefix localPrefix w
  = let r := downloadFile localPrefix fData stat (mkWorld z1 (fs w)) in
    (outcome r, final r, EvGet serverPrefix (Ok (fData, stat)) :: trace r).
Proof.
  intros Hget Hlen. cbn [doDownload]. unfold cGet.
  rewrite (bind_eq_Done _ _ w _ _ _ (remote_eq _ _ w _ _ Hget)).
  apply Z.eqb_neq in Hlen. now rewrite Hlen.
Qed.

Lemma createFile_ok (localPrefix : string) (fData : bytes) (mtime : Time)
    (w : World W F) (f1 f2 : F) :
  fsWriteFile localPrefix fData fileMode (fs w) = (None, f1) ->
  fsChtimes localPrefix mtime mtime f1 = (None, f2) ->
  createFile localPrefix fData mtime w
  = (Done tt, mkWorld (zk w) f2,
     [EvWriteFile localPrefix fData fileMode None;
      EvChtimes localPrefix mtime mtime None;
      EvPrint Stdout (MDownloaded localPrefix)]).
Proof.
  intros Hw Hc. unfold createFile, WriteFile, osChtimes.
  rewrite (bind_eq_Done _ _ w _ _ _ (localWrite_eq _ _ w _ _ Hw)).
  rewrite (bind_eq_Done _ _ (mkWorld (zk w) f1) _ _ _
             (localWrite_eq _ _ (mkWorld (zk w) f1) _ _ Hc)).
  reflexivity.
Qed.

Lemma downloadFile_same (localPrefix : string) (fData : bytes) (stat : Stat)
    (w : World W F) (fInfo : FileInfo) :
  fsStat localPrefix (fs w) = Ok fInfo ->
  Unix (Z.quot (Mtime stat) 1000) 0 = ModTime fInfo ->
  downloadFile localPrefix fData stat w
  = (Done tt, w,
     [EvPrint Logger (MRemoteModifiedOn (Unix (Z.quot (Mtime stat) 1000) 0));
      EvStat localPrefix (Ok fInfo);
      EvPrint Logger (MLocalModifiedOn (ModTime fInfo));
      EvPrint Logger MFilesSame]).
Proof.
  intros Hs Heq. unfold downloadFile. cbv zeta.
  apply Time_eqb_eq in Heq.
  unfold bind, logPrintf, print, osStat, localRead. rewrite Hs, Heq.
  reflexivity.
Qed.

Lemma downloadFile_newer (localPrefix : string) (fData : bytes) (stat : Stat)
    (w : World W F) (fInfo : FileInfo) (f1 f2 : F) :
  fsStat localPrefix (fs w) = Ok fInfo ->
  After (Unix (Z.quot (Mtime stat) 1000) 0) (ModTime fInfo) = true ->
  fsWriteFile localPrefix fData fileMode (fs w) = (None, f1) ->
  fsChtimes localPrefix (Unix (Z.quot (Mtime stat) 1000) 0)
            (Unix (Z.quot (Mtime stat) 1000) 0) f1 = (None, f2) ->
  downloadFile localPrefix fData stat w
  = (Done tt, mkWorld (zk w) f2,
     [EvPrint Logger (MRemoteModifiedOn (Unix (Z.quot (Mtime stat) 1000) 0));
      EvStat localPrefix (Ok fInfo);
      EvPrint Logger (MLocalModifiedOn (ModTime fInfo));
      EvPrint Logger MRemoteNewer;
      EvWriteFile localPrefix fData fileMode None;
      EvChtimes localPrefix (Unix (Z.quot (Mtime stat) 1000) 0)
                (Unix (Z.quot (Mtime stat) 1000) 0) None;
      EvPrint Stdout (MDownloaded localPrefix)]).
Proof.
  intros Hs Ha Hw Hc. unfold downloadFile. cbv zeta.
  pose proof (After_not_eqb _ _ Ha) as Hne.
  pose proof (createFile_ok localPrefix fData _ w f1 f2 Hw Hc) as Hcf.
  unfold bind, logPrintf, print, osStat, localRead. rewrite Hs, Hne, Ha.
  unfold bind. rewrite Hcf. reflexivity.
Qed.

Lemma downloadFile_absent (localPrefix : string) (fData : bytes) (stat : Stat)
    (w : World W F) (e : FsError) (f1 f2 : F) :
  fsStat localPrefix (fs w) = Err e -> IsNotExist e = true ->
  fsWriteFile localPrefix fData fileMode (fs w) = (None, f1) ->
  fsChtimes localPrefix (Unix (Z.quot (Mtime stat) 1000) 0)
            (Unix (Z.quot (Mtime stat) 1000) 0) f1 = (None, f2) ->
  downloadFile localPrefix fData stat w
  = (Done tt, mkWorld (zk w) f2,
     [EvPrint Logger (MRemoteModifiedOn (Unix (Z.quot (Mtime stat) 1000) 0));
      EvStat localPrefix (Err e);
      EvPrint Logger MLocalMissing;
      EvWriteFile localPrefix fData fileMode None;
      EvChtimes localPrefix (Unix (Z.quot (Mtime stat) 1000) 0)
                (Unix (Z.quot (Mtime stat) 1000) 0) None;
      EvPrint Stdout (MDownloaded localPrefix)]).
Proof.
  intros Hs He Hw Hc. unfold downloadFile. cbv zeta.
  pose proof (createFile_ok localPrefix fData _ w f1 f2 Hw Hc) as Hcf.
  unfold bind, logPrintf, print, osStat, localRead. rewrite Hs, He.
  unfold bind. rewrite Hcf. reflexivity.
Qed.

Lemma doDownload_missing (n : nat) (serverPrefix localPrefix : string)
    (w : World W F) (z1 : W) :
  zkGet serverPrefix (zk w) = (Err ErrNoNode, z1) ->
  doDownload (S n) serverPrefix localPrefix w
  = (Aborted (Exited 1), mkWorld z1 (fs w),
     [EvGet serverPrefix (Err ErrNoNode);
      EvPrint Logger (MPathNotThere serverPrefix)]).
Proof.
  intros Hget. cbn [doDownload]. unfold cGet.
  now rewrite (bind_eq_Done _ _ w _ _ _ (remote_eq _ _ w _ _ Hget)).
Qed.

Lemma Old_doDownload_missing (n : nat) (serverPrefix localPrefix : string)
    (w : World W F) (z1 : W) :
  zkGet serverPrefix (zk w) = (Err ErrNoNode, z1) ->
  Old.doDownload (S n) serverPrefix localPrefix w
  = (Done tt, mkWorld z1 (fs w),
     [EvGet serverPrefix (Err ErrNoNode);
      EvPrint Stdout (MPathNotThere serverPrefix)]).
Proof.
  intros Hget. cbn [Old.doDownload]. unfold cGet.
  now rewrite (bind_eq_Done _ _ w _ _ _ (remote_eq _ _ w _ _ Hget)).
Qed.

End Download.

(** C1, as amended.  Download of a node that holds data onto a local file
    that exists compares the remote timestamp, cut down to whole seconds,
    with the local modification time.  If they are equal, nothing is written:
    the run reports that the files are the same and the local state is
    untouched.  If the remote time is later, the local file is written with
    the remote data and its times are set to the remote time in whole
    seconds. *)
Theorem download_existing_file {W F : Type} `{Conn W} `{LocalFS F}
    (n : nat) (serverPrefix localPrefix : string) (w : World W F)
    (fData : bytes) (stat : Stat) (z1 : W) (fInfo : FileInfo) :
  zkGet serverPrefix (zk w) = (Ok (fData, stat), z1) ->
  DataLength stat <> 0 ->
  fsStat localPrefix (fs w) = Ok fInfo ->
  let mtime := Unix (Z.quot (Mtime stat) 1000) 0 in
  let seen := [EvGet serverPrefix (Ok (fData, stat));
               EvPrint Logger (MRemoteModifiedOn mtime);
               EvStat localPrefix (Ok fInfo);
               EvPrint Logger (MLocalModifiedOn (ModTime fInfo))] in
  (mtime = ModTime fInfo ->
   doDownload (S n) serverPrefix localPrefix w
   = (Done tt, mkWorld z1 (fs w), seen ++ [EvPrint Logger MFilesSame]))
  /\ (After mtime (ModTime fInfo) = true ->
      forall f1 f2 : F,
        fsWriteFile localPrefix fData fileMode (fs w) = (None, f1) ->
        fsChtimes localPrefix mtime mtime f1 = (None, f2) ->
        doDownload (S n) serverPrefix localPrefix w
        = (Done tt, mkWorld z1 f2,
           seen ++ [EvPrint Logger MRemoteNewer;
                    EvWriteFile localPrefix fData fileMode None;
                    EvChtimes localPrefix mtime mtime None;
                    EvPrint Stdout (MDownloaded localPrefix)])).
Proof.
  intros Hget Hlen Hstat. cbv zeta. split.
  - intros Heq. rewrite (doDownload_file _ _ _ _ _ _ _ Hget Hlen). cbv zeta.
    now rewrite (downloadFile_same _ _ _ (mkWorld z1 (fs w)) _ Hstat Heq).
  - intros Ha f1 f2 Hw Hc.
    rewrite (doDownload_file _ _ _ _ _ _ _ Hget Hlen). cbv zeta.
    now rewrite (downloadFile_newer _ _ _ (mkWorld z1 (fs w)) _ _ _
                   Hstat Ha Hw Hc).
Qed.

Lemma download_existing_file_witness :
  let w := mkWorld zkSample fsSample in
  fs (final (doDownload 1 "/cfg/app/db.conf" "/srv/app/db.conf" w)) = fsSample
  /\ entries (fs (final (doDownload 1 "/cfg/motd" "/srv/app/db.conf" w)))
       !! "/srv/app/db.conf"
     = Some (mkEntry KFile (b "hello") (mkTime 4 0)).
Proof.
  cbv zeta. split.
  - pose proof (download_existing_file (W:=MemZk) (F:=MemFS) 0
                  "/cfg/app/db.conf" "/srv/app/db.conf"
                  (mkWorld zkSample fsSample) (b "host=db")
                  (mkStat 3 0 7 1500) zkSample
                  (mkFileInfo false true (mkTime 1 0))) as Hw.
    cbv zeta in Hw.
    destruct Hw as [Hsame _];
      [vm_compute; reflexivity | discriminate | vm_compute; reflexivity |].
    rewrite Hsame by reflexivity. reflexivity.
  - pose proof (download_existing_file (W:=MemZk) (F:=MemFS) 0
                  "/cfg/motd" "/srv/app/db.conf"
                  (mkWorld zkSample fsSample) (b "hello")
                  (mkStat 0 0 5 4000) zkSample
                  (mkFileInfo false true (mkTime 1 0))) as Hw.
    cbv zeta in Hw.
    destruct Hw as [_ Hnewer];
      [vm_compute; reflexivity | discriminate | vm_compute; reflexivity |].
    rewrite (Hnewer eq_refl
               (snd (memWriteFile "/srv/app/db.conf" (b "hello") fileMode fsSample))
               (snd (memChtimes "/srv/app/db.conf" (mkTime 4 0) (mkTime 4 0)
                       (snd (memWriteFile "/srv/app/db.conf" (b "hello")
                               fileMode fsSample)))));
      [|vm_compute; reflexivity|vm_compute; reflexivity].
    vm_compute. reflexivity.
Defined.

(** C1 as stated fails.  The remote node [/cfg/app/db.conf] was modified at
    1500 ms, strictly after the local file (1 s), yet the download writes
    nothing; and [/cfg/motd] (4000 ms) is strictly older than the local
    [/srv/motd] (9 s and 500 ns), yet the local file is overwritten. *)
Lemma download_order_counterexample :
  let w := mkWorld zkSample fsSample in
  (1500 * 1000000 > UnixNano (mkTime 1 0)
   /\ memGet "/cfg/app/db.conf" zkSample
      = (Ok (b "host=db", mkStat 3 0 7 1500), zkSample)
   /\ memStat "/srv/app/db.conf" fsSample
      = Ok (mkFileInfo false true (mkTime 1 0))
   /\ Forall (fun e => isLocalWrite e = false)
             (trace (doDownload 1 "/cfg/app/db.conf" "/srv/app/db.conf" w))
   /\ fs (final (doDownload 1 "/cfg/app/db.conf" "/srv/app/db.conf" w)) = fsSample)
  /\ (4000 * 1000000 < UnixNano (mkTime 9 500)
      /\ memGet "/cfg/motd" zkSample = (Ok (b "hello", mkStat 0 0 5 4000), zkSample)
      /\ memStat "/srv/motd" fsSample = Ok (mkFileInfo false true (mkTime 9 500))
      /\ In (EvWriteFile "/srv/motd" (b "hello") fileMode None)
            (trace (doDownload 1 "/cfg/motd" "/srv/motd" w))
      /\ entries (fs (final (doDownload 1 "/cfg/motd" "/srv/motd" w))) !! "/srv/motd"
         = Some (mkEntry KFile (b "hello") (mkTime 4 0))).
Proof.
  cbv zeta. split.
  - split; [reflexivity|]. split; [vm_compute; reflexivity|].
    split; [vm_compute; reflexivity|].
    split; [vm_compute; repeat constructor | vm_compute; reflexivity].
  - split; [reflexivity|]. split; [vm_compute; reflexivity|].
    split; [vm_compute; reflexivity|].
    split; [vm_compute; tauto | vm_compute; reflexivity].
Qed.

(** C2, as amended.  When the remote root does not exist,
    [src/configurator.go] logs that the path is not there and leaves through
    [log.Fatalf], that is with exit status 1 and without a local call; the
    earlier revision in [src/unnamed/part_000] prints the same line and
    returns to its caller. *)
Theorem download_missing_root {W F : Type} `{Conn W} `{LocalFS F}
    (n : nat) (serverPrefix localPrefix : string) (w : World W F) (z1 : W) :
  zkGet serverPrefix (zk w) = (Err ErrNoNode, z1) ->
  doDownload (S n) serverPrefix localPrefix w
  = (Aborted (Exited 1), mkWorld z1 (fs w),
     [EvGet serverPrefix (Err ErrNoNode);
      EvPrint Logger (MPathNotThere serverPrefix)])
  /\ Old.doDownload (S n) serverPrefix localPrefix w
     = (Done tt, mkWorld z1 (fs w),
        [EvGet serverPrefix (Err ErrNoNode);
         EvPrint Stdout (MPathNotThere serverPrefix)]).
Proof.
  intros Hget. split;
    [now apply doDownload_missing | now apply Old_doDownload_missing].
Qed.

Lemma download_missing_root_witness :
  doDownload 1 "/nope" "/srv" (mkWorld zkSample fsSample)
  = (Aborted (Exited 1), mkWorld zkSample fsSample,
     [EvGet "/nope" (Err ErrNoNode); EvPrint Logger (MPathNotThere "/nope")]).
Proof.
  refine (proj1 (download_missing_root (W:=MemZk) (F:=MemFS) 0 "/nope" "/srv"
                   (mkWorld zkSample fsSample) zkSample _)).
  vm_compute; reflexivity.
Defined.

(** C2 as stated fails: on a remote root that does not exist, the download
    of [src/configurator.go] does not return to its caller, and [main] never
    reaches its last line. *)
Lemma download_missing_root_counterexample :
  let w := mkWorld zkSample fsSample in
  outcome (doDownload 5 "/nope" "/srv" w) <> Done tt
  /\ outcome (mainBody 5 false false "/nope" "/srv" w) = Aborted (Exited 1)
  /\ ~ In (EvPrint Logger MAllDone)
          (trace (mainBody 5 false false "/nope" "/srv" w)).
Proof.
  cbv zeta. split; [discriminate|]. split; [reflexivity|].
  vm_compute. intros [E|[E|[]]]; discriminate E.
Qed.

(** C6, as amended.  Download of a node that holds data when the local file
    does not exist writes the data and then sets the local times to the
    remote timestamp cut down to whole seconds, [Mtime / 1000] seconds and
    no nanoseconds.  When the file system reports that time back and the
    node has not changed, the next download finds the two times equal and
    writes nothing. *)
Theorem download_absent_file {W F : Type} `{Conn W} `{LocalFS F}
    (n : nat) (serverPrefix localPrefix : string) (w : World W F)
    (fData : bytes) (stat : Stat) (z1 : W) (e : FsError) (f1 f2 : F) :
  zkGet serverPrefix (zk w) = (Ok (fData, stat), z1) ->
  DataLength stat <> 0 ->
  fsStat localPrefix (fs w) = Err e -> IsNotExist e = true ->
  let mtime := mkTime (Z.quot (Mtime stat) 1000) 0 in
  fsWriteFile localPrefix fData fileMode (fs w) = (None, f1) ->
  fsChtimes localPrefix mtime mtime f1 = (None, f2) ->
  doDownload (S n) serverPrefix localPrefix w
  = (Done tt, mkWorld z1 f2,
     [EvGet serverPrefix (Ok (fData, stat));
      EvPrint Logger (MRemoteModifiedOn mtime);
      EvStat localPrefix (Err e);
      EvPrint Logger MLocalMissing;
      EvWriteFile localPrefix fData fileMode None;
      EvChtimes localPrefix mtime mtime None;
      EvPrint Stdout (MDownloaded localPrefix)])
  /\ (forall (w2 : World W F) (z3 : W) (fInfo : FileInfo),
        fs w2 = f2 ->
        zkGet serverPrefix (zk w2) = (Ok (fData, stat), z3) ->
        fsStat localPrefix f2 = Ok fInfo ->
        ModTime fInfo = mtime ->
        doDownload (S n) serverPrefix localPrefix w2
        = (Done tt, mkWorld z3 f2,
           [EvGet serverPrefix (Ok (fData, stat));
            EvPrint Logger (MRemoteModifiedOn mtime);
            EvStat localPrefix (Ok fInfo);
            EvPrint Logger (MLocalModifiedOn (ModTime fInfo));
            EvPrint Logger MFilesSame])).
Proof.
  intros Hget Hlen Hstat He mtime Hw Hc. split.
  - rewrite (doDownload_file _ _ _ _ _ _ _ Hget Hlen). cbv zeta.
    now rewrite (downloadFile_absent _ _ _ (mkWorld z1 (fs w)) _ _ _
                   Hstat He Hw Hc).
  - intros w2 z3 fInfo Hfs Hget2 Hstat2 Hmt. subst f2.
    rewrite (doDownload_file _ _ _ _ _ _ _ Hget2 Hlen). cbv zeta.
    rewrite (downloadFile_same _ _ _ (mkWorld z3 (fs w2)) fInfo Hstat2);
      [reflexivity | now rewrite Hmt].
Qed.

Lemma download_absent_file_witness :
  let w := mkWorld zkSample fsSample in
  let w2 := final (doDownload 1 "/cfg/app/db.conf" "/srv/new.conf" w) in
  entries (fs w2) !! "/srv/new.conf"
    = Some (mkEntry KFile (b "host=db") (mkTime 1 0))
  /\ fs (final (doDownload 1 "/cfg/app/db.conf" "/srv/new.conf" w2)) = fs w2.
Proof.
  cbv zeta.
  pose (f1 := snd (memWriteFile "/srv/new.conf" (b "host=db") fileMode fsSample)).
  pose (f2 := snd (memChtimes "/srv/new.conf" (mkTime 1 0) (mkTime 1 0) f1)).
  pose proof (download_absent_file (W:=MemZk) (F:=MemFS) 0
                "/cfg/app/db.conf" "/srv/new.conf"
                (mkWorld zkSample fsSample) (b "host=db")
                (mkStat 3 0 7 1500) zkSample ENOENT f1 f2) as Hw.
  cbv zeta in Hw.
  destruct Hw as [Hfirst Hsecond];
    [ vm_compute; reflexivity | discriminate | vm_compute; reflexivity
    | reflexivity | vm_compute; reflexivity | vm_compute; reflexivity | ].
  rewrite Hfirst. unfold final. cbn [fst snd].
  split; [vm_compute; reflexivity|].
  rewrite (Hsecond (mkWorld zkSample f2) zkSample
             (mkFileInfo false true (mkTime 1 0)));
    [ reflexivity | reflexivity | vm_compute; reflexivity
    | vm_compute; reflexivity | reflexivity ].
Defined.

(** C6 as stated fails: the node [/cfg/app/db.conf] was modified at 1500 ms;
    after its download to a new local file, the local modification time is
    1 s, which is not that timestamp. *)
Lemma download_mtime_counterexample :
  let w := mkWorld zkSample fsSample in
  memGet "/cfg/app/db.conf" zkSample
    = (Ok (b "host=db", mkStat 3 0 7 1500), zkSample)
  /\ memStat "/srv/new.conf" fsSample = Err ENOENT
  /\ (modTime <$> entries (fs (final (doDownload 1 "/cfg/app/db.conf"
                                        "/srv/new.conf" w))) !! "/srv/new.conf")
     = Some (mkTime 1 0)
  /\ UnixNano (mkTime 1 0) <> 1500 * 1000000.
Proof.
  cbv zeta. split; [vm_compute; reflexivity|]. split; [vm_compute; reflexivity|].
  split; [vm_compute; reflexivity | discriminate].
Qed.

(** ** Further checks *)

(** The overwrite of [doUpload] does stop on a rejected [setNode]: the
    counterpart, for upload, of what [doDelete] leaves out. *)
Lemma upload_set_rejection_panics {W F : Type} `{Conn W} `{LocalFS F}
    (serverPrefix absLocal visitedPath : string) (fInfo : FileInfo)
    (w : World W F) (data : bytes) (z1 z2 z3 : W) (ex : bool) (st : Stat)
    (e : ZkError) :
  fiIsRegular fInfo = true -> fiIsDir fInfo = false ->
  fsReadFile visitedPath (fs w) = Ok data ->
  zkCreate (remotePathOf serverPrefix absLocal visitedPath) data (zk w)
    = (Some ErrNodeExists, z1) ->
  zkExists (remotePathOf serverPrefix absLocal visitedPath) z1
    = (Ok (ex, st), z2) ->
  NumChildren st <= 0 ->
  zkSet (remotePathOf serverPrefix absLocal visitedPath) data (Version st) z2
    = (Some e, z3) ->
  outcome (visitFunc serverPrefix absLocal visitedPath (Some fInfo) None w)
  = Aborted (Panicked (PZk e)).
Proof.
  intros Hreg Hdir Hread Hcreate Hexists Hn Hset.
  rewrite (visitFunc_existing_file _ _ _ _ _ _ _ _ _ _
             Hreg Hdir Hread Hcreate Hexists).
  cbv zeta.
  assert (Hz : (NumChildren st >? 0) = false).
  { rewrite Z.gtb_ltb. apply Z.ltb_ge. exact Hn. }
  now rewrite Hz, Hset.
Qed.

(** [childrenFirst] does reject a trace that deletes a parent before its
    listed child. *)
Example childrenFirst_rejects_parent_first :
  ~ childrenFirst
      [EvChildren "/a" (Ok (["b"], mkStat 0 1 0 0));
       EvDelete "/a" 0 None;
       EvChildren "/a/b" (Ok ([], mkStat 0 0 0 0));
       EvDelete "/a/b" 0 None].
Proof.
  intros Hc.
  destruct (Hc [EvChildren "/a" (Ok (["b"], mkStat 0 1 0 0))] "/a" 0 None
               [EvChildren "/a/b" (Ok ([], mkStat 0 0 0 0)); EvDelete "/a/b" 0 None]
               eq_refl)
    as (pre1 & cs & st & mid & E & _ & Hall).
  destruct pre1 as [|x pre1].
  - injection E as Ecs _ Emid. subst cs mid.
    destruct (Hall "b" (or_introl eq_refl)) as (e & [] & _).
  - injection E as _ E. destruct pre1; discriminate E.
Qed.

(** The deleter on the sample tree: every delete is accepted and only the
    root is left. *)
Example doDelete_sample :
  let r := doDelete 4 "/cfg" (mkWorld zkSample fsSample) in
  outcome r = Done tt
  /\ List.filter isRemoteWrite (trace r)
     = [EvDelete "/cfg/motd" 0 None; EvDelete "/cfg/app/db.conf" 3 None;
        EvDelete "/cfg/app" 0 None; EvDelete "/cfg" 0 None]
  /\ map fst (map_to_list (nodes (zk (final r)))) = ["/"].
Proof. vm_compute. repeat split. Qed.

(** * The rest of the two files *)

(** ** Properties of whole runs, piece by piece *)

Section TraceInvariants.
Context {W F : Type} `{Conn W} `{LocalFS F}.
Context (P : list Event -> Prop) (HP : Compositional P).

Lemma keeps_ret {A} (a : A) : keeps P (ret (W:=W) (F:=F) a).
Proof. intros w. apply (comp_nil P HP). Qed.

Lemma keeps_abort {A} (a : Abort) : keeps P (abort (W:=W) (F:=F) (A:=A) a).
Proof. intros w. apply (comp_nil P HP). Qed.

Lemma keeps_bind {A B} (m : M W F A) (k : A -> M W F B) :
  keeps P m -> (forall a, keeps P (k a)) -> keeps P (bind m k).
Proof.
  intros Hm Hk w. rewrite trace_bind. apply (comp_app P HP); [apply Hm|].
  destruct (outcome (m w)); [apply Hk | apply (comp_nil P HP)].
Qed.

Lemma keeps_forEach {A} (l : list A) (body : A -> M W F unit) :
  (forall x, keeps P (body x)) -> keeps P (forEach l body).
Proof.
  intros Hb. induction l as [|x l IH]; cbn [forEach].
  - apply keeps_ret.
  - apply keeps_bind; [apply Hb | intros _; exact IH].
Qed.

Lemma keeps_remote {A} (call : W -> A * W) (ev : A -> Event) :
  (forall a, P [ev a]) -> keeps P (remote (F:=F) call ev).
Proof. intros Hev w. rewrite trace_remote. apply Hev. Qed.

Lemma keeps_localRead {A} (call : F -> A) (ev : A -> Event) :
  (forall a, P [ev a]) -> keeps P (localRead (W:=W) call ev).
Proof. intros Hev w. apply Hev. Qed.

Lemma keeps_localWrite {A} (call : F -> A * F) (ev : A -> Event) :
  (forall a, P [ev a]) -> keeps P (localWrite (W:=W) call ev).
Proof.
  intros Hev w. unfold localWrite, trace. destruct (call (fs w)). apply Hev.
Qed.

Lemma keeps_print (s : Stream) (m : Msg) :
  P [EvPrint s m] -> keeps P (print (W:=W) (F:=F) s m).
Proof. intros Hp w. exact Hp. Qed.

Lemma keeps_logFatalf {A} (m : Msg) :
  P [EvPrint Logger m] -> keeps P (logFatalf (W:=W) (F:=F) (A:=A) m).
Proof. intros Hp w. exact Hp. Qed.

Lemma keeps_walk (n : nat)
    (walkFn : string -> option FileInfo -> option FsError
              -> M W F (option FsError)) :
  (forall p i e, keeps P (walkFn p i e)) ->
  (forall p r, P [EvReadDirNames p r]) ->
  (forall p r, P [EvLstat p r]) ->
  forall p info, keeps P (walk n walkFn p info).
Proof.
  intros Hfn Hrd Hls. induction n as [|n IH]; intros p info; cbn [walk].
  - apply keeps_abort.
  - apply keeps_bind; [apply Hfn|]. intros [e|]; [apply keeps_ret|].
    destruct (negb (fiIsDir info)); [apply keeps_ret|].
    apply keeps_bind; [apply keeps_localRead, Hrd|].
    intros [names|e]; [|apply Hfn].
    induction names as [|name rest IHn]; [apply keeps_ret|].
    apply keeps_bind; [apply keeps_localRead, Hls|].
    intros r. apply keeps_bind.
    + destruct r; [apply IH | apply Hfn].
    + intros [e|]; [apply keeps_ret | exact IHn].
Qed.

Lemma keeps_Walk (n : nat) (root : string)
    (walkFn : string -> option FileInfo -> option FsError
              -> M W F (option FsError)) :
  (forall p i e, keeps P (walkFn p i e)) ->
  (forall p r, P [EvReadDirNames p r]) ->
  (forall p r, P [EvLstat p r]) ->
  keeps P (Walk n root walkFn).
Proof.
  intros Hfn Hrd Hls. unfold Walk.
  apply keeps_bind; [apply keeps_localRead, Hls|].
  intros [info|e]; [now apply keeps_walk | apply Hfn].
Qed.

End TraceInvariants.

Lemma Compositional_each (Q : Event -> bool) : Compositional (each Q).
Proof.
  split; [constructor|]. intros t1 t2. apply Forall_app_2.
Qed.

Lemma each_single (Q : Event -> bool) (e : Event) : Q e = true -> each Q [e].
Proof. intros He. constructor; [exact He | constructor]. Qed.

(** One step of a proof that a program produces events of one kind only. *)
Ltac kinds HQ :=
  repeat first
    [ apply (keeps_ret _ HQ) | apply (keeps_abort _ HQ)
    | apply keeps_print; apply each_single; reflexivity
    | apply keeps_logFatalf; apply each_single; reflexivity
    | apply keeps_remote; intros ?; apply each_single; reflexivity
    | apply keeps_localRead; intros ?; apply each_single; reflexivity
    | apply keeps_localWrite; intros ?; apply each_single; reflexivity
    | apply (keeps_bind _ HQ); [|intros ?]
    | match goal with
      | |- keeps _ (match ?x with _ => _ end) => destruct x
      | |- keeps _ (if ?x then _ else _) => destruct x
      end ].

Section Kinds.
Context {W F : Type} `{Conn W} `{LocalFS F}.

Lemma doDelete_kinds (n : nat) :
  forall p, keeps (each isDeleterEvent) (doDelete (W:=W) (F:=F) n p).
Proof.
  pose proof (Compositional_each isDeleterEvent) as HQ.
  induction n as [|n IH]; intros p; cbn [doDelete]; [apply (keeps_abort _ HQ)|].
  apply (keeps_bind _ HQ);
    [apply keeps_remote; intros ?; apply each_single; reflexivity|].
  intros [[children stat]|err].
  - apply (keeps_bind _ HQ); [apply (keeps_forEach _ HQ); intros c; apply IH|].
    intros _. unfold logPrintf, cDelete. kinds HQ.
  - unfold logPrintf, panic. kinds HQ.
Qed.

Lemma readsOnly_forEach {A} (l : list A) (body : A -> M W F unit) :
  (forall x, readsOnly (body x)) -> readsOnly (forEach l body).
Proof.
  intros Hb. induction l as [|x l IH]; cbn [forEach].
  - apply readsOnly_ret.
  - apply readsOnly_bind; [apply Hb | intros _; exact IH].
Qed.

Lemma doDelete_readsOnly (n : nat) :
  forall p, readsOnly (doDelete (W:=W) (F:=F) n p).
Proof.
  induction n as [|n IH]; intros p; cbn [doDelete]; [apply readsOnly_abort|].
  apply readsOnly_bind; [apply readsOnly_remote; reflexivity|].
  intros [[children stat]|err].
  - apply readsOnly_bind; [apply readsOnly_forEach; intros c; apply IH|].
    intros _. apply readsOnly_bind; [apply readsOnly_print|]. intros _.
    apply readsOnly_bind; [apply readsOnly_remote; reflexivity|].
    intros _. apply readsOnly_ret.
  - destruct (isErrNoNode err); [apply readsOnly_print | apply readsOnly_abort].
Qed.

Lemma ensureRemotePath_kinds (n : nat) :
  forall p, keeps (each isEnsureEvent) (ensureRemotePath (W:=W) (F:=F) n p).
Proof.
  pose proof (Compositional_each isEnsureEvent) as HQ.
  induction n as [|n IH]; intros p; cbn [ensureRemotePath];
    [apply (keeps_abort _ HQ)|].
  destruct (String.eqb p "/"); [apply (keeps_ret _ HQ)|].
  apply (keeps_bind _ HQ); [apply IH|]. intros _.
  unfold cCreate, logPrintf, panic. kinds HQ.
Qed.

Lemma each_impl (Q1 Q2 : Event -> bool) (t : list Event) :
  (forall e, Q1 e = true -> Q2 e = true) -> each Q1 t -> each Q2 t.
Proof. intros Hq Ht. eapply List.Forall_impl; [|exact Ht]. exact Hq. Qed.

Lemma visitFunc_kinds (serverPrefix absLocal visitedPath : string)
    (fInfo : option FileInfo) (err : option FsError) :
  keeps (each isUploaderEvent)
        (visitFunc (W:=W) (F:=F) serverPrefix absLocal visitedPath fInfo err).
Proof.
  pose proof (Compositional_each isUploaderEvent) as HQ.
  unfold visitFunc, cCreate, cExists, cSet, ReadFile, logPrintf, panic.
  kinds HQ.
Qed.

Lemma doUpload_kinds (fuel : nat) (serverPrefix localPrefix : string) :
  keeps (each isUploaderEvent)
        (doUpload (W:=W) (F:=F) fuel serverPrefix localPrefix).
Proof.
  pose proof (Compositional_each isUploaderEvent) as HQ.
  unfold doUpload, filepathAbs.
  apply (keeps_bind _ HQ);
    [apply keeps_localRead; intros ?; apply each_single; reflexivity|].
  intros [absLocal|e]; [|apply (keeps_abort _ HQ)].
  apply (keeps_bind _ HQ).
  - intros w. apply (each_impl isEnsureEvent); [|apply ensureRemotePath_kinds].
    intros [] E; try discriminate E; reflexivity.
  - intros _. apply (keeps_bind _ HQ).
    + apply (keeps_Walk _ HQ).
      * intros. apply visitFunc_kinds.
      * intros. now apply each_single.
      * intros. now apply each_single.
    + intros [e|]; [apply (keeps_abort _ HQ) | apply (keeps_ret _ HQ)].
Qed.

Lemma doDownload_kinds (n : nat) :
  forall sp lp, keeps (each isDownloaderEvent) (doDownload (W:=W) (F:=F) n sp lp).
Proof.
  pose proof (Compositional_each isDownloaderEvent) as HQ.
  induction n as [|n IH]; intros sp lp; cbn [doDownload];
    [apply (keeps_abort _ HQ)|].
  unfold cGet.
  apply (keeps_bind _ HQ);
    [apply keeps_remote; intros ?; apply each_single; reflexivity|].
  intros [[fData stat]|err].
  - destruct (DataLength stat =? 0).
    + unfold osMkdir, logPrintf, panic, cChildren.
      apply (keeps_bind _ HQ);
        [apply keeps_localWrite; intros ?; apply each_single; reflexivity|].
      intros r. apply (keeps_bind _ HQ); [kinds HQ|]. intros _.
      destruct (NumChildren stat >? 0); [|apply (keeps_ret _ HQ)].
      apply (keeps_bind _ HQ);
        [apply keeps_remote; intros ?; apply each_single; reflexivity|].
      intros [[children st]|e]; [|apply (keeps_abort _ HQ)].
      apply (keeps_forEach _ HQ). intros c. apply IH.
    + unfold downloadFile, createFile, osStat, WriteFile, osChtimes,
        logPrintf, fmtPrintf, panic.
      cbv zeta. kinds HQ.
  - unfold panic. kinds HQ.
Qed.

Lemma Old_doDownload_kinds (n : nat) :
  forall sp lp,
    keeps (each isOldDownloaderEvent) (Old.doDownload (W:=W) (F:=F) n sp lp).
Proof.
  pose proof (Compositional_each isOldDownloaderEvent) as HQ.
  induction n as [|n IH]; intros sp lp; cbn [Old.doDownload];
    [apply (keeps_abort _ HQ)|].
  unfold cGet.
  apply (keeps_bind _ HQ);
    [apply keeps_remote; intros ?; apply each_single; reflexivity|].
  intros [[fData stat]|err].
  - destruct (DataLength stat =? 0).
    + unfold osMkdir, fmtPrintf, panic, cChildren.
      apply (keeps_bind _ HQ);
        [apply keeps_localWrite; intros ?; apply each_single; reflexivity|].
      intros r. apply (keeps_bind _ HQ); [kinds HQ|]. intros _.
      destruct (NumChildren stat >? 0); [|apply (keeps_ret _ HQ)].
      apply (keeps_bind _ HQ);
        [apply keeps_remote; intros ?; apply each_single; reflexivity|].
      intros [[children st]|e]; [|apply (keeps_abort _ HQ)].
      apply (keeps_forEach _ HQ). intros c. apply IH.
    + unfold WriteFile, fmtPrintf, panic. kinds HQ.
  - unfold fmtPrintf, panic. kinds HQ.
Qed.

End Kinds.

(** X1.  Download never writes to the remote namespace: in both revisions,
    whatever the collaborators answer and however the run ends, no
    [createNode], [setNode] or [deleteNode] is issued. *)
Theorem download_never_writes_remote {W F : Type} `{Conn W} `{LocalFS F}
    (fuel : nat) (serverPrefix localPrefix : string) (w : World W F) :
  each (fun e => negb (isRemoteWrite e))
       (trace (doDownload fuel serverPrefix localPrefix w))
  /\ each (fun e => negb (isRemoteWrite e))
          (trace (Old.doDownload fuel serverPrefix localPrefix w)).
Proof.
  split.
  - apply (each_impl isDownloaderEvent); [|apply doDownload_kinds].
    intros [] E; try discriminate E; reflexivity.
  - apply (each_impl isOldDownloaderEvent); [|apply Old_doDownload_kinds].
    intros [] E; try discriminate E; reflexivity.
Qed.

(** X2.  The download of the earlier revision never looks at the local
    file before writing it and never sets its times: its calls are [Get],
    [Children], [Mkdir] and [WriteFile] only, so the modification time of a
    downloaded file is whatever the file system gives it. *)
Theorem Old_download_never_stats {W F : Type} `{Conn W} `{LocalFS F}
    (fuel : nat) (serverPrefix localPrefix : string) (w : World W F) :
  each isOldDownloaderEvent
       (trace (Old.doDownload fuel serverPrefix localPrefix w)).
Proof. apply Old_doDownload_kinds. Qed.

(** X3.  The recursive deleter lists and deletes, nothing else: it issues
    no [createNode], [setNode], [getNode] or [exists], makes no local call,
    and leaves the local file system as it was. *)
Theorem doDelete_lists_and_deletes_only {W F : Type} `{Conn W} `{LocalFS F}
    (fuel : nat) (serverPrefix : string) (w : World W F) :
  each isDeleterEvent (trace (doDelete fuel serverPrefix w))
  /\ fs (final (doDelete fuel serverPrefix w)) = fs w.
Proof.
  split; [apply doDelete_kinds | apply doDelete_readsOnly].
Qed.

(** X4.  Upload creates, queries and overwrites, nothing else: on the
    remote side it issues [createNode], [exists] and [setNode] only, never a
    [deleteNode], [getNode] or [getChildren]; on the local side it resolves
    the root, stats, lists directories and reads files. *)
Theorem doUpload_never_deletes {W F : Type} `{Conn W} `{LocalFS F}
    (fuel : nat) (serverPrefix localPrefix : string) (w : World W F) :
  each isUploaderEvent (trace (doUpload fuel serverPrefix localPrefix w)).
Proof. apply doUpload_kinds. Qed.

Section Dispatch.
Context {W F : Type} `{Conn W} `{LocalFS F}.

Lemma mainBody_download (fuel : nat) (isDelete : bool)
    (serverPrefix localPrefix : string) (Q : Event -> bool) :
  (forall e, isDownloaderEvent e = true -> Q e = true) ->
  keeps (each Q)
        (mainBody (W:=W) (F:=F) fuel false isDelete serverPrefix localPrefix).
Proof.
  intros HQ. pose proof (Compositional_each Q) as HC. unfold mainBody.
  apply (keeps_bind _ HC).
  - intros w. apply (each_impl isDownloaderEvent); [exact HQ|].
    apply doDownload_kinds.
  - intros _. apply keeps_print, each_single, HQ. reflexivity.
Qed.

Lemma mainBody_upload_only (fuel : nat) (serverPrefix localPrefix : string)
    (Q : Event -> bool) :
  (forall e, isUploaderEvent e = true -> Q e = true) ->
  keeps (each Q)
        (mainBody (W:=W) (F:=F) fuel true false serverPrefix localPrefix).
Proof.
  intros HQ. pose proof (Compositional_each Q) as HC. unfold mainBody.
  apply (keeps_bind _ HC).
  - apply (keeps_bind _ HC); [apply (keeps_ret _ HC)|]. intros _ w.
    apply (each_impl isUploaderEvent); [exact HQ | apply doUpload_kinds].
  - intros _. apply keeps_print, each_single, HQ. reflexivity.
Qed.

End Dispatch.

(** X5.  The dispatch of [main]: a [deleteNode] can only be issued when both
    [-upload] and [-delete] are set, and without [-upload] the run issues no
    remote write at all, so [-delete] alone is ignored. *)
Theorem main_deletes_only_on_request {W F : Type} `{Conn W} `{LocalFS F}
    (fuel : nat) (isUpload isDelete : bool)
    (serverPrefix localPrefix : string) (w : World W F) :
  (isUpload && isDelete = false ->
   each (fun e => negb (isDeleteCall e))
        (trace (mainBody fuel isUpload isDelete serverPrefix localPrefix w)))
  /\ (isUpload = false ->
      each (fun e => negb (isRemoteWrite e))
           (trace (mainBody fuel isUpload isDelete serverPrefix localPrefix w))).
Proof.
  split.
  - intros Hflags. destruct isUpload.
    + destruct isDelete; [discriminate Hflags|].
      apply mainBody_upload_only. intros [] E; try discriminate E; reflexivity.
    + apply mainBody_download. intros [] E; try discriminate E; reflexivity.
  - intros ->. apply mainBody_download.
    intros [] E; try discriminate E; reflexivity.
Qed.

Lemma main_deletes_only_on_request_witness :
  let w := mkWorld zkSample fsSample in
  each (fun e => negb (isDeleteCall e))
       (trace (mainBody 6 true false "/cfg" "/srv" w))
  /\ each (fun e => negb (isRemoteWrite e))
          (trace (mainBody 6 false true "/cfg" "/srv" w))
  /\ nodes (zk (final (mainBody 6 false true "/cfg" "/srv" w))) = nodes zkSample.
Proof.
  cbv zeta. split; [|split].
  - apply (main_deletes_only_on_request (W:=MemZk) (F:=MemFS)). reflexivity.
  - apply (main_deletes_only_on_request (W:=MemZk) (F:=MemFS)). reflexivity.
  - vm_compute. reflexivity.
Defined.

(** ** How the deleter can fail *)

Section DeleteFailure.
Context {W F : Type} `{Conn W} `{LocalFS F}.

Lemma forEach_Aborted {A} (body : A -> M W F unit) (l : list A) (a : Abort) :
  forall w,
    outcome (forEach l body w) = Aborted a ->
    exists x w1 pre,
      In x l /\ outcome (body x w1) = Aborted a
      /\ trace (forEach l body w) = pre ++ trace (body x w1).
Proof.
  induction l as [|y l IH]; intros w Ha; [discriminate Ha|].
  cbn [forEach] in *. rewrite outcome_bind in Ha. rewrite trace_bind.
  destruct (outcome (body y w)) as [[]|a'] eqn:Ey.
  - destruct (IH _ Ha) as (x & w1 & pre & Hx & Hb & Ht).
    exists x, w1, (trace (body y w) ++ pre).
    split; [now right|]. split; [exact Hb|]. now rewrite Ht, app_assoc.
  - injection Ha as ->. exists y, w, [].
    split; [now left|]. split; [exact Ey | now rewrite app_nil_r].
Qed.

Lemma doDelete_Aborted (n : nat) :
  forall (p : string) (w : World W F) (a : Abort),
    outcome (doDelete n p w) = Aborted a ->
    a = OutOfFuel
    \/ exists q e pre,
         isErrNoNode e = false /\ a = Panicked (PZk e)
         /\ trace (doDelete n p w) = pre ++ [EvChildren q (Err e)].
Proof.
  induction n as [|n IH]; intros p w a Ha.
  - injection Ha as <-. now left.
  - rewrite doDelete_S in *. cbv zeta in *.
    destruct (fst (zkChildren p (zk w))) as [[cs st]|err].
    + destruct (outcome (forEach cs _ _)) as [[]|a'] eqn:Es; [discriminate Ha|].
      injection Ha as ->.
      destruct (forEach_Aborted _ _ _ _ Es) as (x & w1 & pre & _ & Hb & Ht).
      destruct (IH _ _ _ Hb) as [->|(q & e & pre' & He & -> & Ht')];
        [now left|].
      right. exists q, e, (EvChildren p (Ok (cs, st)) :: pre ++ pre').
      split; [exact He|]. split; [reflexivity|].
      unfold trace at 1. cbn [snd]. rewrite Ht, Ht'.
      rewrite app_assoc. reflexivity.
    + destruct (isErrNoNode err) eqn:Ee; [discriminate Ha|].
      injection Ha as <-. right. exists p, err, [].
      repeat split. exact Ee.
Qed.

End DeleteFailure.

(** X6.  The recursive deleter can fail in one way only.  When a run of
    [doDelete] does not return normally, either the recursion bound of the
    model is used up, or the last call was a [getChildren] that was answered
    with an error other than "no node", and the run panics with that very
    error.  A node that is gone, or a rejected delete, never stops it. *)
Theorem doDelete_fails_only_on_listing {W F : Type} `{Conn W} `{LocalFS F}
    (fuel : nat) (serverPrefix : string) (w : World W F) (a : Abort) :
  outcome (doDelete fuel serverPrefix w) = Aborted a ->
  a = OutOfFuel
  \/ exists q e pre,
       isErrNoNode e = false /\ a = Panicked (PZk e)
       /\ trace (doDelete fuel serverPrefix w) = pre ++ [EvChildren q (Err e)].
Proof. apply doDelete_Aborted. Qed.

Lemma doDelete_fails_only_on_listing_witness :
  let w := mkWorld (mkGuarded zkSample ["/cfg/app"]) fsSample in
  outcome (doDelete 5 "/cfg" w) = Aborted (Panicked (PZk ErrNoAuth))
  /\ exists pre,
       trace (doDelete 5 "/cfg" w) = pre ++ [EvChildren "/cfg/app" (Err ErrNoAuth)].
Proof.
  cbv zeta.
  assert (Ho : outcome (doDelete 5 "/cfg"
                          (mkWorld (mkGuarded zkSample ["/cfg/app"]) fsSample))
               = Aborted (Panicked (PZk ErrNoAuth))) by (vm_compute; reflexivity).
  split; [exact Ho|].
  destruct (doDelete_fails_only_on_listing (W:=GuardedZk) (F:=MemFS)
              5 "/cfg" _ _ Ho) as [E|(q & e & pre & _ & E & Ht)];
    [discriminate E|].
  injection E as <-. exists pre. rewrite Ht. f_equal. f_equal.
  assert (Hl : List.last (trace (doDelete 5 "/cfg"
                              (mkWorld (mkGuarded zkSample ["/cfg/app"]) fsSample)))
                    (EvPrint Stdout MAllDone)
               = EvChildren "/cfg/app" (Err ErrNoAuth))
    by (vm_compute; reflexivity).
  rewrite Ht, List.last_last in Hl. now injection Hl as ->.
Defined.

(** ** What [ensureRemotePath] creates *)

Section EnsureCreates.
Context {W F : Type} `{Conn W} `{LocalFS F}.
Import path PathFacts.

Lemma createdNodes_app (t1 t2 : list Event) :
  createdNodes (t1 ++ t2) = createdNodes t1 ++ createdNodes t2.
Proof.
  induction t1 as [|e t1 IH]; [reflexivity|].
  destruct e; cbn [app createdNodes]; rewrite IH; reflexivity.
Qed.

Lemma ancestorsOf_snoc (cs : list string) (c : string) :
  ancestorsOf (cs ++ [c]) = ancestorsOf cs ++ [render (cs ++ [c])].
Proof.
  unfold ancestorsOf. rewrite length_app. cbn [length].
  rewrite Nat.add_1_r, List.seq_S, map_app. cbn [map]. f_equal.
  - apply List.map_ext_in. intros k Hk. apply List.in_seq in Hk.
    rewrite List.firstn_app.
    replace (k - length cs)%nat with 0%nat by lia.
    now rewrite List.firstn_O, app_nil_r.
  - replace (1 + length cs)%nat with (length (cs ++ [c]))
      by (rewrite length_app; cbn [length]; lia).
    now rewrite List.firstn_all.
Qed.

Lemma length_ancestorsOf (cs : list string) :
  length (ancestorsOf cs) = length cs.
Proof. unfold ancestorsOf. now rewrite List.length_map, List.length_seq. Qed.

(** One level of [ensureRemotePath], unfolded. *)
Lemma ensureRemotePath_S (n : nat) (p : string) (w : World W F) :
  String.eqb p "/" = false ->
  ensureRemotePath (S n) p w =
  let up := ensureRemotePath n (Dir p) w in
  match outcome up with
  | Aborted a => (Aborted a, final up, trace up)
  | Done _ =>
      let c := zkCreate p [] (zk (final up)) in
      let w1 := mkWorld (snd c) (fs (final up)) in
      match fst c with
      | None => (Done tt, w1, trace up ++ [EvCreate p [] None])
      | Some err =>
          if isErrNodeExists err
          then (Done tt, w1,
                trace up ++ [EvCreate p [] (Some err);
                             EvPrint Logger (MDirAlreadyCreated p)])
          else (Aborted (Panicked (PZk err)), w1,
                trace up ++ [EvCreate p [] (Some err)])
      end
  end.
Proof.
  intros Hp. cbn [ensureRemotePath]. rewrite Hp. cbv zeta.
  rewrite (run_eta (bind _ _ w)), outcome_bind, final_bind, trace_bind.
  destruct (outcome (ensureRemotePath n (Dir p) w)) as [[]|a];
    [|now rewrite app_nil_r].
  unfold cCreate.
  rewrite (bind_eq_Done _ _ _ _ _ _
             (remote_eq _ _ (final (ensureRemotePath n (Dir p) w)) _ _
                (surjective_pairing _))).
  destruct (fst (zkCreate p [] _)) as [err|]; [|reflexivity].
  destruct (isErrNodeExists err); reflexivity.
Qed.

Lemma ensureRemotePath_created (cs : list string) :
  validNames cs ->
  forall (n : nat) (w : World W F),
    (length cs < n)%nat ->
    let r := ensureRemotePath n (render cs) w in
    exists k,
      (k <= length cs)%nat
      /\ createdNodes (trace r) = map (fun q => (q, [])) (firstn k (ancestorsOf cs))
      /\ (outcome r = Done tt -> k = length cs)
      /\ (outcome r = Done tt <-> each createAccepted (trace r)).
Proof.
  induction cs as [|c cs IH] using rev_ind; intros Hv n w Hn; cbv zeta.
  - destruct n as [|n]; [lia|]. exists 0%nat. cbn.
    repeat split; try reflexivity; constructor.
  - apply Forall_app in Hv as [Hcs Hc]. inversion Hc as [|? ? Hc1 _]; subst.
    rewrite length_app in Hn. cbn [length] in Hn.
    destruct n as [|n]; [lia|].
    rewrite (ensureRemotePath_S n _ w (render_snoc_not_root cs c Hcs Hc1)).
    cbv zeta. rewrite (Dir_render_snoc cs c Hcs Hc1).
    destruct (IH Hcs n w ltac:(lia)) as (k & Hk & Hcr & Hdone & Hacc).
    cbv zeta in Hk, Hcr, Hdone, Hacc.
    rewrite ancestorsOf_snoc, length_app. cbn [length].
    destruct (outcome (ensureRemotePath n (render cs) w)) as [[]|a] eqn:Eo.
    + specialize (Hdone eq_refl). subst k.
      pose proof (proj1 Hacc eq_refl) as Hup.
      assert (Hall : createdNodes (trace (ensureRemotePath n (render cs) w))
                     ++ [(render (cs ++ [c]), [])]
                     = map (fun q => (q, []))
                           (firstn (length cs + 1)
                              (ancestorsOf cs ++ [render (cs ++ [c])]))).
      { rewrite Hcr, List.firstn_all2 by (rewrite length_ancestorsOf; lia).
        rewrite List.firstn_all2
          by (rewrite length_app, length_ancestorsOf; cbn [length]; lia).
        now rewrite map_app. }
      exists (length cs + 1)%nat.
      destruct (fst (zkCreate _ _ _)) as [err|].
      * destruct (isErrNodeExists err) eqn:Ee; unfold outcome, trace;
          cbn [fst snd]; rewrite createdNodes_app; cbn [createdNodes];
          (split; [lia|]); (split; [exact Hall|]); (split; [intros _; lia|]).
        -- split; [intros _|reflexivity].
           apply Forall_app_2; [exact Hup|].
           constructor; [exact Ee | constructor; [reflexivity | constructor]].
        -- split; [discriminate|].
           intros Hbad. apply Forall_app in Hbad as [_ Hbad].
           inversion Hbad as [|? ? Hx _]; subst. cbn in Hx. congruence.
      * unfold outcome, trace; cbn [fst snd].
        rewrite createdNodes_app. cbn [createdNodes].
        split; [lia|]. split; [exact Hall|]. split; [intros _; lia|].
        split; [intros _|reflexivity].
        apply Forall_app_2; [exact Hup | constructor; [reflexivity|constructor]].
    + exists k. unfold outcome, trace. cbn [fst snd].
      fold (trace (ensureRemotePath n (render cs) w)).
      split; [lia|]. split; [|split; [discriminate|split; [discriminate|]]].
      * rewrite Hcr. f_equal. rewrite List.firstn_app.
        replace (k - length (ancestorsOf cs))%nat with 0%nat
          by (rewrite length_ancestorsOf; lia).
        now rewrite List.firstn_O, app_nil_r.
      * intros Hall. apply Hacc in Hall. discriminate Hall.
Qed.

End EnsureCreates.

(** X7.  [ensureRemotePath] on a canonical absolute path with elements [cs]
    asks for the nodes of the path from the top down: the creates it issues
    are, in this order, those of the paths of the first one, two, ...
    elements, each with an empty payload, and it stops at the first one that
    is refused.  It returns normally exactly when every create went through
    or met an existing node, and then the whole chain down to the path
    itself has been asked for. *)
Theorem ensureRemotePath_creates_top_down {W F : Type} `{Conn W} `{LocalFS F}
    (p : string) :
  path.canonical p ->
  exists cs,
    p = path.render cs /\ path.validNames cs
    /\ forall (fuel : nat) (w : World W F),
         (length cs < fuel)%nat ->
         let r := ensureRemotePath fuel p w in
         (exists k,
            (k <= length cs)%nat
            /\ createdNodes (trace r)
               = map (fun q => (q, [])) (firstn k (ancestorsOf cs)))
         /\ (outcome r = Done tt <-> each createAccepted (trace r))
         /\ (outcome r = Done tt ->
             createdNodes (trace r) = map (fun q => (q, [])) (ancestorsOf cs)).
Proof.
  intros Hp. destruct (PathFacts.canonical_inv p Hp) as (cs & Hcs & ->).
  exists cs. split; [reflexivity|]. split; [exact Hcs|].
  intros fuel w Hfuel. cbv zeta.
  destruct (ensureRemotePath_created cs Hcs fuel w Hfuel)
    as (k & Hk & Hcr & Hdone & Hacc).
  cbv zeta in Hk, Hcr, Hdone, Hacc.
  split; [now exists k|]. split; [exact Hacc|].
  intros Ho. rewrite Hcr, (Hdone Ho).
  now rewrite List.firstn_all2 by (rewrite length_ancestorsOf; lia).
Qed.

Lemma ensureRemotePath_creates_top_down_witness :
  let w := mkWorld zkSample fsSample in
  createdNodes (trace (ensureRemotePath 4 "/cfg/new/leaf" w))
  = [("/cfg", []); ("/cfg/new", []); ("/cfg/new/leaf", [])]
  /\ outcome (ensureRemotePath 4 "/cfg/new/leaf" w) = Done tt.
Proof.
  cbv zeta.
  assert (Hc : path.canonical "/cfg/new/leaf") by (split; reflexivity).
  destruct (ensureRemotePath_creates_top_down (W:=MemZk) (F:=MemFS)
              "/cfg/new/leaf" Hc) as (cs & Hcs & Hv & Hall).
  assert (Ho : outcome (ensureRemotePath 4 "/cfg/new/leaf"
                          (mkWorld zkSample fsSample)) = Done tt)
    by (vm_compute; reflexivity).
  split; [|exact Ho].
  assert (Ecs : cs = ["cfg"; "new"; "leaf"]).
  { apply PathFacts.render_inj;
      [exact Hv | repeat constructor | now rewrite <- Hcs]. }
  subst cs.
  destruct (Hall 4%nat (mkWorld zkSample fsSample) ltac:(cbn; lia))
    as (_ & _ & Hdone).
  exact (Hdone Ho).
Defined.

(** ** What upload sends *)

(** Find the place of an event in a trace that is written out. *)
Ltac locate pre E :=
  first
    [ solve [destruct pre; discriminate E]
    | destruct pre as [|? pre]; cbn [app] in E;
      [ try discriminate E
      | injection E as <- E; locate pre E ] ].

(** Take a run apart, answer by answer. *)
Ltac crunch :=
  repeat first
    [ progress cbn [zk fs fst snd app trace outcome final negb andb
                    isErrNodeExists isErrNoNode IsExist IsNotExist]
    | match goal with
      | |- context [match ?x with _ => _ end] =>
          lazymatch x with
          | context [match _ with _ => _ end] => fail
          | _ => destruct x eqn:?
          end
      end ].

Section UploadSends.
Context {W F : Type} `{Conn W} `{LocalFS F}.
Context (serverPrefix absLocal : string).

Lemma Compositional_setGuarded :
  Compositional (setGuarded serverPrefix absLocal).
Proof.
  split.
  - intros [|? ?] q d v r post E; discriminate E.
  - intros t1 t2 H1 H2 pre q d v r post E.
    destruct (app_eq_middle _ _ _ _ _ E) as [(post1 & E1 & _)|(pre2 & -> & E2)].
    + exact (H1 _ _ _ _ _ _ E1).
    + destruct (H2 _ _ _ _ _ _ E2) as (pre1 & l & ex & st & -> & Hq & Hv & Hn).
      exists (t1 ++ pre1), l, ex, st. now rewrite <- app_assoc.
Qed.

Lemma Compositional_createFromFile :
  Compositional (createFromFile serverPrefix absLocal).
Proof.
  split.
  - intros [|? ?] q d r post E; discriminate E.
  - intros t1 t2 H1 H2 pre q d r post E.
    destruct (app_eq_middle _ _ _ _ _ E) as [(post1 & E1 & _)|(pre2 & -> & E2)].
    + exact (H1 _ _ _ _ _ E1).
    + destruct (H2 _ _ _ _ _ E2) as [Hd|(pre1 & l & -> & Hq)]; [now left|].
      right. exists (t1 ++ pre1), l. now rewrite <- app_assoc.
Qed.

Lemma setGuarded_each (Q : Event -> bool) (t : list Event) :
  (forall e, Q e = true -> isSetCall e = false) -> each Q t ->
  setGuarded serverPrefix absLocal t.
Proof.
  intros HQ Ht pre q d v r post ->.
  apply Forall_app in Ht as [_ Ht]. inversion Ht as [|? ? Hx _]; subst.
  apply HQ in Hx. discriminate Hx.
Qed.

Lemma createFromFile_each (t : list Event) :
  each isEnsureEvent t -> createFromFile serverPrefix absLocal t.
Proof.
  intros Ht pre q d r post ->.
  apply Forall_app in Ht as [_ Ht]. inversion Ht as [|? ? Hx _]; subst.
  left. now destruct d.
Qed.

Lemma visitFunc_setGuarded (visitedPath : string) (fInfo : option FileInfo)
    (err : option FsError) :
  keeps (setGuarded serverPrefix absLocal)
        (visitFunc (W:=W) (F:=F) serverPrefix absLocal visitedPath fInfo err).
Proof.
  intros w. unfold visitFunc.
  remember (remotePathOf serverPrefix absLocal visitedPath) as rp eqn:Erp.
  unfold bind, ReadFile, localRead, cCreate, cExists, cSet, remote, ret,
    panic, abort, logPrintf, print.
  crunch; intros xpre xq xd xv xr xpost XE; locate xpre XE.
  all: injection XE as Xq Xd Xv Xr Xpost; subst xq xd xv xr xpost.
  all: match goal with
       | Hz : isErrNodeExists ?z = true |- _ =>
           destruct z; try discriminate Hz
       end.
  all: eexists [], _, _, _; split; [reflexivity|].
  all: repeat split; try assumption.
  all: match goal with
       | Hn : (NumChildren _ >? 0) = false |- _ =>
           rewrite Z.gtb_ltb in Hn; apply Z.ltb_ge in Hn; exact Hn
       end.
Qed.

Lemma visitFunc_createFromFile (visitedPath : string)
    (fInfo : option FileInfo) (err : option FsError) :
  keeps (createFromFile serverPrefix absLocal)
        (visitFunc (W:=W) (F:=F) serverPrefix absLocal visitedPath fInfo err).
Proof.
  intros w. unfold visitFunc.
  remember (remotePathOf serverPrefix absLocal visitedPath) as rp eqn:Erp.
  unfold bind, ReadFile, localRead, cCreate, cExists, cSet, remote, ret,
    panic, abort, logPrintf, print.
  crunch; intros xpre xq xd xr xpost XE; locate xpre XE.
  all: injection XE as Xq Xd Xr Xpost; subst xq xd xr xpost.
  all: first [ left; reflexivity
             | right; eexists [], _; split; [reflexivity | assumption] ].
Qed.

End UploadSends.

Section UploadRuns.
Context {W F : Type} `{Conn W} `{LocalFS F}.

(** [doUpload] once the local root is resolved. *)
Lemma doUpload_resolved (fuel : nat) (serverPrefix localPrefix absLocal : string)
    (w : World W F) (P : list Event -> Prop) :
  Compositional P ->
  fsAbs localPrefix (fs w) = Ok absLocal ->
  (forall p r, P [EvAbs p r]) ->
  (forall p r, P [EvLstat p r]) ->
  (forall p r, P [EvReadDirNames p r]) ->
  (forall n p, keeps P (ensureRemotePath (W:=W) (F:=F) n p)) ->
  (forall p i e, keeps P (visitFunc (W:=W) (F:=F) serverPrefix absLocal p i e)) ->
  P (trace (doUpload fuel serverPrefix localPrefix w)).
Proof.
  intros HP Habs Pabs Pls Prd Pens Pvis. unfold doUpload.
  rewrite trace_bind. apply (comp_app P HP); [apply Pabs|].
  unfold filepathAbs, localRead, outcome, final. cbn [fst snd]. rewrite Habs.
  apply (keeps_bind P HP); [apply Pens|]. intros _.
  apply (keeps_bind P HP); [now apply (keeps_Walk P HP)|].
  intros [e|]; [apply (keeps_abort P HP) | apply (keeps_ret P HP)].
Qed.

End UploadRuns.

(** X8.  Upload overwrites a node only behind its guard.  In every run of
    [doUpload], each [setNode] comes right after the read of a local file,
    the create of the node mapped to that file, answered "exists", and an
    [exists] query that reported no child; it sends the content just read
    and is conditioned on the version that the query returned.  So a
    directory entry never overwrites anything, and a node reported with
    children is never overwritten. *)
Theorem doUpload_overwrites_behind_guard {W F : Type} `{Conn W} `{LocalFS F}
    (fuel : nat) (serverPrefix localPrefix absLocal : string) (w : World W F) :
  fsAbs localPrefix (fs w) = Ok absLocal ->
  setGuarded serverPrefix absLocal
             (trace (doUpload fuel serverPrefix localPrefix w)).
Proof.
  intros Habs.
  pose proof (Compositional_setGuarded serverPrefix absLocal) as HP.
  apply (doUpload_resolved fuel serverPrefix localPrefix absLocal w _ HP Habs).
  - intros. now apply (setGuarded_each _ _ (fun e => negb (isSetCall e)));
      [intros e E; now apply negb_true_iff in E | apply each_single].
  - intros. now apply (setGuarded_each _ _ (fun e => negb (isSetCall e)));
      [intros e E; now apply negb_true_iff in E | apply each_single].
  - intros. now apply (setGuarded_each _ _ (fun e => negb (isSetCall e)));
      [intros e E; now apply negb_true_iff in E | apply each_single].
  - intros n p w1. apply (setGuarded_each _ _ isEnsureEvent);
      [|apply ensureRemotePath_kinds].
    intros [] E; try discriminate E; reflexivity.
  - intros. apply visitFunc_setGuarded.
Qed.

Lemma doUpload_overwrites_behind_guard_witness :
  setGuarded "/cfg" "/srv"
             (trace (doUpload 6 "/cfg" "/srv" (mkWorld zkSample fsSample)))
  /\ In (EvSet "/cfg/motd" (b "hi") 0 None)
        (trace (doUpload 6 "/cfg" "/srv" (mkWorld zkSample fsSample))).
Proof.
  split.
  - apply (doUpload_overwrites_behind_guard (W:=MemZk) (F:=MemFS)).
    reflexivity.
  - vm_compute. tauto.
Defined.

(** X9.  Upload sends what it read.  In every run of [doUpload], each
    [createNode] either has an empty payload (an ancestor of the remote
    root, a directory, or an empty file) or comes right after the read of
    the local file mapped to its node and carries exactly the content
    read. *)
Theorem doUpload_creates_from_file {W F : Type} `{Conn W} `{LocalFS F}
    (fuel : nat) (serverPrefix localPrefix absLocal : string) (w : World W F) :
  fsAbs localPrefix (fs w) = Ok absLocal ->
  createFromFile serverPrefix absLocal
                 (trace (doUpload fuel serverPrefix localPrefix w)).
Proof.
  intros Habs.
  pose proof (Compositional_createFromFile serverPrefix absLocal) as HP.
  assert (Hother : forall e, (forall q d r, e <> EvCreate q d r) ->
                             createFromFile serverPrefix absLocal [e]).
  { intros e He [|x [|? ?]] q d r post E; try discriminate E.
    injection E as -> _. now elim (He q d r). }
  apply (doUpload_resolved fuel serverPrefix localPrefix absLocal w _ HP Habs).
  - intros. apply Hother. discriminate.
  - intros. apply Hother. discriminate.
  - intros. apply Hother. discriminate.
  - intros n p w1. apply createFromFile_each, ensureRemotePath_kinds.
  - intros. apply visitFunc_createFromFile.
Qed.

Lemma doUpload_creates_from_file_witness :
  createFromFile "/up" "/srv"
                 (trace (doUpload 6 "/up" "/srv" (mkWorld zkSample fsSample)))
  /\ In (EvCreate "/up/motd" (b "hi") None)
        (trace (doUpload 6 "/up" "/srv" (mkWorld zkSample fsSample))).
Proof.
  split.
  - apply (doUpload_creates_from_file (W:=MemZk) (F:=MemFS)). reflexivity.
  - vm_compute. tauto.
Defined.

(** ** What download writes *)

Section DownloadPieces.
Context {W F : Type} `{Conn W} `{LocalFS F}.

Lemma trace_localWrite {A} (call : F -> A * F) (ev : A -> Event) (w : World W F) :
  trace (localWrite (W:=W) call ev w) = [ev (fst (call (fs w)))].
Proof. unfold localWrite, trace. now destruct (call (fs w)). Qed.

Lemma outcome_localWrite {A} (call : F -> A * F) (ev : A -> Event)
    (w : World W F) :
  outcome (localWrite (W:=W) call ev w) = Done (fst (call (fs w))).
Proof. unfold localWrite, outcome. now destruct (call (fs w)). Qed.

(** A property of the pieces of a download is a property of the download. *)
Lemma doDownload_pieces (P : list Event -> Prop) :
  Compositional P ->
  (forall sp e, P [EvGet sp (Err e)]) ->
  (forall sp d st lp r,
     DataLength st = 0 -> P [EvGet sp (Ok (d, st)); EvMkdir lp nodeMode r]) ->
  (forall s m, P [EvPrint s m]) ->
  (forall p r, P [EvChildren p r]) ->
  (forall sp d st lp (w : World W F),
     DataLength st <> 0 ->
     P (EvGet sp (Ok (d, st)) :: trace (downloadFile lp d st w))) ->
  forall n sp lp, keeps P (doDownload (W:=W) (F:=F) n sp lp).
Proof.
  intros HP Perr Pdir Pprint Plist Pfile.
  induction n as [|n IH]; intros sp lp w; [apply (comp_nil P HP)|].
  cbn [doDownload]. unfold cGet.
  rewrite trace_bind, trace_remote, outcome_remote, final_remote.
  destruct (fst (zkGet sp (zk w))) as [[fData stat]|err].
  - destruct (DataLength stat =? 0) eqn:El.
    + apply Z.eqb_eq in El. unfold osMkdir.
      rewrite trace_bind, trace_localWrite, outcome_localWrite, app_assoc.
      apply (comp_app P HP); [now apply Pdir|].
      apply (keeps_bind P HP).
      * destruct (fst _) as [e|]; [destruct (IsExist e)|];
          first [ now apply keeps_print | apply (keeps_abort P HP) ].
      * intros _. destruct (NumChildren stat >? 0); [|apply (keeps_ret P HP)].
        apply (keeps_bind P HP); [now apply keeps_remote|].
        intros [[children st]|e]; [|apply (keeps_abort P HP)].
        apply (keeps_forEach P HP). intros c. apply IH.
    + apply Z.eqb_neq in El. now apply Pfile.
  - apply (comp_app P HP); [apply Perr|].
    destruct (isErrNoNode err); [apply Pprint | apply (comp_nil P HP)].
Qed.

Lemma Compositional_fetchedFirst : Compositional fetchedFirst.
Proof.
  split.
  - split; intros [|? ?]; intros; discriminate.
  - intros t1 t2 [H1 H1'] [H2 H2']. split.
    + intros pre l d m r post E.
      destruct (app_eq_middle _ _ _ _ _ E) as [(post1 & E1 & _)|(pre2 & -> & E2)].
      * exact (H1 _ _ _ _ _ _ E1).
      * destruct (H2 _ _ _ _ _ _ E2) as (pre1 & q & st & mid & -> & Hd & Hm).
        exists (t1 ++ pre1), q, st, mid. now rewrite <- app_assoc.
    + intros pre l m r post E.
      destruct (app_eq_middle _ _ _ _ _ E) as [(post1 & E1 & _)|(pre2 & -> & E2)].
      * exact (H1' _ _ _ _ _ E1).
      * destruct (H2' _ _ _ _ _ E2) as (pre1 & q & d & st & -> & Hd).
        exists (t1 ++ pre1), q, d, st. now rewrite <- app_assoc.
Qed.

Lemma Compositional_stamped : Compositional stamped.
Proof.
  split.
  - intros [|? ?]; intros; discriminate.
  - intros t1 t2 H1 H2 pre l d m post E.
    destruct (app_eq_middle _ _ _ _ _ E) as [(post1 & E1 & ->)|(pre2 & -> & E2)].
    + destruct (H1 _ _ _ _ _ E1) as (tm & r & post2 & -> & Hn).
      now exists tm, r, (post2 ++ t2).
    + exact (H2 _ _ _ _ _ E2).
Qed.

Lemma downloadFile_fetchedFirst (sp lp : string) (d : bytes) (st : Stat)
    (w : World W F) :
  DataLength st <> 0 ->
  fetchedFirst (EvGet sp (Ok (d, st)) :: trace (downloadFile lp d st w)).
Proof.
  intros Hd. unfold downloadFile, createFile. cbv zeta.
  unfold bind, osStat, localRead, WriteFile, osChtimes, localWrite, ret,
    panic, abort, logPrintf, fmtPrintf, print.
  crunch; (split; [intros xpre xl xd xm xr xpost XE
                  | intros xpre xl xm xr xpost XE]); locate xpre XE.
  all: injection XE as Xl Xd Xm Xr Xpost; subst xl xd xm xr xpost.
  all: eexists [], _, _, _; split; [reflexivity|].
  all: split; [assumption | repeat constructor].
Qed.

Lemma downloadFile_stamped (sp lp : string) (d : bytes) (st : Stat)
    (w : World W F) :
  stamped (EvGet sp (Ok (d, st)) :: trace (downloadFile lp d st w)).
Proof.
  unfold downloadFile, createFile. cbv zeta.
  unfold bind, osStat, localRead, WriteFile, osChtimes, localWrite, ret,
    panic, abort, logPrintf, fmtPrintf, print.
  crunch; intros xpre xl xd xm xpost XE; locate xpre XE.
  all: injection XE as Xl Xd Xm Xpost; subst xl xd xm xpost.
  all: eexists _, _, _; split; reflexivity.
Qed.

End DownloadPieces.

(** X10.  Download writes what it fetched.  In every run of [doDownload],
    each write of a local file carries the payload that the latest [Get]
    returned, and the stat of that [Get] reported data; each [Mkdir] comes
    right after a [Get] whose stat reported no data.  So a node without
    data, an empty file included, is never written as a file: it becomes a
    directory. *)
Theorem doDownload_writes_what_it_fetched {W F : Type} `{Conn W} `{LocalFS F}
    (fuel : nat) (serverPrefix localPrefix : string) (w : World W F) :
  fetchedFirst (trace (doDownload fuel serverPrefix localPrefix w)).
Proof.
  apply (doDownload_pieces fetchedFirst Compositional_fetchedFirst).
  - intros sp e. split; intros xpre; intros; locate xpre H1.
  - intros sp d st lp r Hd. split.
    + intros xpre xl xd xm xr xpost XE. locate xpre XE.
    + intros xpre xl xm xr xpost XE. locate xpre XE.
      injection XE as Xl Xm Xr Xpost. subst.
      now exists [], sp, d, st.
  - intros s m. split; intros xpre; intros; locate xpre H1.
  - intros p r. split; intros xpre; intros; locate xpre H1.
  - intros. now apply downloadFile_fetchedFirst.
Qed.

(** X11.  Download stamps what it writes.  In every run of [doDownload],
    a write of a local file that succeeded is followed at once by a
    [Chtimes] of the same file that sets access and modification time to
    the same whole number of seconds. *)
Theorem doDownload_stamps_written_files {W F : Type} `{Conn W} `{LocalFS F}
    (fuel : nat) (serverPrefix localPrefix : string) (w : World W F) :
  stamped (trace (doDownload fuel serverPrefix localPrefix w)).
Proof.
  apply (doDownload_pieces stamped Compositional_stamped).
  - intros sp e xpre; intros; locate xpre H1.
  - intros sp d st lp r Hd xpre; intros; locate xpre H1.
  - intros s m xpre; intros; locate xpre H1.
  - intros p r xpre; intros; locate xpre H1.
  - intros. apply downloadFile_stamped.
Qed.

(** ** The two revisions of [doUpload] *)

Section UploadRevisions.
Context {W F : Type} `{Conn W} `{LocalFS F}.

Lemma agree_same {A} (m1 m2 : M W F A) :
  (forall w, sameUpToStream (m1 w) (m2 w)) -> agreeOnCleanWalks m1 m2.
Proof. intros Hs w _. apply Hs. Qed.

Lemma agree_bind {A B} (m1 m2 : M W F A) (k1 k2 : A -> M W F B) :
  agreeOnCleanWalks m1 m2 ->
  (forall a, agreeOnCleanWalks (k1 a) (k2 a)) ->
  agreeOnCleanWalks (bind m1 k1) (bind m2 k2).
Proof.
  intros Hm Hk w Ht. rewrite trace_bind in Ht.
  apply Forall_app in Ht as [Ht1 Ht2].
  destruct (Hm w Ht1) as (Ho & Hf & Htr). unfold sameUpToStream.
  rewrite !outcome_bind, !final_bind, !trace_bind, Ho, Hf, Htr, map_app.
  destruct (outcome (m2 w)) as [a|a]; [|repeat split].
  destruct (Hk a (final (m2 w)) Ht2) as (Ho' & Hf' & Ht').
  now rewrite Ho', Hf', Ht'.
Qed.

(** After a local read, only the answers without error matter. *)
Lemma agree_localRead {A B} (call : F -> A) (ev : A -> Event)
    (k1 k2 : A -> M W F B) :
  (forall a, toStdout (ev a) = ev a) ->
  (forall a, noWalkError (ev a) = true -> agreeOnCleanWalks (k1 a) (k2 a)) ->
  agreeOnCleanWalks (bind (localRead call ev) k1) (bind (localRead call ev) k2).
Proof.
  intros Hev Hk w Ht. unfold bind, localRead in *.
  set (a := call (fs w)) in *.
  destruct (k2 a w) as [[o2 w2] t2] eqn:E2. unfold trace in Ht. cbn [snd] in Ht.
  inversion Ht as [|? ? Ha Ht2]; subst.
  specialize (Hk a Ha w). rewrite E2 in Hk. specialize (Hk Ht2).
  destruct (k1 a w) as [[o1 w1] t1]. destruct Hk as (Ho & Hf & Htr).
  unfold outcome, final, trace in *. cbn [fst snd] in *. subst.
  repeat split. unfold trace. cbn [snd app map]. now rewrite Hev.
Qed.

Lemma same_localRead {A} (call : F -> A) (ev : A -> Event) (w : World W F) :
  (forall a, toStdout (ev a) = ev a) ->
  sameUpToStream (localRead (W:=W) call ev w) (localRead call ev w).
Proof.
  intros Hev. apply same_refl_quiet. constructor; [apply Hev | constructor].
Qed.

Lemma same_ret {A} (a : A) (w : World W F) :
  sameUpToStream (ret a w) (ret a w).
Proof. repeat split. Qed.

Lemma same_abort {A} (a : Abort) (w : World W F) :
  sameUpToStream (abort (A:=A) a w) (abort a w).
Proof. repeat split. Qed.

Lemma ensureRemotePath_same (n : nat) :
  forall (p : string) (w : World W F),
    sameUpToStream (Old.ensureRemotePath n p w) (ensureRemotePath n p w).
Proof.
  induction n as [|n IH]; intros p w; [repeat split|].
  cbn [Old.ensureRemotePath ensureRemotePath].
  destruct (String.eqb p "/"); [repeat split|].
  apply same_bind; [apply IH|]. intros _ w1.
  apply same_bind; [now apply same_remote|].
  intros [err|] w2; [|repeat split].
  destruct (isErrNodeExists err); [apply same_print | repeat split].
Qed.

(** A visit that is handed no error is the same in both revisions. *)
Lemma visitFunc_same (serverPrefix absLocal visitedPath : string)
    (fInfo : option FileInfo) (w : World W F) :
  sameUpToStream
    (Old.visitFunc serverPrefix absLocal visitedPath fInfo None w)
    (visitFunc serverPrefix absLocal visitedPath fInfo None w).
Proof.
  unfold Old.visitFunc, visitFunc. destruct fInfo as [fInfo|]; [|repeat split].
  destruct (negb (fiIsRegular fInfo) && negb (fiIsDir fInfo)).
  - apply same_bind; [apply same_print | intros _ w1; repeat split].
  - cbv zeta. apply same_bind.
    + destruct (fiIsDir fInfo); [repeat split|].
      apply same_bind; [now apply same_localRead|].
      intros [data|e] w1; repeat split.
    + intros fData w1. apply same_bind; [now apply same_remote|].
      intros r w2. apply same_bind; [|intros ? w3; repeat split].
      destruct r as [e|]; [|apply same_print].
      destruct (isErrNodeExists e); [|repeat split].
      destruct (fiIsDir fInfo); [apply same_print|].
      apply same_bind; [now apply same_remote|].
      intros [[ex fStat]|e'] w3; [|repeat split].
      destruct (NumChildren fStat >? 0); [repeat split|].
      apply same_bind; [now apply same_remote|].
      intros [e'|] w4; [repeat split | apply same_print].
Qed.

Lemma walk_agree (serverPrefix absLocal : string) (n : nat) :
  forall p info,
    agreeOnCleanWalks
      (walk n (Old.visitFunc (W:=W) (F:=F) serverPrefix absLocal) p info)
      (walk n (visitFunc serverPrefix absLocal) p info).
Proof.
  induction n as [|n IH]; intros p info; cbn [walk].
  - apply agree_same. intros w. repeat split.
  - apply agree_bind; [apply agree_same; intros w; apply visitFunc_same|].
    intros [e|]; [apply agree_same; intros w; repeat split|].
    destruct (negb (fiIsDir info)); [apply agree_same; intros w; repeat split|].
    unfold readDirNames. apply agree_localRead; [reflexivity|].
    intros [names|e] Hok; [clear Hok|discriminate Hok].
    induction names as [|name rest IHn];
      [apply agree_same; intros w; repeat split|].
    unfold osLstat. apply agree_localRead; [reflexivity|].
    intros [fileInfo|e] Hok'; [|discriminate Hok'].
    apply agree_bind; [apply IH|].
    intros [e|]; [apply agree_same; intros w; repeat split | exact IHn].
Qed.

Lemma doUpload_agree (fuel : nat) (serverPrefix localPrefix : string) :
  agreeOnCleanWalks
    (Old.doUpload (W:=W) (F:=F) fuel serverPrefix localPrefix)
    (doUpload fuel serverPrefix localPrefix).
Proof.
  unfold Old.doUpload, doUpload, filepathAbs.
  apply agree_localRead; [reflexivity|].
  intros [absLocal|e] _; [|apply agree_same; intros w; repeat split].
  apply agree_bind;
    [apply agree_same; intros w; apply ensureRemotePath_same|].
  intros _. apply agree_bind.
  - unfold Walk, osLstat. apply agree_localRead; [reflexivity|].
    intros [info|e] Hok; [apply walk_agree | discriminate Hok].
  - intros [e|]; apply agree_same; intros w; repeat split.
Qed.

End UploadRevisions.

(** X12.  The two revisions of [doUpload] agree as long as the walk meets
    no error: on every run of [src/configurator.go] in which no [Lstat] and
    no directory listing of the walk fails, [src/unnamed/part_000] ends the
    same way in the same state after the same calls with the same answers,
    and the traces differ only in the stream of the output lines. *)
Theorem doUpload_revisions_agree_on_clean_walks
    {W F : Type} `{Conn W} `{LocalFS F}
    (fuel : nat) (serverPrefix localPrefix : string) (w : World W F) :
  each noWalkError (trace (doUpload fuel serverPrefix localPrefix w)) ->
  outcome (Old.doUpload fuel serverPrefix localPrefix w)
    = outcome (doUpload fuel serverPrefix localPrefix w)
  /\ final (Old.doUpload fuel serverPrefix localPrefix w)
     = final (doUpload fuel serverPrefix localPrefix w)
  /\ trace (Old.doUpload fuel serverPrefix localPrefix w)
     = map toStdout (trace (doUpload fuel serverPrefix localPrefix w)).
Proof. apply doUpload_agree. Qed.

Lemma doUpload_revisions_agree_on_clean_walks_witness :
  let w := mkWorld zkSample fsSample in
  outcome (Old.doUpload 6 "/cfg" "/srv" w) = Done tt
  /\ nodes (zk (final (Old.doUpload 6 "/cfg" "/srv" w)))
     = nodes (zk (final (doUpload 6 "/cfg" "/srv" w))).
Proof.
  cbv zeta.
  destruct (doUpload_revisions_agree_on_clean_walks (W:=MemZk) (F:=MemFS)
              6 "/cfg" "/srv" (mkWorld zkSample fsSample))
    as (Ho & Hf & _).
  - vm_compute. repeat constructor.
  - split; [rewrite Ho; vm_compute; reflexivity | now rewrite Hf].
Defined.

(** ** Upload from a local root that cannot be read *)

Section UploadMissingRoot.
Context {W F : Type} `{Conn W} `{LocalFS F}.

Lemma Walk_root_error_new (fuel : nat) (serverPrefix absLocal : string)
    (w : World W F) (e : FsError) :
  fsLstat absLocal (fs w) = Err e ->
  Walk fuel absLocal (visitFunc serverPrefix absLocal) w
  = (Done (Some e), w, [EvLstat absLocal (Err e)]).
Proof.
  intros Hl. unfold Walk, osLstat, bind, localRead. now rewrite Hl.
Qed.

Lemma Walk_root_error_old (fuel : nat) (serverPrefix absLocal : string)
    (w : World W F) (e : FsError) :
  fsLstat absLocal (fs w) = Err e ->
  Walk fuel absLocal (Old.visitFunc serverPrefix absLocal) w
  = (Aborted (Panicked PNilDeref), w, [EvLstat absLocal (Err e)]).
Proof.
  intros Hl. unfold Walk, osLstat, bind, localRead. now rewrite Hl.
Qed.

Lemma doUpload_after_ensure (fuel : nat) (serverPrefix localPrefix absLocal : string)
    (w : World W F) :
  fsAbs localPrefix (fs w) = Ok absLocal ->
  outcome (ensureRemotePath fuel serverPrefix w) = Done tt ->
  doUpload fuel serverPrefix localPrefix w
  = let ens := ensureRemotePath fuel serverPrefix w in
    let r := bind (Walk fuel absLocal (visitFunc serverPrefix absLocal))
                  (fun e => match e with
                            | Some e => panic (PFs e)
                            | None => ret tt
                            end) (final ens) in
    (outcome r, final r, EvAbs localPrefix (Ok absLocal) :: trace ens ++ trace r).
Proof.
  intros Habs Hens. unfold doUpload, filepathAbs.
  rewrite (bind_eq_Done _ _ w w (Ok absLocal) [EvAbs localPrefix (Ok absLocal)])
    by (unfold localRead; now rewrite Habs).
  cbv zeta.
  rewrite (bind_eq_Done _ _ w _ tt _
             (eq_trans (run_eta _)
                (f_equal (fun o => (o, _, _)) Hens))).
  reflexivity.
Qed.

Lemma Old_doUpload_after_ensure (fuel : nat)
    (serverPrefix localPrefix absLocal : string) (w : World W F) :
  fsAbs localPrefix (fs w) = Ok absLocal ->
  outcome (Old.ensureRemotePath fuel serverPrefix w) = Done tt ->
  Old.doUpload fuel serverPrefix localPrefix w
  = let ens := Old.ensureRemotePath fuel serverPrefix w in
    let r := bind (Walk fuel absLocal (Old.visitFunc serverPrefix absLocal))
                  (fun e => match e with
                            | Some e => panic (PFs e)
                            | None => ret tt
                            end) (final ens) in
    (outcome r, final r, EvAbs localPrefix (Ok absLocal) :: trace ens ++ trace r).
Proof.
  intros Habs Hens. unfold Old.doUpload, filepathAbs.
  rewrite (bind_eq_Done _ _ w w (Ok absLocal) [EvAbs localPrefix (Ok absLocal)])
    by (unfold localRead; now rewrite Habs).
  cbv zeta.
  rewrite (bind_eq_Done _ _ w _ tt _
             (eq_trans (run_eta _)
                (f_equal (fun o => (o, _, _)) Hens))).
  reflexivity.
Qed.

End UploadMissingRoot.

(** X13.  Upload from a local root that cannot be stat'ed.  The remote root
    and its ancestors are asked for first; only then does the walk find
    that the local root is not there.  [src/configurator.go] then panics
    with the error of [Lstat], while [src/unnamed/part_000], which uses the
    missing file information, stops on a nil dereference.  In both, no
    remote call follows the failed [Lstat]. *)
Theorem doUpload_unreadable_root {W F : Type} `{Conn W} `{LocalFS F}
    (fuel : nat) (serverPrefix localPrefix absLocal : string)
    (w : World W F) (e : FsError) :
  fsAbs localPrefix (fs w) = Ok absLocal ->
  fsLstat absLocal (fs w) = Err e ->
  outcome (ensureRemotePath fuel serverPrefix w) = Done tt ->
  let ens := ensureRemotePath fuel serverPrefix w in
  doUpload fuel serverPrefix localPrefix w
  = (Aborted (Panicked (PFs e)), final ens,
     EvAbs localPrefix (Ok absLocal) :: trace ens ++ [EvLstat absLocal (Err e)])
  /\ Old.doUpload fuel serverPrefix localPrefix w
     = (Aborted (Panicked PNilDeref), final ens,
        EvAbs localPrefix (Ok absLocal)
          :: map toStdout (trace ens) ++ [EvLstat absLocal (Err e)]).
Proof.
  intros Habs Hl Hens. cbv zeta.
  assert (Hfs : fs (final (ensureRemotePath fuel serverPrefix w)) = fs w)
    by apply readsOnly_ensureRemotePath.
  destruct (ensureRemotePath_same fuel serverPrefix w) as (Ho & Hf & Ht).
  split.
  - rewrite (doUpload_after_ensure _ _ _ _ _ Habs Hens). cbv zeta.
    rewrite (bind_eq_Done _ _ _ _ _ _
               (Walk_root_error_new fuel serverPrefix absLocal _ e
                  ltac:(now rewrite Hfs))).
    reflexivity.
  - rewrite (Old_doUpload_after_ensure _ _ _ _ _ Habs
               ltac:(now rewrite Ho)).
    cbv zeta. rewrite Hf, Ht.
    rewrite (bind_eq_Aborted _ _ _ _ _ _
               (Walk_root_error_old fuel serverPrefix absLocal _ e
                  ltac:(now rewrite Hfs))).
    reflexivity.
Qed.

Lemma doUpload_unreadable_root_witness :
  let w := mkWorld zkSample fsSample in
  outcome (doUpload 6 "/new/root" "/gone" w) = Aborted (Panicked (PFs ENOENT))
  /\ outcome (Old.doUpload 6 "/new/root" "/gone" w)
     = Aborted (Panicked PNilDeref)
  /\ createdNodes (trace (doUpload 6 "/new/root" "/gone" w))
     = [("/new", []); ("/new/root", [])].
Proof.
  cbv zeta.
  destruct (doUpload_unreadable_root (W:=MemZk) (F:=MemFS) 6
              "/new/root" "/gone" "/gone" (mkWorld zkSample fsSample) ENOENT)
    as [Hnew Hold]; [reflexivity | reflexivity | vm_compute; reflexivity |].
  rewrite Hnew, Hold. split; [reflexivity|]. split; [reflexivity|].
  vm_compute. reflexivity.
Defined.

(** ** The paths that a run touches *)

Section Confinement.
Context {W F : Type} `{Conn W} `{LocalFS F}.
Import path PathFacts.

Lemma under_root (root : string) : under root root.
Proof.
  exists []. split; [constructor|]. split; [reflexivity|].
  intros _. exists "". now rewrite append_nil_r.
Qed.

Lemma under_step (root c q : string) :
  validName c = true -> under (Join root c) q -> under root q.
Proof.
  intros Hc (cs & Hcs & Hq & Hpre). exists (c :: cs).
  split; [now constructor|]. split; [exact Hq|].
  intros Hroot. destruct (canonical_inv root Hroot) as (rs & Hrs & ->).
  assert (Hj : Join (render rs) c = render (rs ++ [c]))
    by now apply Join_render_name.
  destruct Hpre as (s1 & Hs1).
  { rewrite Hj. apply canonical_render, validNames_app;
      [assumption | now repeat constructor]. }
  destruct (isPrefix_render rs [c]) as (s2 & Hs2).
  exists (s2 +:+ s1). now rewrite Hs1, Hj, Hs2, append_assoc.
Qed.

Lemma staysUnder_step (R L c : string) (e : Event) :
  validName c = true ->
  staysUnder (Join R c) (Join L c) e -> staysUnder R L e.
Proof.
  intros Hc [Hr Hl]. split; intros q Hq;
    [apply (under_step R c), Hr | apply (under_step L c), Hl]; assumption.
Qed.

Lemma staysUnder_here (R L : string) (e : Event) :
  (forall q, remotePathIn e = Some q -> q = R) ->
  (forall l, localPathIn e = Some l -> l = L) ->
  staysUnder R L e.
Proof.
  intros Hr Hl. split; intros q Hq;
    [rewrite (Hr q Hq) | rewrite (Hl q Hq)]; apply under_root.
Qed.

(** What holds of each round holds of the loop, for the elements of the
    list only. *)
Lemma forEach_Forall_in {A} (Pin Pout : Event -> Prop) (l : list A)
    (body : A -> M W F unit) :
  (forall x w, In x l -> Forall Pin (trace (body x w)) ->
               Forall Pout (trace (body x w))) ->
  forall w, Forall Pin (trace (forEach l body w)) ->
            Forall Pout (trace (forEach l body w)).
Proof.
  induction l as [|x l IH]; intros Hb w Hin; [constructor|].
  cbn [forEach] in *. rewrite trace_bind in *.
  apply Forall_app in Hin as [Hin1 Hin2]. apply Forall_app_2.
  - apply Hb; [now left | exact Hin1].
  - destruct (outcome (body x w)); [|constructor].
    apply IH; [|exact Hin2]. intros y w' Hy. apply Hb. now right.
Qed.

Lemma doDelete_staysUnder (n : nat) :
  forall (p L : string) (w : World W F),
    Forall listsValidNames (trace (doDelete n p w)) ->
    Forall (staysUnder p L) (trace (doDelete n p w)).
Proof.
  induction n as [|n IH]; intros p L w Hv; [constructor|].
  rewrite doDelete_S in *. cbv zeta in *.
  assert (Hhere : forall e, (forall q, remotePathIn e = Some q -> q = p) ->
                            localPathIn e = None -> staysUnder p L e).
  { intros e Hq Hl. apply staysUnder_here; [exact Hq|].
    intros l El. rewrite Hl in El. discriminate El. }
  destruct (fst (zkChildren p (zk w))) as [[cs st]|err].
  - set (w1 := mkWorld _ _) in *.
    assert (Hsub : Forall listsValidNames
                     (EvChildren p (Ok (cs, st))
                        :: trace (forEach cs (fun c => doDelete n (path.Join p c)) w1)) ->
                   Forall (staysUnder p L)
                     (EvChildren p (Ok (cs, st))
                        :: trace (forEach cs (fun c => doDelete n (path.Join p c)) w1))).
    { intros Hall. inversion Hall as [|? ? Hcs Hrest]; subst.
      constructor.
      - apply Hhere; [|reflexivity]. intros q E. now injection E as <-.
      - apply (forEach_Forall_in listsValidNames); [|exact Hrest].
        intros c w' Hc Hin.
        pose proof (proj1 (List.Forall_forall _ _) Hcs c Hc) as Hvc.
        eapply List.Forall_impl; [|apply (IH _ (Join L c) _ Hin)].
        intros e. now apply staysUnder_step. }
    destruct (outcome (forEach cs _ w1)) as [[]|a].
    + unfold trace at 1. unfold trace at 1 in Hv. cbn [snd] in *.
      rewrite app_comm_cons in *. apply Forall_app in Hv as [Hv1 _].
      apply Forall_app_2; [now apply Hsub|].
      constructor; [|constructor; [|constructor]].
      * apply Hhere; [|reflexivity]. intros q E. discriminate E.
      * apply Hhere; [|reflexivity]. intros q E. now injection E as <-.
    + unfold trace at 1. unfold trace at 1 in Hv. cbn [snd] in *.
      now apply Hsub.
  - destruct (isErrNoNode err); unfold trace; cbn [snd];
      repeat constructor; apply Hhere; try reflexivity;
      intros q E; try discriminate E; now injection E as <-.
Qed.

End Confinement.

(** X14.  The recursive deleter stays inside its subtree.  In a run in
    which every listing returns proper names (no slash, not empty, neither
    ["."] nor [".."]), every path that [doDelete] lists or deletes is
    reached from the root of the run through such names; when that root is
    canonical, every such path starts with it. *)
Theorem doDelete_stays_in_subtree {W F : Type} `{Conn W} `{LocalFS F}
    (fuel : nat) (serverPrefix : string) (w : World W F) :
  Forall listsValidNames (trace (doDelete fuel serverPrefix w)) ->
  Forall (fun e => forall q, remotePathIn e = Some q -> under serverPrefix q)
         (trace (doDelete fuel serverPrefix w)).
Proof.
  intros Hv. eapply List.Forall_impl;
    [|apply (doDelete_staysUnder fuel serverPrefix "" w Hv)].
  intros e [Hr _]. exact Hr.
Qed.

Lemma doDelete_stays_in_subtree_witness :
  Forall (fun e => forall q, remotePathIn e = Some q -> under "/cfg/app" q)
         (trace (doDelete 5 "/cfg/app" (mkWorld zkSample fsSample)))
  /\ map fst (map_to_list (nodes (zk (final (doDelete 5 "/cfg/app"
                                               (mkWorld zkSample fsSample))))))
     = ["/cfg/motd"; "/cfg"; "/"].
Proof.
  split.
  - apply (doDelete_stays_in_subtree (W:=MemZk) (F:=MemFS)).
    vm_compute. repeat constructor.
  - vm_compute. reflexivity.
Defined.

Section DownloadConfinement.
Context {W F : Type} `{Conn W} `{LocalFS F}.

Lemma Compositional_confined (R L : string) : Compositional (confined R L).
Proof.
  split; [intros _; constructor|].
  intros t1 t2 H1 H2 Hv. apply Forall_app in Hv as [Hv1 Hv2].
  apply Forall_app_2; [now apply H1 | now apply H2].
Qed.

Lemma atHere_staysUnder (R L : string) (e : Event) :
  atHere R L e = true -> staysUnder R L e.
Proof.
  unfold atHere. intros Ha. apply andb_prop in Ha as [Hr Hl].
  apply staysUnder_here.
  - intros q Eq. rewrite Eq in Hr. apply String.eqb_eq in Hr. exact Hr.
  - intros l El. rewrite El in Hl. apply String.eqb_eq in Hl. exact Hl.
Qed.

Lemma confined_here (R L : string) (e : Event) :
  atHere R L e = true -> confined R L [e].
Proof.
  intros Ha _. constructor; [now apply atHere_staysUnder | constructor].
Qed.

Lemma confined_each (R L : string) (t : list Event) :
  each (atHere R L) t -> confined R L t.
Proof.
  intros Ht _. eapply List.Forall_impl; [|exact Ht].
  apply atHere_staysUnder.
Qed.

(** An event of this round: its path is the node or the local path of the
    round. *)
Ltac here :=
  apply confined_here; unfold atHere; cbn [remotePathIn localPathIn];
  rewrite ?String.eqb_refl; reflexivity.

Lemma downloadFile_confined (R L : string) (d : bytes) (st : Stat) :
  keeps (confined R L) (downloadFile (W:=W) (F:=F) L d st).
Proof.
  pose proof (Compositional_confined R L) as HP.
  unfold downloadFile, createFile, osStat, WriteFile, osChtimes,
    logPrintf, fmtPrintf, panic.
  cbv zeta.
  repeat first
    [ apply (keeps_ret _ HP) | apply (keeps_abort _ HP)
    | apply keeps_print; here
    | apply keeps_localRead; intros ?; here
    | apply keeps_localWrite; intros ?; here
    | apply (keeps_bind _ HP); [|intros ?]
    | match goal with
      | |- keeps _ (match ?x with _ => _ end) => destruct x
      | |- keeps _ (if ?x then _ else _) => destruct x
      end ].
Qed.

Lemma doDownload_confined (n : nat) :
  forall R L, keeps (confined R L) (doDownload (W:=W) (F:=F) n R L).
Proof.
  induction n as [|n IH]; intros R L.
  - intros w _. constructor.
  - pose proof (Compositional_confined R L) as HP. cbn [doDownload].
    unfold cGet. apply (keeps_bind _ HP); [apply keeps_remote; intros ?; here|].
    intros [[fData stat]|err].
    + destruct (DataLength stat =? 0); [|apply downloadFile_confined].
      unfold osMkdir, logPrintf, panic.
      apply (keeps_bind _ HP); [apply keeps_localWrite; intros ?; here|].
      intros r. apply (keeps_bind _ HP).
      * destruct r as [e|]; [destruct (IsExist e)|];
          first [ apply keeps_print; here | apply (keeps_abort _ HP) ].
      * intros _. destruct (NumChildren stat >? 0); [|apply (keeps_ret _ HP)].
        intros w Hv. unfold cChildren in *.
        rewrite trace_bind, trace_remote, outcome_remote, final_remote in *.
        apply Forall_app in Hv as [Hv1 Hv2]. apply Forall_app_2.
        -- apply (confined_here R L); [|exact Hv1].
           unfold atHere. cbn [remotePathIn localPathIn].
           now rewrite String.eqb_refl.
        -- inversion Hv1 as [|? ? Hcs _]; subst.
           destruct (fst (zkChildren R (zk w))) as [[children st]|e];
             [|constructor].
           cbn [listsValidNames] in Hcs.
           apply (forEach_Forall_in listsValidNames); [|exact Hv2].
           intros c w' Hc Hin.
           pose proof (proj1 (List.Forall_forall _ _) Hcs c Hc) as Hvc.
           eapply List.Forall_impl; [|apply (IH _ _ _ Hin)].
           intros e. now apply staysUnder_step.
    + unfold panic. destruct (isErrNoNode err);
        [apply keeps_logFatalf; here | apply (keeps_abort _ HP)].
Qed.

End DownloadConfinement.

(** X15.  Download stays under its two roots.  In a run of [doDownload] in
    which every listing returns proper names, every remote path fetched or
    listed is reached from the remote root through such names, and every
    local path stat'ed, created or written is reached from the local root
    in the same way; where a root is canonical, the paths start with it.
    So a download never writes outside the local root. *)
Theorem doDownload_stays_under_roots {W F : Type} `{Conn W} `{LocalFS F}
    (fuel : nat) (serverPrefix localPrefix : string) (w : World W F) :
  Forall listsValidNames (trace (doDownload fuel serverPrefix localPrefix w)) ->
  Forall (staysUnder serverPrefix localPrefix)
         (trace (doDownload fuel serverPrefix localPrefix w)).
Proof. apply doDownload_confined. Qed.

Lemma doDownload_stays_under_roots_witness :
  Forall (staysUnder "/cfg" "/srv")
         (trace (doDownload 5 "/cfg" "/srv" (mkWorld zkSample fsSample)))
  /\ In (EvStat "/srv/app/db.conf" (Ok (mkFileInfo false true (mkTime 1 0))))
        (trace (doDownload 5 "/cfg" "/srv" (mkWorld zkSample fsSample))).
Proof.
  split.
  - apply (doDownload_stays_under_roots (W:=MemZk) (F:=MemFS)).
    vm_compute. repeat constructor.
  - vm_compute. tauto.
Defined.

(** X16.  Upload does not compare contents.  For a regular local file whose
    node exists already and is reported without children, [visitFunc]
    always issues a [setNode] with the content of the file, conditioned on
    the version just read, also when the node holds that very content; when
    the service accepts it the entry is reported as overwritten.  A second
    upload of an unchanged tree therefore rewrites every file node. *)
Theorem upload_rewrites_existing_file {W F : Type} `{Conn W} `{LocalFS F}
    (serverPrefix absLocal visitedPath : string) (fInfo : FileInfo)
    (w : World W F) (data : bytes) (z1 z2 z3 : W) (ex : bool) (st : Stat) :
  fiIsRegular fInfo = true -> fiIsDir fInfo = false ->
  fsReadFile visitedPath (fs w) = Ok data ->
  zkCreate (remotePathOf serverPrefix absLocal visitedPath) data (zk w)
    = (Some ErrNodeExists, z1) ->
  zkExists (remotePathOf serverPrefix absLocal visitedPath) z1
    = (Ok (ex, st), z2) ->
  NumChildren st <= 0 ->
  zkSet (remotePathOf serverPrefix absLocal visitedPath) data (Version st) z2
    = (None, z3) ->
  let remotePath := remotePathOf serverPrefix absLocal visitedPath in
  visitFunc serverPrefix absLocal visitedPath (Some fInfo) None w
  = (Done None, mkWorld z3 (fs w),
     [EvReadFile visitedPath (Ok data);
      EvCreate remotePath data (Some ErrNodeExists);
      EvExists remotePath (Ok (ex, st));
      EvSet remotePath data (Version st) None;
      EvPrint Logger (MOverwrote visitedPath remotePath)]).
Proof.
  intros Hreg Hdir Hread Hcreate Hexists Hn Hset. cbv zeta.
  rewrite (visitFunc_existing_file _ _ _ _ _ _ _ _ _ _
             Hreg Hdir Hread Hcreate Hexists).
  cbv zeta.
  assert (Hz : (NumChildren st >? 0) = false).
  { rewrite Z.gtb_ltb. apply Z.ltb_ge. exact Hn. }
  now rewrite Hz, Hset.
Qed.

Lemma upload_rewrites_existing_file_witness :
  let w1 := final (doUpload 6 "/cfg" "/srv" (mkWorld zkSample fsSample)) in
  (zdata <$> nodes (zk w1) !! "/cfg/motd") = Some (b "hi")
  /\ In (EvSet "/cfg/motd" (b "hi") 1 None)
        (trace (visitFunc "/cfg" "/srv" "/srv/motd"
                  (Some (mkFileInfo false true (mkTime 9 500))) None w1)).
Proof.
  cbv zeta. split; [vm_compute; reflexivity|].
  set (w1 := final (doUpload 6 "/cfg" "/srv" (mkWorld zkSample fsSample))).
  rewrite (upload_rewrites_existing_file (W:=MemZk) (F:=MemFS)
             "/cfg" "/srv" "/srv/motd" (mkFileInfo false true (mkTime 9 500))
             w1 (b "hi") (zk w1) (zk w1)
             (snd (memSet "/cfg/motd" (b "hi") 1 (zk w1)))
             true (mkStat 1 0 2 5000));
    [ | reflexivity | reflexivity | vm_compute; reflexivity
      | vm_compute; reflexivity | vm_compute; reflexivity
      | vm_compute; discriminate | vm_compute; reflexivity ].
  right. right. right. now left.
Defined.

(** ** The deleter on the reference service *)

Section DeleteOnStore.
Context {F : Type} `{LocalFS F}.
Import path PathFacts.

Lemma Split_render_snoc (cs : list string) (c : string) :
  validName c = true -> snd (Split (render (cs ++ [c]))) = c.
Proof.
  intros Hc. rewrite render_snoc.
  now rewrite (Split_append _ c (validName_noSlash _ Hc)).
Qed.

Lemma render_snoc_neq (ps cs : list string) (c : string) :
  validNames ps -> validNames (c :: cs) ->
  render (ps ++ c :: cs) <> render ps.
Proof.
  intros Hps Hcs E. apply render_inj in E.
  - apply (f_equal (@length string)) in E. rewrite length_app in E.
    cbn [length] in E. lia.
  - now apply validNames_app.
  - exact Hps.
Qed.

Lemma wellFormed_key (m : MemZk) (k : string) :
  wellFormed m -> is_Some (nodes m !! k) ->
  exists ks, validNames ks /\ k = render ks.
Proof. intros Hwf Hk. apply canonical_inv, (Hwf k Hk). Qed.

(** Every node on the way down to a node is a node. *)
Lemma wellFormed_ancestor (m : MemZk) (ps cs : list string) :
  wellFormed m -> validNames ps -> validNames cs ->
  is_Some (nodes m !! render (ps ++ cs)) -> is_Some (nodes m !! render ps).
Proof.
  intros Hwf Hps. induction cs as [|c cs IH] using rev_ind; intros Hcs Hk.
  - now rewrite app_nil_r in Hk.
  - apply Forall_app in Hcs as [Hcs Hc]. inversion Hc as [|? ? Hc1 _]; subst.
    apply IH; [exact Hcs|]. rewrite app_assoc in Hk.
    destruct (Hwf _ Hk) as [_ Hd].
    rewrite Dir_render_snoc in Hd;
      [exact Hd | now apply validNames_app | exact Hc1].
Qed.

(** The children that the reference service lists. *)
Lemma childrenOf_spec (m : MemZk) (ps : list string) (c : string) :
  wellFormed m -> validNames ps ->
  In c (childrenOf (render ps) m)
  <-> validName c = true /\ is_Some (nodes m !! render (ps ++ [c])).
Proof.
  intros Hwf Hps. rewrite <- list_elem_of_In. unfold childrenOf.
  rewrite list_elem_of_omap. split.
  - intros ([k nd] & Hin & Hf). apply elem_of_map_to_list in Hin.
    cbn [fst] in Hf.
    destruct (String.eqb k (render ps)) eqn:Ek; [discriminate Hf|].
    destruct (String.eqb (Dir k) (render ps)) eqn:Ed; [|discriminate Hf].
    injection Hf as <-. apply String.eqb_eq in Ed. apply String.eqb_neq in Ek.
    destruct (wellFormed_key m k Hwf (mk_is_Some _ _ Hin)) as (ks & Hks & ->).
    destruct ks as [|c0 ks _] using rev_ind.
    + exfalso. apply Ek. change (render []) with (Dir (render [])). exact Ed.
    + apply Forall_app in Hks as [Hks Hc0].
      inversion Hc0 as [|? ? Hc1 _]; subst.
      rewrite Dir_render_snoc in Ed by assumption.
      apply render_inj in Ed; [|assumption..]. subst ks.
      rewrite Split_render_snoc by assumption.
      split; [exact Hc1 | now exists nd].
  - intros [Hc [nd Hk]]. exists (render (ps ++ [c]), nd).
    split; [now apply elem_of_map_to_list|]. cbn [fst].
    assert (String.eqb (render (ps ++ [c])) (render ps) = false) as ->.
    { apply String.eqb_neq, render_snoc_neq; [exact Hps | now repeat constructor]. }
    rewrite Dir_render_snoc, String.eqb_refl by assumption.
    now rewrite Split_render_snoc.
Qed.


Lemma world_eta (w : World MemZk F) : w = mkWorld (zk w) (fs w).
Proof. now destruct w. Qed.

(** The loop over the children, given the deleter one level down. *)
Lemma forEach_prunes (n : nat) (ps : list string) :
  validNames ps ->
  (forall qs m (f : F),
     validNames qs -> wellFormed m -> (0 < n)%nat ->
     (forall ks, validNames ks -> is_Some (nodes m !! render (qs ++ ks)) ->
                 (length ks < n)%nat) ->
     prunes m f (below qs) (doDelete n (render qs) (mkWorld m f))) ->
  forall (l : list string) (m : MemZk) (f : F),
    validNames l -> wellFormed m ->
    (l <> [] -> (0 < n)%nat) ->
    (forall c ks, In c l -> validNames ks ->
                  is_Some (nodes m !! render (ps ++ c :: ks)) ->
                  (length ks < n)%nat) ->
    prunes m f
      (fun k => exists c, In c l /\ below (ps ++ [c]) k)
      (forEach l (fun c => doDelete n (Join (render ps) c)) (mkWorld m f)).
Proof.
  intros Hps IHn. induction l as [|c l IHl]; intros m f Hl Hwf Hn Hdepth.
  - unfold prunes. cbn [forEach].
    split; [reflexivity|]. split; [reflexivity|]. split; [reflexivity|].
    split; [exact Hwf|]. split; [|split; [|split]].
    + intros k (c & [] & _).
    + reflexivity.
    + intros k. now right.
    + constructor.
  - inversion Hl as [|? ? Hc Hl']; subst.
    cbn [forEach]. rewrite (Join_render_name ps c Hps Hc).
    assert (Hpc : validNames (ps ++ [c]))
      by (apply validNames_app; [assumption | now repeat constructor]).
    destruct (IHn (ps ++ [c]) m f Hpc Hwf (Hn ltac:(discriminate)))
      as (Ho1 & Hf1 & Hc1 & Hwf1 & Hgone1 & Hkeep1 & Hmono1 & Hacc1).
    { intros ks Hks Hk. rewrite <- app_assoc in Hk.
      apply (Hdepth c ks); [now left | assumption..]. }
    set (r1 := doDelete n (render (ps ++ [c])) (mkWorld m f)) in *.
    destruct (IHl (zk (final r1)) f Hl' Hwf1)
      as (Ho2 & Hf2 & Hc2 & Hwf2 & Hgone2 & Hkeep2 & Hmono2 & Hacc2).
    { intros Hne. apply Hn. discriminate. }
    { intros c' ks Hc' Hks Hk.
      apply (Hdepth c' ks); [now right | assumption|].
      destruct (Hmono1 (render (ps ++ c' :: ks))) as [E|E];
        [rewrite E in Hk; now destruct Hk | now rewrite <- E]. }
    assert (Ew : final r1 = mkWorld (zk (final r1)) f)
      by (rewrite <- Hf1; apply world_eta).
    rewrite <- Ew in Ho2, Hf2, Hc2, Hwf2, Hgone2, Hkeep2, Hmono2, Hacc2.
    unfold prunes.
    rewrite outcome_bind, final_bind, trace_bind. fold r1. rewrite Ho1.
    set (r2 := forEach l _ (final r1)) in *.
    split; [exact Ho2|]. split; [exact Hf2|].
    split; [now rewrite Hc2|]. split; [exact Hwf2|].
    split; [|split; [|split]].
    + intros k (c' & [<-|Hc'] & Hb).
      * destruct (Hmono2 k) as [E|E]; [exact E|].
        rewrite E. now apply Hgone1.
      * apply Hgone2. now exists c'.
    + intros k Hk. rewrite Hkeep2, Hkeep1; [reflexivity| |].
      * intros Hb. apply Hk. exists c. split; [now left | exact Hb].
      * intros (c' & Hc' & Hb). apply Hk. exists c'. split; [now right | exact Hb].
    + intros k. destruct (Hmono2 k) as [E|E]; [now left|].
      rewrite E. apply Hmono1.
    + apply Forall_app_2; assumption.
Qed.


Lemma below_self (ps : list string) : below ps (render ps).
Proof. exists []. split; [constructor | now rewrite app_nil_r]. Qed.

Lemma below_child (ps : list string) (c k : string) :
  validName c = true -> below (ps ++ [c]) k -> below ps k.
Proof.
  intros Hc (ks & Hks & ->). exists (c :: ks).
  split; [now constructor | now rewrite <- app_assoc].
Qed.

Lemma below_child_neq (ps : list string) (c : string) :
  validNames ps -> validName c = true -> ~ below (ps ++ [c]) (render ps).
Proof.
  intros Hps Hc (ks & Hks & E). rewrite <- app_assoc in E.
  symmetry in E. revert E. apply render_snoc_neq; [exact Hps|].
  now constructor.
Qed.

(** A listed child of the old store that is still a node has not been
    pruned. *)
Lemma child_listed (m m2 : MemZk) (ps : list string) (c : string)
    (ks : list string) :
  wellFormed m -> validNames ps -> validName c = true -> validNames ks ->
  (forall k, nodes m2 !! k = None \/ nodes m2 !! k = nodes m !! k) ->
  is_Some (nodes m2 !! render (ps ++ c :: ks)) ->
  In c (childrenOf (render ps) m).
Proof.
  intros Hwf Hps Hc Hks Hmono Hk.
  apply childrenOf_spec; [assumption..|]. split; [exact Hc|].
  apply (wellFormed_ancestor m (ps ++ [c]) ks Hwf);
    [apply validNames_app; [assumption | now repeat constructor] | exact Hks|].
  rewrite <- app_assoc. cbn [app].
  destruct (Hmono (render (ps ++ c :: ks))) as [E|E];
    [rewrite E in Hk; now destruct Hk | now rewrite <- E].
Qed.

Lemma doDelete_prunes (n : nat) :
  forall (ps : list string) (m : MemZk) (f : F),
    validNames ps -> wellFormed m -> (0 < n)%nat ->
    (forall ks, validNames ks -> is_Some (nodes m !! render (ps ++ ks)) ->
                (length ks < n)%nat) ->
    prunes m f (below ps) (doDelete n (render ps) (mkWorld m f)).
Proof.
  induction n as [|n IH]; intros ps m f Hps Hwf Hn Hdepth; [lia|].
  rewrite doDelete_S. cbv zeta.
  change (zkChildren (render ps) (zk (mkWorld m f)))
    with (memChildren (render ps) m).
  unfold memChildren. destruct (nodes m !! render ps) as [nd|] eqn:Ep.
  - cbn [fst snd fs].
    set (cs := childrenOf (render ps) m).
    assert (Hcs : validNames cs).
    { apply List.Forall_forall. intros c Hc.
      now apply (childrenOf_spec m ps c Hwf Hps) in Hc as [Hc _]. }
    destruct (forEach_prunes n ps Hps IH cs m f Hcs Hwf)
      as (Ho & Hf & Hc & Hwf2 & Hgone & Hkeep & Hmono & Hacc).
    { intros Hne. destruct cs as [|c cs'] eqn:Ecs; [now elim Hne|].
      assert (Hin : In c (childrenOf (render ps) m))
        by (fold cs; rewrite Ecs; now left).
      apply (childrenOf_spec m ps c Hwf Hps) in Hin as [Hvc Hk].
      specialize (Hdepth [c] ltac:(now repeat constructor) Hk).
      cbn [length] in Hdepth. lia. }
    { intros c ks Hin Hks Hk.
      pose proof (proj1 (List.Forall_forall _ _) Hcs c Hin) as Hvc.
      specialize (Hdepth (c :: ks) ltac:(now constructor) Hk).
      cbn [length] in Hdepth. lia. }
    set (sub := forEach cs _ (mkWorld m f)) in *.
    rewrite Ho. set (m2 := zk (final sub)) in *.
    assert (Ep2 : nodes m2 !! render ps = Some nd).
    { rewrite Hkeep; [exact Ep|]. intros (c & Hin & Hb).
      pose proof (proj1 (List.Forall_forall _ _) Hcs c Hin) as Hvc.
      now apply (below_child_neq ps c Hps Hvc). }
    assert (Hlisted : forall c ks, validName c = true -> validNames ks ->
                                   nodes m2 !! render (ps ++ c :: ks) = None).
    { intros c ks Hvc Hks.
      destruct (nodes m2 !! render (ps ++ c :: ks)) as [x|] eqn:Ek;
        [|reflexivity].
      assert (Hin : In c cs)
        by (apply (child_listed m m2 ps c ks); try assumption;
            rewrite Ek; now eexists).
      rewrite <- Ek. apply Hgone. exists c. split; [exact Hin|].
      exists ks. split; [exact Hks | now rewrite <- app_assoc]. }
    assert (Hnone : childrenOf (render ps) m2 = []).
    { destruct (childrenOf (render ps) m2) as [|c rest] eqn:Ec; [reflexivity|].
      assert (Hin : In c (childrenOf (render ps) m2))
        by (rewrite Ec; now left).
      apply (childrenOf_spec m2 ps c Hwf2 Hps) in Hin as [Hvc Hk].
      rewrite (Hlisted c [] Hvc ltac:(constructor)) in Hk. now destruct Hk. }
    change (zkDelete (render ps) (Version (statOf (render ps) nd m)) m2)
      with (memDelete (render ps) (zversion nd) m2).
    unfold memDelete. rewrite Ep2, Z.eqb_refl, orb_true_r, Hnone.
    cbn [fst snd]. unfold prunes, outcome, final, trace. cbn [fst snd zk fs nodes clock].
    split; [reflexivity|]. split; [exact Hf|]. split; [exact Hc|].
    split; [|split; [|split; [|split]]].
    + unfold wellFormed. cbn [nodes]. intros k Hk.
      destruct (decide (render ps = k)) as [<-|Hne];
        [rewrite lookup_delete_eq in Hk; now destruct Hk|].
      rewrite lookup_delete_ne in Hk by exact Hne.
      destruct (Hwf2 k Hk) as [Hcan Hdir]. split; [exact Hcan|].
      rewrite lookup_delete_ne; [exact Hdir|].
      intros Ed. destruct (canonical_inv k Hcan) as (ks & Hks & ->).
      destruct ks as [|c ks _] using rev_ind; [now elim Hne|].
      apply Forall_app in Hks as [Hks Hc0].
      pose proof (List.Forall_inv Hc0) as Hvc.
      rewrite Dir_render_snoc in Ed by assumption.
      apply render_inj in Ed; [|assumption..]. subst ks.
      rewrite (Hlisted c [] Hvc ltac:(constructor)) in Hk. now destruct Hk.
    + intros k (ks & Hks & ->). destruct ks as [|c ks].
      * rewrite app_nil_r. apply lookup_delete_eq.
      * pose proof (List.Forall_inv Hks) as Hvc.
        pose proof (List.Forall_inv_tail Hks) as Hks'.
        rewrite lookup_delete_ne; [now apply Hlisted|].
        intros E. revert E. apply not_eq_sym, render_snoc_neq; assumption.
    + intros k Hk. rewrite lookup_delete_ne.
      * apply Hkeep. intros (c & Hin & Hb). apply Hk.
        pose proof (proj1 (List.Forall_forall _ _) Hcs c Hin) as Hvc.
        now apply (below_child ps c).
      * intros <-. apply Hk, below_self.
    + intros k. destruct (decide (render ps = k)) as [<-|Hne].
      * left. apply lookup_delete_eq.
      * rewrite lookup_delete_ne by exact Hne. apply Hmono.
    + constructor; [reflexivity|]. apply Forall_app_2; [exact Hacc|].
      repeat constructor.
  - cbn [fst snd fs isErrNoNode]. unfold prunes, outcome, final, trace.
    cbn [fst snd zk fs].
    split; [reflexivity|]. split; [reflexivity|]. split; [reflexivity|].
    split; [exact Hwf|]. split; [|split; [|split]].
    + intros k (ks & Hks & ->).
      destruct (nodes m !! render (ps ++ ks)) as [x|] eqn:Ek; [|reflexivity].
      assert (Hp : is_Some (nodes m !! render ps))
        by (apply (wellFormed_ancestor m ps ks); try assumption;
            rewrite Ek; now eexists).
      rewrite Ep in Hp. now destruct Hp.
    + reflexivity.
    + intros k. now right.
    + repeat constructor.
Qed.

End DeleteOnStore.

(** ** The path builder on the reference service *)

Section EnsureOnStore.
Context {F : Type} `{LocalFS F}.
Import path PathFacts.

Lemma ensureRemotePath_store (n : nat) :
  forall (ps : list string) (m : MemZk) (f : F),
    validNames ps -> wellFormed m -> is_Some (nodes m !! "/") ->
    (length ps < n)%nat ->
    let r := ensureRemotePath n (render ps) (mkWorld m f) in
    outcome r = Done tt
    /\ fs (final r) = f
    /\ wellFormed (zk (final r))
    /\ is_Some (nodes (zk (final r)) !! render ps)
    /\ (forall k nd, nodes m !! k = Some nd ->
                     nodes (zk (final r)) !! k = Some nd)
    /\ (forall k nd, nodes (zk (final r)) !! k = Some nd ->
                     nodes m !! k = Some nd
                     \/ (onPathTo (render ps) k /\ zdata nd = [])).
Proof.
  induction n as [|n IH]; intros ps m f Hps Hwf Hroot Hn; [lia|].
  destruct ps as [|c ps _] using rev_ind.
  - cbv zeta. change (render []) with "/".
    change (ensureRemotePath (S n) "/" (mkWorld m f))
      with (Done tt, mkWorld m f, @nil Event).
    unfold outcome, final. cbn [fst snd zk fs].
    split; [reflexivity|]. split; [reflexivity|]. split; [exact Hwf|].
    split; [exact Hroot|]. split; [tauto|]. intros k nd Hk. now left.
  - apply Forall_app in Hps as [Hps Hc0].
    pose proof (List.Forall_inv Hc0) as Hc.
    rewrite length_app in Hn. cbn [length] in Hn.
    cbv zeta. rewrite ensureRemotePath_S by now apply render_snoc_not_root.
    cbv zeta. rewrite Dir_render_snoc by assumption.
    destruct (IH ps m f Hps Hwf Hroot ltac:(lia))
      as (Ho & Hf & Hwf1 & Hp1 & Hold & Hnew).
    set (up := ensureRemotePath n (render ps) (mkWorld m f)) in *.
    rewrite Ho. set (m1 := zk (final up)) in *.
    set (p := render (ps ++ [c])).
    assert (Hpv : validNames (ps ++ [c]))
      by (apply validNames_app; [assumption | now repeat constructor]).
    assert (Hon : forall k, onPathTo (render ps) k -> onPathTo p k).
    { intros k (qs & ks & Hv & -> & E). apply render_inj in E;
        [|assumption..]. subst ps.
      exists qs, (ks ++ [c]). rewrite app_assoc. now repeat split. }
    change (zkCreate p [] m1) with (memCreate p [] m1). unfold memCreate.
    destruct (nodes m1 !! p) as [nd0|] eqn:Ep.
    + cbn [fst snd isErrNodeExists]. unfold outcome, final.
      cbn [fst snd zk fs].
      split; [reflexivity|]. split; [exact Hf|]. split; [exact Hwf1|].
      split; [rewrite Ep; now eexists|]. split; [exact Hold|].
      intros k nd Hk. destruct (Hnew k nd Hk) as [E|[Hk1 Hd]];
        [now left | right; split; [now apply Hon | exact Hd]].
    + assert (Ed : Dir p = render ps) by now apply Dir_render_snoc.
      destruct Hp1 as [ndp Hp1]. rewrite Ed, Hp1.
      cbn [fst snd]. unfold outcome, final. cbn [fst snd zk fs nodes].
      split; [reflexivity|]. split; [exact Hf|].
      assert (Hne : p <> render ps).
      { unfold p. rewrite <- (app_nil_r ps) at 2.
        intros E. apply render_inj in E; [|assumption|now rewrite app_nil_r].
        apply app_inv_head in E. discriminate E. }
      split; [|split; [|split]].
      * unfold wellFormed. cbn [nodes]. intros k Hk.
        destruct (decide (p = k)) as [<-|Hkp].
        -- split.
           ++ destruct (Hwf1 (render ps) ltac:(rewrite Hp1; now eexists))
                as [Hcan _].
              unfold p. now apply canonical_render.
           ++ rewrite Ed.
              rewrite lookup_insert_ne by exact Hne. rewrite Hp1. now eexists.
        -- rewrite lookup_insert_ne in Hk by exact Hkp.
           destruct (Hwf1 k Hk) as [Hcan Hdir]. split; [exact Hcan|].
           destruct (decide (p = Dir k)) as [<-|Hd];
             [rewrite lookup_insert_eq; now eexists|].
           now rewrite lookup_insert_ne by exact Hd.
      * rewrite lookup_insert_eq. now eexists.
      * intros k nd Hk. rewrite lookup_insert_ne; [now apply Hold|].
        intros <-. apply Hold in Hk. rewrite Ep in Hk. discriminate Hk.
      * intros k nd Hk. destruct (decide (p = k)) as [<-|Hkp].
        -- rewrite lookup_insert_eq in Hk. injection Hk as <-.
           right. split; [|reflexivity].
           exists (ps ++ [c]), []. rewrite app_nil_r. now repeat split.
        -- rewrite lookup_insert_ne in Hk by exact Hkp.
           destruct (Hnew k nd Hk) as [E|[Hk1 Hd]];
             [now left | right; split; [now apply Hon | exact Hd]].
Qed.

End EnsureOnStore.

Lemma wellFormed_zkSample : wellFormed zkSample.
Proof.
  intros k [nd Hk]. unfold zkSample in Hk. cbn [nodes] in Hk.
  apply elem_of_list_to_map_2 in Hk.
  repeat (apply elem_of_cons in Hk as [Hk|Hk];
          [injection Hk as -> _;
           split; [split; vm_compute; reflexivity
                  | vm_compute; eexists; reflexivity]|]).
  now apply elem_of_nil in Hk.
Qed.

(** X17.  On the reference service, deleting removes exactly the subtree.
    Take a namespace in which every node has a canonical path and a parent,
    no other client, a canonical root [p], and fuel beyond the depth of the
    namespace below [p].  Then [doDelete] ends normally, the service
    accepts every delete it sends, every node at or below [p] is gone, every
    other node is as it was, and the local file system is untouched.  The
    root is left out: the reference service would delete it like any other
    node, which a real service refuses. *)
Theorem doDelete_removes_subtree {F : Type} `{LocalFS F}
    (fuel : nat) (p : string) (m : MemZk) (f : F) :
  wellFormed m -> path.canonical p -> p <> "/" -> (0 < fuel)%nat ->
  (forall k, is_Some (nodes m !! k) ->
             (path.numComponents k < path.numComponents p + fuel)%nat) ->
  let r := doDelete fuel p (mkWorld m f) in
  outcome r = Done tt
  /\ each deleteAccepted (trace r)
  /\ (forall k, inSubtree p k -> nodes (zk (final r)) !! k = None)
  /\ (forall k, ~ inSubtree p k -> nodes (zk (final r)) !! k = nodes m !! k)
  /\ fs (final r) = f.
Proof.
  intros Hwf Hp _ Hfuel Hdepth r.
  destruct (PathFacts.canonical_inv p Hp) as (ps & Hps & E). subst p.
  destruct (doDelete_prunes fuel ps m f Hps Hwf Hfuel)
    as (Ho & Hf & _ & _ & Hgone & Hkeep & _ & Hacc).
  { intros ks Hks Hk. specialize (Hdepth _ Hk).
    rewrite !PathFacts.numComponents_render, length_app in Hdepth;
      [lia | assumption | now apply PathFacts.validNames_app]. }
  fold r in Ho, Hf, Hgone, Hkeep, Hacc.
  split; [exact Ho|]. split; [exact Hacc|].
  split; [|split; [|exact Hf]].
  - intros k (cs & Hcs & ->). apply Hgone. exists cs.
    split; [exact Hcs | now apply PathFacts.descend_render].
  - intros k Hk. apply Hkeep. intros (cs & Hcs & ->). apply Hk.
    exists cs. split; [exact Hcs|].
    symmetry. now apply PathFacts.descend_render.
Qed.

Lemma doDelete_removes_subtree_witness :
  let r := doDelete 5 "/cfg" (mkWorld zkSample fsSample) in
  wellFormed zkSample
  /\ outcome r = Done tt
  /\ nodes (zk (final r)) !! "/cfg/app/db.conf" = None
  /\ nodes (zk (final r)) !! "/" = Some (mkZNode [] 0 0).
Proof.
  intros r.
  split; [exact wellFormed_zkSample|].
  destruct (doDelete_removes_subtree (F:=MemFS) 5 "/cfg" zkSample fsSample)
    as (Ho & _ & Hgone & Hkeep & _).
  - exact wellFormed_zkSample.
  - split; vm_compute; reflexivity.
  - discriminate.
  - lia.
  - intros k [nd Hk]. unfold zkSample in Hk. cbn [nodes] in Hk.
    apply elem_of_list_to_map_2 in Hk.
    repeat (apply elem_of_cons in Hk as [Hk|Hk];
            [injection Hk as -> _; vm_compute; lia|]).
    now apply elem_of_nil in Hk.
  - split; [exact Ho|]. split.
    + apply Hgone. exists ["app"; "db.conf"].
      split; [repeat constructor | reflexivity].
    + rewrite Hkeep; [vm_compute; reflexivity|].
      intros (cs & Hcs & E).
      change "/cfg" with (path.render ["cfg"]) in E.
      rewrite PathFacts.descend_render in E;
        [|repeat constructor | exact Hcs].
      change "/" with (path.render []) in E.
      apply PathFacts.render_inj in E;
        [discriminate E | constructor |].
      apply PathFacts.validNames_app; [repeat constructor | exact Hcs].
Defined.

(** X18.  On the reference service, the path builder makes the path exist
    and touches nothing else.  Take a namespace in which every node has a
    canonical path and a parent, with its root, no other client, a canonical
    path [p] and fuel beyond the number of elements of [p].  Then
    [ensureRemotePath] ends normally, [p] is a node afterwards and so are
    all nodes above it, every node that was there keeps its data, version
    and time stamp, every node that was not there is [p] or above it and
    holds no data, and the local file system is untouched. *)
Theorem ensureRemotePath_builds_path {F : Type} `{LocalFS F}
    (fuel : nat) (p : string) (m : MemZk) (f : F) :
  wellFormed m -> is_Some (nodes m !! "/") -> path.canonical p ->
  (path.numComponents p < fuel)%nat ->
  let r := ensureRemotePath fuel p (mkWorld m f) in
  outcome r = Done tt
  /\ is_Some (nodes (zk (final r)) !! p)
  /\ wellFormed (zk (final r))
  /\ (forall k nd, nodes m !! k = Some nd ->
                   nodes (zk (final r)) !! k = Some nd)
  /\ (forall k nd, nodes (zk (final r)) !! k = Some nd ->
                   nodes m !! k = Some nd
                   \/ (onPathTo p k /\ zdata nd = []))
  /\ fs (final r) = f.
Proof.
  intros Hwf Hroot Hp Hfuel r.
  destruct (PathFacts.canonical_inv p Hp) as (ps & Hps & E). subst p.
  rewrite PathFacts.numComponents_render in Hfuel by exact Hps.
  destruct (ensureRemotePath_store fuel ps m f Hps Hwf Hroot Hfuel)
    as (Ho & Hf & Hwf1 & Hp1 & Hold & Hnew).
  fold r in Ho, Hf, Hwf1, Hp1, Hold, Hnew.
  now repeat (split; [assumption|]).
Qed.

Lemma ensureRemotePath_builds_path_witness :
  let r := ensureRemotePath 4 "/cfg/new/deep" (mkWorld zkSample fsSample) in
  outcome r = Done tt
  /\ is_Some (nodes (zk (final r)) !! "/cfg/new/deep")
  /\ nodes (zk (final r)) !! "/cfg/motd" = Some (mkZNode (b "hello") 0 4000).
Proof.
  intros r.
  destruct (ensureRemotePath_builds_path (F:=MemFS) 4 "/cfg/new/deep"
              zkSample fsSample)
    as (Ho & Hp & _ & Hold & _).
  - exact wellFormed_zkSample.
  - vm_compute. eexists. reflexivity.
  - split; vm_compute; reflexivity.
  - vm_compute. lia.
  - split; [exact Ho|]. split; [exact Hp|].
    apply Hold. vm_compute. reflexivity.
Defined.

(** X19.  Cleaning before an upload leaves an empty node.  On the reference
    service, with a namespace in which every node has a canonical path and a
    parent, with its root and no other client, and a canonical path [p]
    other than the root: when [doDelete] has run on [p] and
    [ensureRemotePath] runs on [p] in the state it leaves, both end
    normally, [p] is a node without data and without children, nothing is
    left below it, and every node outside the subtree of [p] is as it was
    before the two runs. *)
Theorem delete_then_ensure_leaves_empty_node {F : Type} `{LocalFS F}
    (fuel fuel' : nat) (p : string) (m : MemZk) (f : F) :
  wellFormed m -> is_Some (nodes m !! "/") ->
  path.canonical p -> p <> "/" ->
  (0 < fuel)%nat ->
  (forall k, is_Some (nodes m !! k) ->
             (path.numComponents k < path.numComponents p + fuel)%nat) ->
  (path.numComponents p < fuel')%nat ->
  let r1 := doDelete fuel p (mkWorld m f) in
  let r2 := ensureRemotePath fuel' p (final r1) in
  outcome r1 = Done tt /\ outcome r2 = Done tt
  /\ (exists nd, nodes (zk (final r2)) !! p = Some nd /\ zdata nd = [])
  /\ childrenOf p (zk (final r2)) = []
  /\ (forall k, inSubtree p k -> k <> p -> nodes (zk (final r2)) !! k = None)
  /\ (forall k nd, ~ inSubtree p k -> nodes m !! k = Some nd ->
                   nodes (zk (final r2)) !! k = Some nd).
Proof.
  intros Hwf Hroot Hp Hnr Hfuel Hdepth Hfuel' r1 r2.
  destruct (PathFacts.canonical_inv p Hp) as (ps & Hps & E). subst p.
  assert (Hne : ps <> []) by (intros ->; now apply Hnr).
  destruct (doDelete_prunes fuel ps m f Hps Hwf Hfuel)
    as (Ho1 & Hf1 & _ & Hwf1 & Hgone & Hkeep & _ & _).
  { intros ks Hks Hk. specialize (Hdepth _ Hk).
    rewrite !PathFacts.numComponents_render, length_app in Hdepth;
      [lia | assumption | now apply PathFacts.validNames_app]. }
  fold r1 in Ho1, Hf1, Hwf1, Hgone, Hkeep.
  rewrite PathFacts.numComponents_render in Hfuel' by exact Hps.
  assert (Hroot1 : is_Some (nodes (zk (final r1)) !! "/")).
  { rewrite Hkeep; [exact Hroot|]. intros (ks & Hks & E).
    change "/" with (path.render []) in E.
    apply PathFacts.render_inj in E;
      [|constructor | now apply PathFacts.validNames_app].
    destruct ps; [now apply Hne | discriminate E]. }
  destruct (ensureRemotePath_store fuel' ps (zk (final r1)) (fs (final r1))
              Hps Hwf1 Hroot1 Hfuel')
    as (Ho2 & _ & Hwf2 & Hp2 & Hold & Hnew).
  rewrite <- world_eta in Ho2, Hwf2, Hp2, Hold, Hnew.
  fold r2 in Ho2, Hwf2, Hp2, Hold, Hnew.
  assert (Hbelow : forall c ks, path.validName c = true -> path.validNames ks ->
                     nodes (zk (final r2)) !! path.render (ps ++ c :: ks) = None).
  { intros c ks Hc Hks.
    destruct (nodes (zk (final r2)) !! path.render (ps ++ c :: ks))
      as [nd|] eqn:Ek; [|reflexivity].
    destruct (Hnew _ _ Ek) as [E|[(qs & ks' & Hv & E1 & E2) _]].
    - rewrite Hgone in E; [discriminate E|].
      exists (c :: ks). split; [now constructor | reflexivity].
    - apply PathFacts.render_inj in E2; [|assumption..].
      pose proof Hv as Hv'. apply Forall_app in Hv' as [Hq _].
      apply PathFacts.render_inj in E1;
        [|apply PathFacts.validNames_app; [assumption | now constructor]
         |assumption].
      subst qs. apply (f_equal (@length string)) in E2.
      rewrite !length_app in E2. cbn [length] in E2. lia. }
  split; [exact Ho1|]. split; [exact Ho2|].
  split; [|split; [|split]].
  - destruct Hp2 as [nd Hp2]. exists nd. split; [exact Hp2|].
    destruct (Hnew _ _ Hp2) as [E|[_ Hd]]; [|exact Hd].
    rewrite Hgone in E; [discriminate E | apply below_self].
  - destruct (childrenOf (path.render ps) (zk (final r2)))
      as [|c rest] eqn:Ec; [reflexivity|].
    assert (Hin : In c (childrenOf (path.render ps) (zk (final r2))))
      by (rewrite Ec; now left).
    apply (childrenOf_spec _ ps c Hwf2 Hps) in Hin as [Hvc Hk].
    rewrite (Hbelow c [] Hvc ltac:(constructor)) in Hk. now destruct Hk.
  - intros k (cs & Hcs & ->) Hk.
    rewrite PathFacts.descend_render in Hk |- * by assumption.
    destruct cs as [|c cs]; [now rewrite app_nil_r in Hk|].
    apply Hbelow; [exact (List.Forall_inv Hcs) | exact (List.Forall_inv_tail Hcs)].
  - intros k nd Hk Hm. apply Hold. rewrite Hkeep; [exact Hm|].
    intros (cs & Hcs & ->). apply Hk. exists cs. split; [exact Hcs|].
    symmetry. now apply PathFacts.descend_render.
Qed.

Lemma delete_then_ensure_leaves_empty_node_witness :
  let r1 := doDelete 5 "/cfg" (mkWorld zkSample fsSample) in
  let r2 := ensureRemotePath 3 "/cfg" (final r1) in
  outcome r2 = Done tt
  /\ childrenOf "/cfg" (zk (final r2)) = []
  /\ nodes (zk (final r2)) !! "/cfg/app/db.conf" = None.
Proof.
  intros r1 r2.
  destruct (delete_then_ensure_leaves_empty_node (F:=MemFS) 5 3 "/cfg"
              zkSample fsSample)
    as (_ & Ho & _ & Hc & Hgone & _).
  - exact wellFormed_zkSample.
  - vm_compute. eexists. reflexivity.
  - split; vm_compute; reflexivity.
  - discriminate.
  - lia.
  - intros k [nd Hk]. unfold zkSample in Hk. cbn [nodes] in Hk.
    apply elem_of_list_to_map_2 in Hk.
    repeat (apply elem_of_cons in Hk as [Hk|Hk];
            [injection Hk as -> _; vm_compute; lia|]).
    now apply elem_of_nil in Hk.
  - vm_compute. lia.
  - split; [exact Ho|]. split; [exact Hc|].
    apply Hgone; [|discriminate].
    exists ["app"; "db.conf"]. split; [repeat constructor | reflexivity].
Defined.
